(** * qcomp.gate: gates acting on a register's state vector

    A shallow embedding of [qcomp/gate.py]: dense matrix gates ([MGate]) with
    their composition operators, the oracle builder [construct_unitary_F],
    the index-permutation gate [LazyGate] and the two closed-form appliers
    [LazyCNOT] and [LazyNOT].

    Conventions of the embedding.
    - Amplitudes live in an arbitrary commutative ring (class [Amplitude]);
      the complex floating-point numbers of numpy are idealised to exact
      ring arithmetic, so "equal within tolerance" reads as equality.
    - A numpy 2-D array is a list of rows, a 1-D array a list.  Python
      integers are [Z]; sizes and loop counters that are non-negative by
      construction are [nat].
    - A call that raises in Python returns [Raise e]. *)

From Stdlib Require Import ZArith Lia Ring String Ascii.
From stdpp Require Import base tactics option list list_numbers sorting strings.

Local Open Scope Z_scope.

(** ** Exceptions and the result monad *)

Inductive error : Type :=
  | AssertionError   (* a failed [assert] *)
  | ValueError       (* negative shift count, int() of a bad literal *)
  | ShapeError       (* numpy: operand shapes do not fit (a ValueError) *)
  | IndexError       (* index out of bounds *)
  | RecursionError   (* maximum recursion depth exceeded *)
  | NotImplementedError.

Inductive res (A : Type) : Type :=
  | Ok (a : A)
  | Raise (e : error).
Arguments Ok {A} a.
Arguments Raise {A} e.

#[global] Instance res_ret : MRet res := fun A a => Ok a.
#[global] Instance res_bind : MBind res := fun A B f m =>
  match m with
  | Ok a => f a
  | Raise e => Raise e
  end.

Definition is_Ok {A} (r : res A) : Prop := exists a, r = Ok a.

(** [assert c] *)
Definition py_assert (c : bool) : res unit :=
  if c then Ok tt else Raise AssertionError.

(** ** Amplitudes *)

Class Amplitude (C : Type) : Type := {
  azero : C;
  aone : C;
  aadd : C -> C -> C;
  amul : C -> C -> C;
  asub : C -> C -> C;
  aopp : C -> C;
  amp_ring : ring_theory azero aone aadd amul asub aopp (@eq C)
}.

#[global] Instance Z_amplitude : Amplitude Z := {|
  azero := 0; aone := 1; aadd := Z.add; amul := Z.mul;
  asub := Z.sub; aopp := Z.opp; amp_ring := Zth
|}.

#[global] Instance amplitude_inhabited `{Amplitude C} : Inhabited C :=
  populate azero.


(** sequencing helpers for code that may raise *)
Fixpoint res_mapM {A B} (f : A -> res B) (l : list A) : res (list B) :=
  match l with
  | [] => Ok []
  | x :: l' => y ← f x; ys ← res_mapM f l'; Ok (y :: ys)
  end.

Fixpoint res_foldM {A S} (f : S -> A -> res S) (s : S) (l : list A) : res S :=
  match l with
  | [] => Ok s
  | x :: l' => s' ← f s x; res_foldM f s' l'
  end.

(** ** Python and numpy primitives *)

(** [x << k] and [x >> k]: a negative shift count is a ValueError *)
Definition py_lshift (x k : Z) : res Z :=
  if decide (k < 0) then Raise ValueError else Ok (Z.shiftl x k).
Definition py_rshift (x k : Z) : res Z :=
  if decide (k < 0) then Raise ValueError else Ok (Z.shiftr x k).

(** position of index [i] in a sequence of length [n]; negative indices
    count from the end *)
Definition py_index (n : nat) (i : Z) : res nat :=
  if decide (0 <= i < Z.of_nat n) then Ok (Z.to_nat i)
  else if decide (- Z.of_nat n <= i < 0) then Ok (Z.to_nat (i + Z.of_nat n))
  else Raise IndexError.

(** [l[i]] *)
Definition py_getitem {A} (l : list A) (i : Z) : res A :=
  j ← py_index (length l) i;
  match l !! j with
  | Some x => Ok x
  | None => Raise IndexError
  end.

(** [l[idx]] for an integer array [idx] (a new array) *)
Definition fancy {A} (l : list A) (idx : list Z) : res (list A) :=
  res_mapM (py_getitem l) idx.

(** [l[i:j]] for [0 <= i <= j]: bounds are clipped to the length *)
Definition py_slice {A} (l : list A) (i j : nat) : list A :=
  take (j - i) (drop i l).

(** [l[i:j] = x] on an array: the lengths must agree *)
Definition set_slice {A} (l : list A) (i j : nat) (x : list A) : res (list A) :=
  if decide (length x = length (py_slice l i j))
  then Ok (take i l ++ x ++ drop (i + length x) l)
  else Raise ShapeError.

(** [range(0, stop, step)] for a positive [step] *)
Definition py_range (stop step : nat) : list nat :=
  (fun k => k * step)%nat <$> seq 0 ((stop + step - 1) / step)%nat.

(** [int(s, 2)] on a string of binary digits *)
Fixpoint int2_from (acc : Z) (s : string) : res Z :=
  match s with
  | EmptyString => Ok acc
  | String c s' =>
      if Ascii.eqb c "0" then int2_from (2 * acc) s'
      else if Ascii.eqb c "1" then int2_from (2 * acc + 1) s'
      else Raise ValueError
  end.
Definition py_int2 (s : string) : res Z :=
  match s with
  | EmptyString => Raise ValueError
  | _ => int2_from 0 s
  end.

Section numpy.
Context {C : Type} `{AmpC : Amplitude C}.

Abbreviation vec := (list C).
Abbreviation mat := (list (list C)).

(** *** Vectors *)

Definition vsum (l : vec) : C := foldr aadd azero l.

(** inner product of two 1-D arrays (no conjugation, as [numpy.dot]) *)
Definition dotv (x y : vec) : C := vsum (zip_with amul x y).

(** *** Matrices *)

(** [matrix.shape[0]] and [matrix.shape[1]] *)
Definition shape0 (M : mat) : nat := length M.
Definition shape1 (M : mat) : nat := length (hd [] M).

(** every row has the same length: what being a 2-D array means *)
Definition rect (M : mat) : Prop :=
  Forall (fun r => length r = shape1 M) M.

Definition column (j : nat) (M : mat) : vec := (fun r => r !!! j) <$> M.

(** [matrix.dot(v)] for a 2-D [matrix] and a 1-D [v] *)
Definition dot (M : mat) (v : vec) : res vec :=
  if decide (shape1 M = length v)
  then Ok ((fun r => dotv r v) <$> M)
  else Raise ShapeError.

(** [np.matmul(A, B)] for 2-D arrays:
    entry (i,j) is the sum over k of A[i,k] * B[k,j] *)
Definition matmul (A B : mat) : res mat :=
  if decide (shape1 A = shape0 B)
  then Ok ((fun ra => (fun j => dotv ra (column j B)) <$> seq 0 (shape1 B)) <$> A)
  else Raise ShapeError.

(** [np.kron(A, B)] for 2-D arrays: the block matrix whose (i,j) block is
    A[i,j] * B *)
Definition kron_row (ra rb : vec) : vec :=
  mjoin ((fun a => amul a <$> rb) <$> ra).
Definition kron (A B : mat) : mat :=
  mjoin ((fun ra => (fun rb => kron_row ra rb) <$> B) <$> A).

(** [M[i, j]] for indices in range *)
Definition entry (M : mat) (i j : nat) : option C :=
  r ← M !! i; r !! j.

(** [np.zeros(n)], [np.zeros([n, m])], and the basis state |i> *)
Definition np_zeros (n : nat) : vec := replicate n azero.
Definition np_zeros2 (n m : nat) : mat := replicate n (np_zeros m).
Definition basis_vec (n i : nat) : vec := <[i := aone]> (np_zeros n).

(** [M[r, c] = x] *)
Definition mat_setitem (M : mat) (r c : Z) (x : C) : res mat :=
  i ← py_index (shape0 M) r;
  j ← py_index (shape1 M) c;
  Ok (alter (fun row => <[j := x]> row) i M).

(** ** The dense gate *)

Record MGate : Type := mkMGate {
  matrix : mat;
  qreg_size : nat
}.

(** [MGate.__init__] *)
Definition MGate_init (m : mat) (size : nat) : res MGate :=
  _ ← py_assert (bool_decide (shape0 m = shape1 m));
  _ ← py_assert (bool_decide (2 ^ size = shape0 m)%nat);
  Ok (mkMGate m size).

(** [MGate.__add__] *)
Definition MGate_add (self other : MGate) : res MGate :=
  m ← matmul (matrix self) (matrix other);
  MGate_init m (qreg_size self).

(** [MGate.__mul__] *)
Definition MGate_mul (self other : MGate) : res MGate :=
  MGate_init (kron (matrix self) (matrix other))
             (qreg_size self + qreg_size other).

(** [MGate.__pow__]: [self*self**(i-1)] parses as [self * (self ** (i-1))].
    The recursion only stops at [i == 1]; [depth] is the interpreter's
    recursion limit, and exhausting it is Python's RecursionError. *)
Fixpoint MGate_pow (depth : nat) (self : MGate) (i : Z) : res MGate :=
  match depth with
  | O => Raise RecursionError
  | S depth' =>
      if decide (i = 1) then Ok self
      else r ← MGate_pow depth' self (i - 1); MGate_mul self r
  end.

(** the module's constant gates that need no square root *)
Definition NOT : res MGate := MGate_init [[azero; aone]; [aone; azero]] 1.
Definition CNOT : res MGate :=
  MGate_init [[aone; azero; azero; azero]; [azero; aone; azero; azero];
              [azero; azero; azero; aone]; [azero; azero; aone; azero]] 2.
Definition SWAP : res MGate :=
  MGate_init [[aone; azero; azero; azero]; [azero; azero; aone; azero];
              [azero; aone; azero; azero]; [azero; azero; azero; aone]] 2.

(** ** Registers and array storage *)

(** A 1-D numpy array is a view into a buffer: element [j] of the array is
    the buffer cell [start + j * step].  Slicing gives a view of the same
    buffer; [copy], [zeros], [dot] and integer-array indexing give an array
    over a new buffer. *)
Record ndarray : Type := mkndarray {
  buf : nat;
  start : Z;
  step : Z;
  len : nat
}.

(** Modelled from the spec: the register class [QReg] of [qcomp.qregister],
    which is not part of [gate.py].  A register exposes a qubit count
    ([nbits], also what [len(qreg)] returns), an amplitude vector [state]
    of length 2^nbits, and [QReg(n, state)] builds a register from a qubit
    count and a state vector. *)
Record QReg : Type := mkQReg {
  nbits : nat;
  state : ndarray
}.

(** the store: buffer addresses are positions in the list *)
Abbreviation heap := (list (list C)).

Definition io (A : Type) : Type := heap -> res A * heap.

#[global] Instance io_ret : MRet io := fun A a h => (Ok a, h).
#[global] Instance io_bind : MBind io := fun A B f m h =>
  match m h with
  | (Ok a, h') => f a h'
  | (Raise e, h') => (Raise e, h')
  end.

Definition io_lift {A} (r : res A) : io A := fun h => (r, h).

Fixpoint io_for {A} (l : list A) (body : A -> io unit) : io unit :=
  match l with
  | [] => mret tt
  | x :: l' => _ ← body x; io_for l' body
  end.

Definition elem_pos (a : ndarray) (j : nat) : Z :=
  start a + Z.of_nat j * step a.

Definition buf_get (b : vec) (p : Z) : option C :=
  if decide (0 <= p) then b !! Z.to_nat p else None.

(** the elements of an array, in order *)
Definition contents (h : heap) (a : ndarray) : option vec :=
  b ← h !! buf a; mapM (fun j => buf_get b (elem_pos a j)) (seq 0 (len a)).

Definition np_read (a : ndarray) : io vec := fun h =>
  match contents h a with
  | Some v => (Ok v, h)
  | None => (Raise IndexError, h)
  end.

(** a new array over a fresh buffer holding [data] *)
Definition np_array (data : vec) : io ndarray := fun h =>
  (Ok (mkndarray (length h) 0 1 (length data)), h ++ [data]).

(** write element [j] of the array *)
Definition np_store (a : ndarray) (j : nat) (x : C) : io unit := fun h =>
  match h !! buf a with
  | Some b =>
      let p := elem_pos a j in
      if decide (0 <= p < Z.of_nat (length b))
      then (Ok tt, <[buf a := <[Z.to_nat p := x]> b]> h)
      else (Raise IndexError, h)
  | None => (Raise IndexError, h)
  end.

(** [a.copy()] *)
Definition np_copy (a : ndarray) : io ndarray :=
  v ← np_read a; np_array v.

(** [a[i]] and [a[i] = x] for an integer [i] *)
Definition np_getitem (a : ndarray) (i : Z) : io C :=
  v ← np_read a; io_lift (py_getitem v i).
Definition np_setitem (a : ndarray) (i : Z) (x : C) : io unit :=
  j ← io_lift (py_index (len a) i); np_store a j x.

(** [a[::-1]]: a view of the same buffer, walked backwards *)
Definition np_reversed (a : ndarray) : ndarray :=
  mkndarray (buf a) (start a + (Z.of_nat (len a) - 1) * step a)
            (- step a) (len a).

(** the value assigned by [a[idx] = vals]: same length, or one element
    repeated *)
Definition broadcast (vals : vec) (n : nat) : res vec :=
  if decide (length vals = n) then Ok vals
  else match vals with
       | [x] => Ok (replicate n x)
       | _ => Raise ShapeError
       end.

(** [a[idx] = vals] for an integer array [idx]: all indices are checked
    before the first write *)
Definition np_put (a : ndarray) (idx : list Z) (vals : vec) : io unit :=
  js ← io_lift (res_mapM (py_index (len a)) idx);
  vals' ← io_lift (broadcast vals (length idx));
  io_for (zip js vals') (fun jx => np_store a jx.1 jx.2).

(** [Gate.apply], the generic interface: it asserts the register's size and
    has no implementation.  [MGate.apply] and [LazyGate.apply] override it
    and do not call it, so its assertion is not part of their behaviour. *)
Definition Gate_apply (qreg_size : nat) (qreg : QReg) : io QReg :=
  _ ← io_lift (py_assert (bool_decide (nbits qreg = qreg_size)));
  io_lift (Raise NotImplementedError).

(** [MGate.apply] *)
Definition MGate_apply (self : MGate) (qreg : QReg) : io QReg :=
  v ← np_read (state qreg);
  w ← io_lift (dot (matrix self) v);
  new_state ← np_array w;
  mret (mkQReg (nbits qreg) new_state).

(** ** The oracle builder *)

(** Modelled from the spec: the basis labels [QReg(n).bases] of
    [qcomp.qregister], which is not part of [gate.py]: the strings of 0/1
    of length [n], in index order. *)
Fixpoint basis_label (n : nat) (x : nat) : string :=
  match n with
  | O => EmptyString
  | S n' => String.append (basis_label n' (x / 2))
                           (if decide (x mod 2 = 0)%nat then "0" else "1")
  end.
Definition QReg_bases (n : nat) : list string :=
  (fun x => basis_label n x) <$> seq 0 (2 ^ n).

(** one pass of the loop body of [construct_unitary_F] *)
Definition oracle_step (fdef : list string) (cmatrix : mat)
    (it : string * nat) : res mat :=
  let '(base, i_col) := it in
  if bool_decide (base ∈ fdef) then
    target_state ← py_int2 (String.append base "1");
    cmatrix ← mat_setitem cmatrix target_state (Z.of_nat i_col) aone;
    target_state ← py_int2 (String.append base "0");
    mat_setitem cmatrix target_state (Z.of_nat i_col + 1) aone
  else
    target_state ← py_int2 (String.append base "0");
    cmatrix ← mat_setitem cmatrix target_state (Z.of_nat i_col) aone;
    target_state ← py_int2 (String.append base "1");
    mat_setitem cmatrix target_state (Z.of_nat i_col + 1) aone.

(** [construct_unitary_F(fdef, in_size)]; [None] is the default argument,
    and [not in_size] also holds for 0 *)
Definition construct_unitary_F (fdef : list string) (in_size : option nat)
    : res MGate :=
  in_size ← match in_size with
            | Some (S n) => Ok (S n)
            | _ => s ← py_getitem fdef 0; Ok (String.length s)
            end;
  let reg_size := (in_size + 1)%nat in
  let dummy_bases := QReg_bases in_size in
  let cmatrix := np_zeros2 (2 ^ reg_size) (2 ^ reg_size) in
  cmatrix ← res_foldM (oracle_step fdef) cmatrix
              (zip dummy_bases (py_range (2 ^ reg_size) 2));
  MGate_init cmatrix reg_size.

(** ** The lazy gate

    [bases] is a numpy array of 64-bit integers holding basis indices below
    [2^qreg_size]; the masks [1 << q] are Python integers.  For positions
    below 63 every intermediate value fits 64 bits, and the embedding uses
    unbounded integers. *)

Record LazyGate : Type := mkLazyGate {
  lqreg_size : nat;
  lmatrix : mat;
  msize : nat;
  qsize : nat;
  bases : list Z;
  qbpos : list Z;
  specpos : list Z
}.

(** [LazyGate.get_qbpos]: the loop from index [i] on, [n = len(self.qbpos)].
    In the source line [<<], [>>] associate to the left and [-] binds
    tighter, so the update is [a | (((base & (1<<q)) >> q) << (n-i-1))]. *)
Fixpoint get_qbpos_from (n i : nat) (qs : list Z) (base a : Z) : res Z :=
  match qs with
  | [] => Ok a
  | q :: qs' =>
      m ← py_lshift 1 q;
      b ← py_rshift (Z.land base m) q;
      t ← py_lshift b (Z.of_nat n - Z.of_nat i - 1);
      get_qbpos_from n (S i) qs' base (Z.lor a t)
  end.
Definition get_qbpos (qbpos : list Z) (base : Z) : res Z :=
  get_qbpos_from (length qbpos) 0 qbpos base 0.

(** [LazyGate.get_spectator]: the loop from index [i] on *)
Fixpoint get_spectator_from (i : nat) (qs : list Z) (base a : Z) : res Z :=
  match qs with
  | [] => Ok a
  | q :: qs' =>
      m ← py_lshift 1 q;
      t ← py_rshift (Z.land base m) (q - Z.of_nat i);
      get_spectator_from (S i) qs' base (Z.lor a t)
  end.
Definition get_spectator (specpos : list Z) (base : Z) : res Z :=
  get_spectator_from 0 specpos base 0.

(** [LazyGate.gather_qbpos] and [LazyGate.gather_spectators] *)
Definition gather_qbpos (qbpos bases : list Z) : res (list Z) :=
  res_mapM (get_qbpos qbpos) bases.
Definition gather_spectators (specpos bases : list Z) : res (list Z) :=
  res_mapM (get_spectator specpos) bases.

Section lazy.
(** [np.argsort] is numpy's; the development only relies on its contract
    (see [argsort_spec]), not on how ties are ordered. *)
Variable argsort : list Z -> list Z.

(** one pass of the second loop of [LazyGate.__init__] *)
Definition sort_block (msize : nat) (gbits bases : list Z) (i : nat)
    : res (list Z) :=
  blk ← fancy (py_slice bases i (i + msize))
              (argsort (py_slice gbits i (i + msize)));
  set_slice bases i (i + msize) blk.

(** [LazyGate.__init__] *)
Definition LazyGate_init (matrix : mat) (qbpos : list Z) (qreg_size : nat)
    : res LazyGate :=
  let msize := (2 ^ length qbpos)%nat in
  let qsize := (2 ^ qreg_size)%nat in
  let bases := seqZ 0 (Z.of_nat qsize) in
  let specpos := filter (fun x => x ∉ qbpos) (seqZ 0 (Z.of_nat qreg_size)) in
  skeys ← gather_spectators specpos bases;
  bases ← fancy bases (argsort skeys);
  gbits ← gather_qbpos qbpos bases;
  bases ← res_foldM (sort_block msize gbits) bases (py_range qsize msize);
  Ok (mkLazyGate qreg_size matrix msize qsize bases qbpos specpos).

End lazy.

(** the loop body of [LazyGate.apply]:
    [new_state[idx] = self.matrix.dot(qreg.state[idx])] for
    [idx = self.bases[i:i+self.msize]] *)
Definition LazyGate_apply_body (self : LazyGate) (qreg : QReg)
    (new_state : ndarray) (i : nat) : io unit :=
  let idx := py_slice (bases self) i (i + msize self) in
  st ← np_read (state qreg);
  g ← io_lift (fancy st idx);
  w ← io_lift (dot (lmatrix self) g);
  np_put new_state idx w.

(** [LazyGate.apply] *)
Definition LazyGate_apply (self : LazyGate) (qreg : QReg) : io QReg :=
  st ← np_read (state qreg);
  new_state ← np_array (np_zeros (length st));
  _ ← io_for (py_range (qsize self) (msize self))
             (LazyGate_apply_body self qreg new_state);
  mret (mkQReg (nbits qreg) new_state).

(** ** The element accesses of [LazyGate.apply]

    [LazyGate.apply] once more, statement by statement, now recording every
    load and every store of an array element in the order the loop performs
    them.  A load or store names the buffer and the cell it touches; the
    allocation [np.zeros] of the new state and the reads that
    [matrix.dot] makes of its own operands are not accesses to the
    elements of the input or of the result and are not recorded.  The
    recorded run returns what [LazyGate_apply] returns (see
    [LazyGate_bases_permutation]). *)

Inductive access : Type :=
  | Load (buffer : nat) (cell : Z)
  | Store (buffer : nat) (cell : Z).

Definition tio (A : Type) : Type := heap -> res A * heap * list access.

Definition tio_ret {A} (a : A) : tio A := fun h => (Ok a, h, []).
Definition tio_bind {A B} (m : tio A) (f : A -> tio B) : tio B := fun h =>
  match m h with
  | (Ok a, h', l) =>
      match f a h' with
      | (r, h'', l') => (r, h'', l ++ l')
      end
  | (Raise e, h', l) => (Raise e, h', l)
  end.

(** a step that touches no array element *)
Definition tio_lift {A} (m : io A) : tio A := fun h => (m h, []).

Fixpoint tio_for {A} (l : list A) (body : A -> tio unit) : tio unit :=
  match l with
  | [] => tio_ret tt
  | x :: l' => tio_bind (body x) (fun _ => tio_for l' body)
  end.

Fixpoint tio_mapM {A B} (f : A -> tio B) (l : list A) : tio (list B) :=
  match l with
  | [] => tio_ret []
  | x :: l' =>
      tio_bind (f x) (fun y =>
      tio_bind (tio_mapM f l') (fun ys => tio_ret (y :: ys)))
  end.

(** the load of element [j] of an array *)
Definition np_load (a : ndarray) (j : nat) : tio C := fun h =>
  match h !! buf a ≫= (fun b => buf_get b (elem_pos a j)) with
  | Some x => (Ok x, h, [Load (buf a) (elem_pos a j)])
  | None => (Raise IndexError, h, [])
  end.

(** the store of element [j] of an array: [np_store], recorded *)
Definition np_store_traced (a : ndarray) (j : nat) (x : C) : tio unit :=
  fun h =>
  match np_store a j x h with
  | (Ok u, h') => (Ok u, h', [Store (buf a) (elem_pos a j)])
  | (Raise e, h') => (Raise e, h', [])
  end.

(** [a[idx]] for an integer array [idx]: the indices are checked, then the
    elements are loaded one by one *)
Definition np_take_traced (a : ndarray) (idx : list Z) : tio vec :=
  tio_bind (tio_lift (io_lift (res_mapM (py_index (len a)) idx))) (fun js =>
  tio_mapM (np_load a) js).

(** [a[idx] = vals], as [np_put], with its stores recorded *)
Definition np_put_traced (a : ndarray) (idx : list Z) (vals : vec)
    : tio unit :=
  tio_bind (tio_lift (io_lift (res_mapM (py_index (len a)) idx))) (fun js =>
  tio_bind (tio_lift (io_lift (broadcast vals (length idx)))) (fun vals' =>
  tio_for (zip js vals') (fun jx => np_store_traced a jx.1 jx.2))).

(** the loop body of [LazyGate.apply] *)
Definition LazyGate_apply_body_traced (self : LazyGate) (qreg : QReg)
    (new_state : ndarray) (i : nat) : tio unit :=
  let idx := py_slice (bases self) i (i + msize self) in
  tio_bind (np_take_traced (state qreg) idx) (fun g =>
  tio_bind (tio_lift (io_lift (dot (lmatrix self) g))) (fun w =>
  np_put_traced new_state idx w)).

(** [LazyGate.apply] *)
Definition LazyGate_apply_traced (self : LazyGate) (qreg : QReg) : tio QReg :=
  tio_bind (tio_lift (np_read (state qreg))) (fun st =>
  tio_bind (tio_lift (np_array (np_zeros (length st)))) (fun new_state =>
  tio_bind (tio_for (py_range (qsize self) (msize self))
              (LazyGate_apply_body_traced self qreg new_state)) (fun _ =>
  tio_ret (mkQReg (nbits qreg) new_state)))).

(** the cells loaded, and the cells stored, in order *)
Definition loaded (log : list access) : list (nat * Z) :=
  omap (fun a => match a with
                 | Load b p => Some (b, p)
                 | Store _ _ => None
                 end) log.
Definition stored (log : list access) : list (nat * Z) :=
  omap (fun a => match a with
                 | Store b p => Some (b, p)
                 | Load _ _ => None
                 end) log.

(** ** The closed-form appliers *)

(** [LazyCNOT.dot]: the right-hand side [new_state[-2], new_state[-1]] is
    read first, then [new_state[-1]] and [new_state[-2]] are written *)
Definition LazyCNOT_dot (qreg_state : ndarray) : io ndarray :=
  new_state ← np_copy qreg_state;
  x ← np_getitem new_state (-2);
  y ← np_getitem new_state (-1);
  _ ← np_setitem new_state (-1) x;
  _ ← np_setitem new_state (-2) y;
  mret new_state.

(** [LazyNOT.dot] *)
Definition LazyNOT_dot (qreg_state : ndarray) : io ndarray :=
  mret (np_reversed qreg_state).

End numpy.

(** ** Reference definitions used by the statements *)

Section reference.
Context {C : Type} `{AmpC : Amplitude C}.

(** the register [qreg] holds the amplitudes [v] in store [h] *)
Definition reg_state (h : list (list C)) (qreg : QReg) : option (list C) :=
  contents h (state qreg).

(** a well-formed [n]-qubit register: 2^n amplitudes *)
Definition is_register (h : list (list C)) (qreg : QReg) (n : nat) (v : list C) : Prop :=
  nbits qreg = n /\ reg_state h qreg = Some v /\ length v = (2 ^ n)%nat.

(** a [2^k x 2^k] array *)
Definition square (k : nat) (M : list (list C)) : Prop :=
  length M = (2 ^ k)%nat /\ Forall (fun r => length r = (2 ^ k)%nat) M.

(** a dense gate over [k] qubits: what [MGate.__init__] accepts *)
Definition dense_gate (g : MGate) (k : nat) : Prop :=
  qreg_size g = k /\ square k (matrix g).

(** [A] tensored with itself [d] more times, [A] on the left *)
Fixpoint kron_power (A : list (list C)) (d : nat) : list (list C) :=
  match d with
  | O => A
  | S d' => kron A (kron_power A d')
  end.

(** what the specification calls repeated application: [self] composed
    with itself [d] more times by [+] *)
Fixpoint spec_sequential_power (self : MGate) (d : nat) : res MGate :=
  match d with
  | O => Ok self
  | S d' => r ← spec_sequential_power self d'; MGate_add self r
  end.

(** *** The loop of [LazyGate.apply] on amplitudes

    [new_state] is private to [LazyGate.apply] until it is returned, so the
    loop can be read as a function of the input amplitudes [st] and the
    amplitudes written so far. *)
Definition scatter (b : list C) (jxs : list (nat * C)) : list C :=
  foldl (fun acc jx => <[jx.1 := jx.2]> acc) b jxs.

Definition put_values (b : list C) (idx : list Z) (vals : list C)
    : res (list C) :=
  js ← res_mapM (py_index (length b)) idx;
  vals' ← broadcast vals (length idx);
  Ok (scatter b (zip js vals')).

Definition lazy_block (self : LazyGate) (st new_state : list C) (i : nat)
    : res (list C) :=
  let idx := py_slice (bases self) i (i + msize self) in
  g ← fancy st idx;
  w ← dot (lmatrix self) g;
  put_values new_state idx w.

Definition LazyGate_new_state (self : LazyGate) (st : list C) : res (list C) :=
  res_foldM (lazy_block self st) (np_zeros (length st))
            (py_range (qsize self) (msize self)).

(** *** The dense gate a lazy gate stands for

    Qubit [q] of a basis index is its bit [q].  The local index of a basis
    index lists its bits at the target positions, first target position
    most significant.  Tensoring [U] with identities gives the entry
    [U[r_P, c_P]] times the entries [eye(2)[r_q, c_q]] of the identity at
    every other position [q]. *)
Fixpoint target_index (P : list Z) (x : Z) : Z :=
  match P with
  | [] => 0
  | q :: P' => Z.b2z (Z.testbit x q) * 2 ^ Z.of_nat (length P') + target_index P' x
  end.

Definition eye2 (a b : bool) : C := if Bool.eqb a b then aone else azero.

Definition spectator_factor (n : nat) (P : list Z) (r c : Z) : C :=
  foldr amul aone
    ((fun q => eye2 (Z.testbit r q) (Z.testbit c q)) <$>
       filter (fun q => q ∉ P) (seqZ 0 (Z.of_nat n))).

Definition embedded_entry (U : list (list C)) (P : list Z) (n : nat) (r c : Z) : C :=
  amul ((U !!! Z.to_nat (target_index P r)) !!! Z.to_nat (target_index P c))
       (spectator_factor n P r c).

Definition dense_embedding (U : list (list C)) (P : list Z) (n : nat)
    : list (list C) :=
  (fun r => (fun c => embedded_entry U P n r c) <$> seqZ 0 (2 ^ Z.of_nat n))
    <$> seqZ 0 (2 ^ Z.of_nat n).

End reference.

(** the contract of [np.argsort]: the result lists every index once and
    reads the keys in non-decreasing order *)
Definition argsort_spec (argsort : list Z -> list Z) : Prop :=
  forall ks : list Z,
    argsort ks ≡ₚ seqZ 0 (Z.of_nat (length ks)) /\
    Sorted Z.le ((fun i => ks !!! Z.to_nat i) <$> argsort ks).

(** an [argsort] to run the definitions with: merge sort of the keys paired
    with their indices *)
Definition key_le (a b : Z * Z) : Prop := a.1 <= b.1.
#[global] Instance key_le_dec a b : Decision (key_le a b) := Z_le_dec a.1 b.1.
Definition msort_argsort (ks : list Z) : list Z :=
  snd <$> merge_sort key_le (zip ks (seqZ 0 (Z.of_nat (length ks)))).

(** a second one, which orders equal keys the other way round: merge sort
    of the pairs taken from the last index to the first *)
Definition tie_argsort (ks : list Z) : list Z :=
  snd <$> merge_sort key_le (reverse (zip ks (seqZ 0 (Z.of_nat (length ks))))).

(** ** Vocabulary of the proofs *)

(** the bits of [x] at the positions [qs], first position least
    significant: what [get_spectator] packs *)
Fixpoint spectator_index (qs : list Z) (x : Z) : Z :=
  match qs with
  | [] => 0
  | q :: qs' => Z.b2z (Z.testbit x q) + 2 * spectator_index qs' x
  end.

(** position [idx] of the list is at least [i + idx] *)
Fixpoint ascending_from (i : Z) (qs : list Z) : Prop :=
  match qs with
  | [] => True
  | q :: qs' => i <= q /\ ascending_from (i + 1) qs'
  end.

(** the table after the first sort: the indices ordered by spectator key *)
Definition first_sort (argsort : list Z -> list Z) (qbpos : list Z) (n : nat)
    : list Z :=
  argsort (spectator_index
             (filter (fun x => x ∉ qbpos) (seqZ 0 (Z.of_nat n)))
           <$> seqZ 0 (Z.of_nat (2 ^ n))).

(** the table while the second loop runs: the first [k] blocks are final,
    the rest is as the first sort left it *)
Definition table_upto (argsort : list Z -> list Z) (P : list Z) (n : nat)
    (bases : list Z) (k : nat) : Prop :=
  bases ≡ₚ first_sort argsort P n /\
  (forall (k' j : nat) (b : Z),
     (k' < k)%nat -> (j < 2 ^ length P)%nat ->
     bases !! (k' * 2 ^ length P + j)%nat = Some b ->
     spectator_index (filter (fun x => x ∉ P) (seqZ 0 (Z.of_nat n))) b
       = Z.of_nat k' /\
     target_index P b = Z.of_nat j) /\
  (forall p : nat,
     (k * 2 ^ length P <= p)%nat -> bases !! p = first_sort argsort P n !! p).

Section vocabulary.
Context {C : Type} `{AmpC : Amplitude C}.

(** a square matrix given by its entries *)
Definition mat_is (M : list (list C)) (N : nat) (f : nat -> nat -> C) : Prop :=
  length M = N /\ Forall (fun row => length row = N) M /\
  forall r c, (r < N)%nat -> (c < N)%nat -> entry M r c = Some (f r c).

(** where column [c] of the oracle has its 1 once the loop is over *)
Definition oracle_image (fdef : list string) (L c : nat) : nat :=
  if bool_decide (basis_label L (c / 2) ∈ fdef)
  then (2 * (c / 2) + (1 - c mod 2))%nat
  else c.

(** the oracle's matrix after the first [t] passes *)
Definition oracle_partial (fdef : list string) (L t r c : nat) : C :=
  if decide ((c < 2 * t)%nat /\ r = oracle_image fdef L c) then aone else azero.

(** the value [LazyGate.apply] writes at basis index [tbl[k*2^m + j]],
    [m] target positions [P], table [tbl], input amplitudes [v] *)
Definition block_value (U : list (list C)) (P : list Z) (tbl : list Z)
    (v : list C) (k j : nat) : C :=
  dotv (U !!! j)
       ((fun b : Z => v !!! Z.to_nat b)
          <$> take (2 ^ length P) (drop (k * 2 ^ length P) tbl)).

(** the amplitudes written after the first [k] passes *)
Definition written_upto (U : list (list C)) (P : list Z) (n : nat)
    (tbl : list Z) (v new : list C) (k : nat) : Prop :=
  length new = (2 ^ n)%nat /\
  forall (k' j : nat) (b : Z),
    (k' < k)%nat -> (j < 2 ^ length P)%nat ->
    tbl !! (k' * 2 ^ length P + j)%nat = Some b ->
    new !! Z.to_nat b = Some (block_value U P tbl v k' j).

End vocabulary.

(** ** The remaining constant gates of the module *)

Section constants.
Context {C : Type} `{AmpC : Amplitude C}.

(** [np.eye(n)] *)
Definition np_eye (n : nat) : list (list C) :=
  (fun i => basis_vec n i) <$> seq 0 n.

(** [M[-k:, -k:] = B] for a 2-D [B]: the slices start [k] before the end,
    or at 0 when the axis is shorter.  [B] is given with the shape of the
    selected block, as the module does; numpy's broadcasting of a smaller
    [B] is not part of the embedding, which raises on any other shape. *)
Definition set_corner (M : list (list C)) (k : nat) (B : list (list C))
    : res (list (list C)) :=
  let r0 := (shape0 M - k)%nat in
  let c0 := (shape1 M - k)%nat in
  if decide (shape0 B = (shape0 M - r0)%nat /\
             Forall (fun row => length row = (shape1 M - c0)%nat) B)
  then Ok (take r0 M ++
           zip_with (fun row brow => take c0 row ++ brow) (drop r0 M) B)
  else Raise ShapeError.

(** [I], the identity on one qubit; the name [I] is taken in Rocq *)
Definition I_gate : res MGate := MGate_init (np_eye 2) 1.

Definition CNOT_r : res MGate :=
  MGate_init [[aone; azero; azero; azero]; [azero; azero; azero; aone];
              [azero; azero; aone; azero]; [azero; aone; azero; azero]] 2.

(** [CCNOT]: the identity on three qubits with its last 2x2 block
    overwritten *)
Definition CCNOT : res MGate :=
  cc_array ← set_corner (np_eye 8) 2 [[azero; aone]; [aone; azero]];
  MGate_init cc_array 3.

End constants.

(** ** Concrete gates over the integers, for the examples *)

Definition eye2_Z : list (list Z) := [[1; 0]; [0; 1]].
Definition U1_Z : list (list Z) := [[2; 3]; [5; 7]].
Definition U2_Z : list (list Z) :=
  [[1; 2; 3; 4]; [5; 6; 7; 8]; [9; 10; 11; 12]; [13; 14; 15; 16]].
Definition NOT_Z : MGate := mkMGate [[0; 1]; [1; 0]] 1.
Definition CNOT_Z : MGate :=
  mkMGate [[1; 0; 0; 0]; [0; 1; 0; 0]; [0; 0; 0; 1]; [0; 0; 1; 0]] 2.
Definition SWAP_Z : MGate :=
  mkMGate [[1; 0; 0; 0]; [0; 0; 1; 0]; [0; 1; 0; 0]; [0; 0; 0; 1]] 2.

(** ** Generic facts *)

Lemma res_bind_Ok {A B} (f : A -> res B) (m : res A) (b : B) :
  m ≫= f = Ok b <-> exists a, m = Ok a /\ f a = Ok b.
Proof.
  destruct m as [a|e]; simpl; split.
  - intros Hf. exists a. auto.
  - intros (a' & Ha & Hf). congruence.
  - discriminate.
  - intros (a' & Ha & _). discriminate.
Qed.

Lemma res_bind_Ok_l {A B} (f : A -> res B) (a : A) : Ok a ≫= f = f a.
Proof. done. Qed.

Lemma res_mapM_Ok {A B} (f : A -> res B) (g : A -> B) (l : list A) :
  Forall (fun x => f x = Ok (g x)) l -> res_mapM f l = Ok (g <$> l).
Proof.
  induction 1 as [|x l Hx _ IH]; simpl; [done|].
  rewrite Hx. simpl. rewrite IH. done.
Qed.

Lemma res_mapM_length {A B} (f : A -> res B) (l : list A) (k : list B) :
  res_mapM f l = Ok k -> length k = length l.
Proof.
  revert k. induction l as [|x l IH]; simpl; intros k Hk.
  - by inversion Hk.
  - destruct (f x) as [y|]; simpl in Hk; [|done].
    destruct (res_mapM f l) as [ys|]; simpl in Hk; [|done].
    inversion Hk; subst. simpl. f_equal. by apply IH.
Qed.

Lemma py_index_inrange (n : nat) (i : Z) :
  0 <= i < Z.of_nat n -> py_index n i = Ok (Z.to_nat i).
Proof. intros Hi. unfold py_index. by rewrite decide_True. Qed.

Lemma py_getitem_inrange {A} (l : list A) (i : Z) (x : A) :
  0 <= i -> l !! Z.to_nat i = Some x -> py_getitem l i = Ok x.
Proof.
  intros Hi Hx. unfold py_getitem.
  rewrite py_index_inrange; [simpl; by rewrite Hx|].
  apply lookup_lt_Some in Hx. lia.
Qed.

Section algebra.
Context {C : Type} `{AmpC : Amplitude C}.
Add Ring amplitude_ring : amp_ring.

Implicit Types (x y v : list C) (A B M : list (list C)).

Lemma vsum_app x y : vsum (x ++ y) = aadd (vsum x) (vsum y).
Proof.
  unfold vsum. induction x as [|a x IH]; simpl.
  - ring.
  - rewrite IH. ring.
Qed.

Lemma vsum_Permutation x y : x ≡ₚ y -> vsum x = vsum y.
Proof.
  unfold vsum. induction 1; simpl; try congruence. ring.
Qed.

Lemma vsum_zeros x : Forall (fun a => a = azero) x -> vsum x = azero.
Proof.
  unfold vsum. induction 1 as [|a x -> _ IH]; simpl; [done|].
  rewrite IH. ring.
Qed.

Lemma dotv_nil_l y : dotv [] y = azero.
Proof. done. Qed.

Lemma dotv_nil_r x : dotv x [] = azero.
Proof. by destruct x. Qed.

Lemma dotv_cons a b x y : dotv (a :: x) (b :: y) = aadd (amul a b) (dotv x y).
Proof. done. Qed.

(** the inner product is linear in its first argument *)
Lemma dotv_linear {X} (a : C) (f g : X -> C) (l : list X) v :
  dotv ((fun j => aadd (amul a (f j)) (g j)) <$> l) v =
  aadd (amul a (dotv (f <$> l) v)) (dotv (g <$> l) v).
Proof.
  revert v. induction l as [|j l IH]; intros [|b v];
    rewrite ?fmap_nil, ?fmap_cons, ?dotv_nil_l, ?dotv_nil_r, ?dotv_cons;
    try ring.
  rewrite IH. ring.
Qed.

Lemma dotv_zero_l {X} (l : list X) v : dotv ((fun _ => azero) <$> l) v = azero.
Proof.
  revert v. induction l as [|j l IH]; intros [|b v];
    rewrite ?fmap_nil, ?fmap_cons, ?dotv_nil_l, ?dotv_nil_r, ?dotv_cons;
    try ring.
  rewrite IH. ring.
Qed.

Lemma fmap_lookup_total_seq x :
  (fun j => x !!! j) <$> seq 0 (length x) = x.
Proof.
  apply list_eq. intros i. rewrite list_lookup_fmap.
  destruct (decide (i < length x)%nat) as [Hi|Hi].
  - rewrite lookup_seq_lt by done. simpl.
    destruct (lookup_lt_is_Some_2 x i Hi) as [a Ha].
    by rewrite (list_lookup_total_correct _ _ _ Ha), Ha.
  - rewrite lookup_seq_ge by lia. simpl. symmetry.
    apply lookup_ge_None. lia.
Qed.

(** a row times a matrix, then times a vector *)
Lemma dotv_row_matrix B : forall x v,
  Forall (fun rb => length rb = length v) B ->
  length x = length B ->
  dotv ((fun j => dotv x (column j B)) <$> seq 0 (length v)) v =
  dotv x ((fun rb => dotv rb v) <$> B).
Proof.
  induction B as [|rb B IH]; intros x v Hrect Hlen.
  - destruct x; [|done]. simpl. rewrite dotv_nil_l.
    apply (dotv_zero_l (seq 0 (length v)) v).
  - destruct x as [|a x]; [done|].
    apply Forall_cons in Hrect as [Hrb Hrect].
    rewrite fmap_cons, dotv_cons.
    rewrite <- (IH x v Hrect) by (simpl in Hlen; lia).
    assert (E : (fun j => rb !!! j) <$> seq 0 (length v) = rb)
      by (rewrite <- Hrb; apply fmap_lookup_total_seq).
    pose proof (dotv_linear a (fun j => rb !!! j)
      (fun j => dotv x (column j B)) (seq 0 (length v)) v) as L.
    rewrite E in L. rewrite <- L. done.
Qed.

End algebra.

(** ** The dense gate: construction and application *)

Section dense.
Context {C : Type} `{AmpC : Amplitude C}.
Add Ring amplitude_ring_dense : amp_ring.

Implicit Types (v w : list C) (A B M : list (list C)) (h : list (list C)).

Lemma pow2_pos (k : nat) : (0 < 2 ^ k)%nat.
Proof. induction k; simpl; lia. Qed.

Lemma square_shape0 k M : square k M -> shape0 M = (2 ^ k)%nat.
Proof. by intros [? _]. Qed.

Lemma square_shape1 k M : square k M -> shape1 M = (2 ^ k)%nat.
Proof.
  intros [Hlen Hrows]. unfold shape1.
  destruct M as [|r M]; simpl in *.
  - pose proof (pow2_pos k). lia.
  - by apply Forall_cons in Hrows as [? _].
Qed.

Lemma MGate_init_square k M : square k M -> MGate_init M k = Ok (mkMGate M k).
Proof.
  intros HM. unfold MGate_init.
  rewrite (square_shape0 k M HM), (square_shape1 k M HM).
  rewrite !bool_decide_eq_true_2 by done. done.
Qed.

Lemma MGate_init_inv M k g :
  MGate_init M k = Ok g ->
  g = mkMGate M k /\ shape0 M = (2 ^ k)%nat /\ shape1 M = (2 ^ k)%nat.
Proof.
  unfold MGate_init. intros Hg.
  destruct (bool_decide (shape0 M = shape1 M)) eqn:E1; simpl in Hg; [|done].
  destruct (bool_decide (2 ^ k = shape0 M)%nat) eqn:E2; simpl in Hg; [|done].
  apply bool_decide_eq_true_1 in E1. apply bool_decide_eq_true_1 in E2.
  inversion Hg. split; [done|]. split; congruence.
Qed.

(** a 2-D array accepted by the constructor is a dense gate *)
Lemma MGate_init_dense M k g :
  rect M -> MGate_init M k = Ok g -> dense_gate g k.
Proof.
  intros Hrect Hg. apply MGate_init_inv in Hg as (-> & H0 & H1).
  split; [done|]. split; [done|]. simpl.
  unfold rect in Hrect. by rewrite H1 in Hrect.
Qed.

Lemma dot_square k M v :
  square k M -> length v = (2 ^ k)%nat ->
  dot M v = Ok ((fun r => dotv r v) <$> M) /\
  length ((fun r => dotv r v) <$> M) = (2 ^ k)%nat.
Proof.
  intros HM Hv. unfold dot.
  rewrite (square_shape1 k M HM), decide_True by done.
  split; [done|]. rewrite length_fmap. apply HM.
Qed.

Lemma dot_shape_mismatch k M v :
  square k M -> length v <> (2 ^ k)%nat -> dot M v = Raise ShapeError.
Proof.
  intros HM Hv. unfold dot.
  rewrite (square_shape1 k M HM), decide_False by done. done.
Qed.

Lemma matmul_square k A B :
  square k A -> square k B ->
  exists M, matmul A B = Ok M /\ square k M /\
    forall v, length v = (2 ^ k)%nat ->
      (fun r => dotv r v) <$> M =
      (fun r => dotv r ((fun rb => dotv rb v) <$> B)) <$> A.
Proof.
  intros HA HB. unfold matmul.
  rewrite (square_shape1 k A HA), (square_shape0 k B HB), decide_True by done.
  rewrite (square_shape1 k B HB).
  eexists. split; [done|]. split.
  - split; [rewrite length_fmap; apply HA|].
    apply Forall_fmap, Forall_forall. intros ra _. simpl.
    by rewrite length_fmap, length_seq.
  - intros v Hv. rewrite <- list_fmap_compose.
    apply Forall_fmap_ext. destruct HA as [_ HA].
    eapply Forall_impl; [exact HA|]. intros ra Hra. simpl.
    rewrite <- Hv. apply dotv_row_matrix.
    + destruct HB as [_ HB]. eapply Forall_impl; [exact HB|].
      intros rb Hrb. simpl in *. congruence.
    + destruct HB as [HB _]. congruence.
Qed.

(** *** Arrays in the store *)

Lemma contents_Some h (a : ndarray) v :
  contents h a = Some v <->
  exists b, h !! buf a = Some b /\ length v = len a /\
    forall j, (j < len a)%nat -> buf_get b (elem_pos a j) = v !! j.
Proof.
  unfold contents. split.
  - intros Hc. destruct (h !! buf a) as [b|]; [|discriminate Hc].
    simpl in Hc. exists b. split; [done|]. apply mapM_Some in Hc.
    apply Forall2_same_length_lookup in Hc as [Hlen Hc].
    rewrite length_seq in Hlen. split; [done|]. intros j Hj.
    destruct (lookup_lt_is_Some_2 v j) as [x Hx]; [lia|].
    rewrite Hx. apply (Hc j j x); [|done].
    by rewrite lookup_seq_lt.
  - intros (b & Hb & Hlen & Hget). rewrite Hb. simpl.
    apply mapM_Some, Forall2_same_length_lookup.
    split; [by rewrite length_seq|].
    intros i j x Hi Hx. apply lookup_seq in Hi as [-> Hi]. simpl.
    by rewrite Hget, Hx.
Qed.

(** a freshly allocated array holds the data it was built from *)
Lemma contents_np_array h v :
  contents (h ++ [v]) (mkndarray (length h) 0 1 (length v)) = Some v.
Proof.
  apply contents_Some. exists v. simpl. split; [|split; [done|]].
  - rewrite lookup_app_r by lia. by rewrite Nat.sub_diag.
  - intros j Hj. unfold buf_get, elem_pos. simpl.
    rewrite decide_True by lia. f_equal. lia.
Qed.

(** allocation leaves every existing array as it was *)
Lemma contents_alloc h (a : ndarray) v w :
  contents h a = Some v -> contents (h ++ [w]) a = Some v.
Proof.
  rewrite !contents_Some. intros (b & Hb & Hrest). exists b.
  split; [|done]. rewrite lookup_app_l; [done|].
  by apply lookup_lt_Some in Hb.
Qed.

Lemma MGate_apply_run (g : MGate) (qreg : QReg) h v :
  reg_state h qreg = Some v ->
  MGate_apply g qreg h =
  match dot (matrix g) v with
  | Ok w => (Ok (mkQReg (nbits qreg) (mkndarray (length h) 0 1 (length w))),
             h ++ [w])
  | Raise e => (Raise e, h)
  end.
Proof.
  intros Hv. unfold MGate_apply, mbind, io_bind, np_read.
  unfold reg_state in Hv. rewrite Hv. unfold io_lift.
  by destruct (dot (matrix g) v).
Qed.

(** applying a [k]-qubit gate to a [k]-qubit register *)
Lemma MGate_apply_dense (g : MGate) (qreg : QReg) k h v :
  dense_gate g k -> is_register h qreg k v ->
  exists qreg' h',
    MGate_apply g qreg h = (Ok qreg', h') /\
    is_register h' qreg' k ((fun r => dotv r v) <$> matrix g) /\
    is_register h' qreg k v /\
    buf (state qreg') = length h /\
    h' = h ++ [(fun r => dotv r v) <$> matrix g].
Proof.
  intros [Hk Hsq] (Hn & Hv & Hlen).
  destruct (dot_square k _ v Hsq Hlen) as [Hdot Hlen'].
  rewrite (MGate_apply_run g qreg h v Hv), Hdot.
  eexists _, _. split; [done|]. split; [|split; [|done]].
  - split; [done|]. split; [|done]. apply contents_np_array.
  - split; [done|]. split; [|done]. by apply contents_alloc.
Qed.

End dense.

(** ** Composition of dense gates *)

Section compose.
Context {C : Type} `{AmpC : Amplitude C}.

Implicit Types (v w : list C) (A B M : list (list C)) (h : list (list C)).

Lemma kron_row_length (ra rb : list C) :
  length (kron_row ra rb) = (length ra * length rb)%nat.
Proof.
  unfold kron_row. rewrite length_join, <- list_fmap_compose.
  rewrite (sum_list_fmap_same (length rb)); [done|].
  apply Forall_forall. intros a _. simpl. by rewrite length_fmap.
Qed.

Lemma kron_row_lookup (ra rb : list C) j l a b :
  ra !! j = Some a -> rb !! l = Some b ->
  kron_row ra rb !! (j * length rb + l)%nat = Some (amul a b).
Proof.
  intros Ha Hb. unfold kron_row.
  apply (join_lookup_Some_same_length' (length rb)).
  - apply Forall_fmap, Forall_forall. intros c _. simpl. by rewrite length_fmap.
  - by apply lookup_lt_Some in Hb.
  - exists (amul a <$> rb). rewrite !list_lookup_fmap, Ha, Hb. done.
Qed.

Lemma kron_length A B : length (kron A B) = (length A * length B)%nat.
Proof.
  unfold kron. rewrite length_join, <- list_fmap_compose.
  rewrite (sum_list_fmap_same (length B)); [done|].
  apply Forall_forall. intros a _. simpl. by rewrite length_fmap.
Qed.

Lemma kron_lookup A B i k ra rb :
  A !! i = Some ra -> B !! k = Some rb ->
  kron A B !! (i * length B + k)%nat = Some (kron_row ra rb).
Proof.
  intros Ha Hb. unfold kron.
  apply (join_lookup_Some_same_length' (length B)).
  - apply Forall_fmap, Forall_forall. intros c _. simpl. by rewrite length_fmap.
  - by apply lookup_lt_Some in Hb.
  - exists ((fun rb => kron_row ra rb) <$> B).
    rewrite !list_lookup_fmap, Ha, Hb. done.
Qed.

(** the entries of [np.kron(A, B)]: block (i,j) is [A[i,j] * B] *)
Lemma kron_entry A B q i j k l a b :
  Forall (fun r => length r = q) B ->
  entry A i j = Some a -> entry B k l = Some b ->
  entry (kron A B) (i * length B + k) (j * q + l) = Some (amul a b).
Proof.
  unfold entry. intros HB Ha Hb.
  destruct (A !! i) as [ra|] eqn:Hra; [|done].
  destruct (B !! k) as [rb|] eqn:Hrb; [|done]. simpl in *.
  rewrite (kron_lookup A B i k ra rb Hra Hrb). simpl.
  assert (length rb = q) as <-.
  { rewrite Forall_forall in HB. apply HB. by eapply list_elem_of_lookup_2. }
  by apply kron_row_lookup.
Qed.

Lemma kron_square k1 k2 A B :
  square k1 A -> square k2 B -> square (k1 + k2) (kron A B).
Proof.
  intros [HA HAr] [HB HBr]. split.
  - rewrite kron_length, HA, HB. by rewrite Nat.pow_add_r.
  - unfold kron. apply Forall_join, Forall_fmap, Forall_forall.
    intros ra Hra. simpl. apply Forall_fmap, Forall_forall. intros rb Hrb.
    simpl. rewrite kron_row_length.
    rewrite Forall_forall in HAr, HBr.
    rewrite (HAr ra Hra), (HBr rb Hrb). by rewrite Nat.pow_add_r.
Qed.

Lemma kron_power_square k A d :
  square k A -> square (k * S d) (kron_power A d).
Proof.
  intros HA. induction d as [|d IH]; simpl.
  - by rewrite Nat.mul_1_r.
  - replace (k * S (S d))%nat with (k + k * S d)%nat by lia.
    by apply kron_square.
Qed.

Lemma MGate_mul_dense (A B : MGate) k1 k2 :
  dense_gate A k1 -> dense_gate B k2 ->
  MGate_mul A B = Ok (mkMGate (kron (matrix A) (matrix B)) (k1 + k2)).
Proof.
  intros [<- HA] [<- HB]. unfold MGate_mul.
  apply MGate_init_square. by apply kron_square.
Qed.

Lemma MGate_pow_run (A : MGate) k : dense_gate A k ->
  forall (d depth : nat), (d < depth)%nat ->
  MGate_pow depth A (Z.of_nat (S d)) =
  Ok (match d with
      | O => A
      | S _ => mkMGate (kron_power (matrix A) d) (k * S d)
      end).
Proof.
  intros HA. induction d as [|d IH]; intros depth Hd.
  - destruct depth; [lia|]. cbn [MGate_pow]. by rewrite decide_True by lia.
  - destruct depth as [|depth]; [lia|].
    cbn [MGate_pow]. rewrite decide_False by lia.
    replace (Z.of_nat (S (S d)) - 1) with (Z.of_nat (S d)) by lia.
    rewrite IH by lia. simpl.
    assert (dense_gate (match d with
                        | O => A
                        | S _ => mkMGate (kron_power (matrix A) d) (k * S d)
                        end) (k * S d)) as Hr.
    { destruct d.
      - by rewrite Nat.mul_1_r.
      - split; [done|]. apply (kron_power_square k (matrix A) (S d)), HA. }
    rewrite (MGate_mul_dense A _ k (k * S d) HA Hr).
    do 2 f_equal; [|lia].
    destruct d; done.
Qed.

End compose.

(** ** Statements about the dense gate *)

Section dense_claims.
Context {C : Type} `{AmpC : Amplitude C}.

(** C2, as the code has it.  For dense gates [A] and [B] over the same [k]
    qubits, [A + B] is a dense gate over [k] qubits whose matrix is the
    product [A_matrix · B_matrix], the operands in the order written; so
    applying [A + B] to a [k]-qubit register gives the state of
    [A.apply(B.apply(R))]: the right operand acts first. *)
Theorem MGate_add_is_matrix_product (A B : MGate) (k : nat) :
  dense_gate A k -> dense_gate B k ->
  exists AB : MGate,
    MGate_add A B = Ok AB /\ dense_gate AB k /\
    matmul (matrix A) (matrix B) = Ok (matrix AB) /\
    forall (h : list (list C)) (qreg : QReg) (v : list C),
      is_register h qreg k v ->
      exists r1 h1 r2 h2 r3 h3 w,
        MGate_apply B qreg h = (Ok r1, h1) /\
        MGate_apply A r1 h1 = (Ok r2, h2) /\
        MGate_apply AB qreg h = (Ok r3, h3) /\
        is_register h2 r2 k w /\ is_register h3 r3 k w.
Proof.
  intros HA HB.
  destruct (matmul_square k (matrix A) (matrix B)) as (M & HM & HMsq & Hdot);
    [apply HA|apply HB|].
  exists (mkMGate M k).
  assert (dense_gate (mkMGate M k) k) as HAB by done.
  split; [|split; [done|split; [done|]]].
  { unfold MGate_add. rewrite HM. simpl.
    destruct HA as [-> _]. by apply MGate_init_square. }
  intros h qreg v Hreg.
  destruct (MGate_apply_dense B qreg k h v HB Hreg)
    as (r1 & h1 & Hr1 & Hreg1 & _).
  destruct (MGate_apply_dense A r1 k h1 _ HA Hreg1)
    as (r2 & h2 & Hr2 & Hreg2 & _).
  destruct (MGate_apply_dense _ qreg k h v HAB Hreg)
    as (r3 & h3 & Hr3 & Hreg3 & _).
  exists r1, h1, r2, h2, r3, h3. eexists.
  repeat (split; [eassumption|]).
  simpl in Hreg3. rewrite Hdot in Hreg3; [done|]. apply Hreg.
Qed.

(** C3, as the code has it.  [A ** i] for [i >= 1] is [A] tensored (by [*],
    the Kronecker product) with itself [i - 1] more times: a dense gate
    over [i * k] qubits, and [A] itself for [i = 1].  In particular
    [A ** 3] is [A ⊗ (A ⊗ A)] over [3 * k] qubits.  The recursion needs
    depth [i]. *)
Theorem MGate_pow_is_kron_power (A : MGate) (k : nat) (i : Z) (depth : nat) :
  dense_gate A k -> 1 <= i -> i <= Z.of_nat depth ->
  (i = 1 -> MGate_pow depth A i = Ok A) /\
  (exists g : MGate,
     MGate_pow depth A i = Ok g /\ dense_gate g (k * Z.to_nat i) /\
     matrix g = kron_power (matrix A) (Z.to_nat (i - 1))) /\
  (i = 3 ->
   MGate_pow depth A i =
   Ok (mkMGate (kron (matrix A) (kron (matrix A) (matrix A))) (k * 3))).
Proof.
  intros HA Hi Hdepth.
  pose proof (MGate_pow_run A k HA (Z.to_nat (i - 1)) depth ltac:(lia)) as Hrun.
  replace (Z.of_nat (S (Z.to_nat (i - 1)))) with i in Hrun by lia.
  split; [|split].
  - intros ->. apply Hrun.
  - eexists. split; [exact Hrun|].
    replace (Z.to_nat i) with (S (Z.to_nat (i - 1))) by lia.
    destruct (Z.to_nat (i - 1)) as [|d] eqn:Hd.
    + rewrite Nat.mul_1_r. done.
    + split; [|done]. split; [done|].
      apply (kron_power_square k (matrix A) (S d)), HA.
  - intros ->. apply Hrun.
Qed.

(** C6.  Applying a dense gate over [k] qubits to a register of another
    qubit count fails with a shape error and leaves the store as it was;
    applied to a [k]-qubit register it returns a new register of [k] qubits
    whose state is [matrix · R.state], the input register unchanged. *)
Theorem MGate_apply_size_mismatch (g : MGate) (k n : nat)
    (h : list (list C)) (qreg : QReg) (v : list C) :
  dense_gate g k -> is_register h qreg n v ->
  (n <> k -> MGate_apply g qreg h = (Raise ShapeError, h)) /\
  (n = k ->
   exists qreg' h' w,
     MGate_apply g qreg h = (Ok qreg', h') /\
     dot (matrix g) v = Ok w /\
     is_register h' qreg' k w /\
     is_register h' qreg k v).
Proof.
  intros Hg Hreg. split.
  - intros Hne. destruct Hreg as (Hn & Hv & Hlen).
    rewrite (MGate_apply_run g qreg h v Hv).
    rewrite (dot_shape_mismatch k); [done|apply Hg|].
    rewrite Hlen. intros Heq. apply Hne.
    by apply (Nat.pow_inj_r 2); [lia|].
  - intros ->.
    destruct (MGate_apply_dense g qreg k h v Hg Hreg)
      as (r1 & h1 & Hr1 & Hreg1 & Hold & _).
    exists r1, h1. eexists. split; [done|]. split; [|done].
    apply (dot_square k); [apply Hg|apply Hreg].
Qed.

(** C7.  For dense gates [A] over [k1] and [B] over [k2] qubits, [A * B] is
    a dense gate over [k1 + k2] qubits whose matrix is [np.kron] of the two
    matrices in that order: entry [(i*2^k2 + k, j*2^k2 + l)] is
    [A[i,j] * B[k,l]]. *)
Theorem MGate_mul_is_kron (A B : MGate) (k1 k2 : nat) :
  dense_gate A k1 -> dense_gate B k2 ->
  exists g : MGate,
    MGate_mul A B = Ok g /\ dense_gate g (k1 + k2) /\
    qreg_size g = (k1 + k2)%nat /\
    matrix g = kron (matrix A) (matrix B) /\
    forall i j k l a b,
      entry (matrix A) i j = Some a -> entry (matrix B) k l = Some b ->
      entry (matrix g) (i * 2 ^ k2 + k) (j * 2 ^ k2 + l) = Some (amul a b).
Proof.
  intros HA HB. eexists. split; [by apply MGate_mul_dense|].
  split; [|split; [done|split; [done|]]].
  - split; [done|]. apply kron_square; [apply HA|apply HB].
  - intros i j k l a b Ha Hb. simpl.
    destruct HB as [_ [HB0 HB1]]. rewrite <- HB0 at 1.
    by apply kron_entry.
Qed.

End dense_claims.

(** ** Arrays in the store: writes and views *)

Section store.
Context {C : Type} `{AmpC : Amplitude C}.

Implicit Types (v w b : list C) (h : list (list C)) (a : ndarray).

Lemma np_zeros_length (n : nat) : length (np_zeros (C:=C) n) = n.
Proof. apply length_replicate. Qed.

Lemma contents_app_old h a b :
  (buf a < length h)%nat -> contents (h ++ [b]) a = contents h a.
Proof. intros Ha. unfold contents. by rewrite lookup_app_l. Qed.

Lemma contents_buf_lt h a v : contents h a = Some v -> (buf a < length h)%nat.
Proof.
  intros (b & Hb & _)%contents_Some. by apply lookup_lt_Some in Hb.
Qed.

Lemma py_index_lt (n : nat) (i : Z) (j : nat) :
  py_index n i = Ok j -> (j < n)%nat.
Proof.
  unfold py_index. repeat case_decide; intros Hj; inversion Hj; lia.
Qed.

Lemma res_mapM_Forall {X Y} (f : X -> res Y) (P : Y -> Prop) l k :
  (forall x y, f x = Ok y -> P y) -> res_mapM f l = Ok k -> Forall P k.
Proof.
  intros Hf. revert k. induction l as [|x l IH]; simpl; intros k Hk.
  - inversion Hk. constructor.
  - destruct (f x) as [y|] eqn:Hy; [|done]. simpl in Hk.
    destruct (res_mapM f l) as [ys|]; [|done]. simpl in Hk.
    inversion Hk; subst. constructor; eauto.
Qed.

Lemma scatter_length b jxs : length (scatter b jxs) = length b.
Proof.
  revert b. induction jxs as [|jx jxs IH]; intros b; simpl; [done|].
  unfold scatter in *. simpl. by rewrite IH, length_insert.
Qed.

Lemma put_values_length b idx vals b' :
  put_values b idx vals = Ok b' -> length b' = length b.
Proof.
  unfold put_values. intros Hb.
  apply res_bind_Ok in Hb as (js & _ & Hb).
  apply res_bind_Ok in Hb as (vals' & _ & Hb).
  inversion Hb. apply scatter_length.
Qed.

(** writing through a fresh array changes its buffer only *)
Lemma np_store_fresh h b n j x :
  n = length b -> (j < n)%nat ->
  np_store (mkndarray (length h) 0 1 n) j x (h ++ [b]) =
  (Ok tt, h ++ [<[j := x]> b]).
Proof.
  intros -> Hj. unfold np_store. simpl.
  rewrite lookup_app_r by lia. rewrite Nat.sub_diag. simpl.
  unfold elem_pos. simpl. rewrite decide_True by lia.
  f_equal. replace (Z.to_nat (0 + Z.of_nat j * 1)) with j by lia.
  rewrite insert_app_r_alt by lia. by rewrite Nat.sub_diag.
Qed.

Lemma io_for_store_fresh h n (jxs : list (nat * C)) : forall b,
  n = length b -> Forall (fun jx => (jx.1 < n)%nat) jxs ->
  io_for jxs (fun jx => np_store (mkndarray (length h) 0 1 n) jx.1 jx.2)
         (h ++ [b]) =
  (Ok tt, h ++ [scatter b jxs]).
Proof.
  induction jxs as [|jx jxs IH]; intros b Hn Hjxs; [done|].
  apply Forall_cons in Hjxs as [Hj Hjxs].
  cbn [io_for]. unfold mbind, io_bind.
  rewrite np_store_fresh by done.
  rewrite IH; [done| |done]. by rewrite length_insert.
Qed.

(** [new_state[idx] = vals] on a fresh array *)
Lemma np_put_fresh h b n idx vals :
  n = length b ->
  np_put (mkndarray (length h) 0 1 n) idx vals (h ++ [b]) =
  match put_values b idx vals with
  | Ok b' => (Ok tt, h ++ [b'])
  | Raise e => (Raise e, h ++ [b])
  end.
Proof.
  intros ->. unfold np_put, put_values, mbind, io_bind, io_lift. simpl.
  destruct (res_mapM (py_index (length b)) idx) as [js|] eqn:Hjs; [|done].
  simpl. destruct (broadcast vals (length idx)) as [vals'|]; [|done]. simpl.
  apply io_for_store_fresh; [done|].
  apply (res_mapM_Forall _ (fun j => (j < length b)%nat)) in Hjs;
    [|apply py_index_lt].
  apply Forall_forall. intros [j x] Hjx. simpl.
  apply elem_of_zip_l in Hjx. rewrite Forall_forall in Hjs. by apply Hjs.
Qed.

(** one pass of the loop of [LazyGate.apply] in the store *)
Lemma LazyGate_body_run (self : LazyGate) (qreg : QReg) h v b n (i : nat) :
  reg_state h qreg = Some v -> n = length b ->
  LazyGate_apply_body self qreg (mkndarray (length h) 0 1 n) i (h ++ [b]) =
  match lazy_block self v b i with
  | Ok b1 => (Ok tt, h ++ [b1])
  | Raise e => (Raise e, h ++ [b])
  end.
Proof.
  intros Hv Hn. unfold reg_state in Hv.
  cbv beta zeta delta [LazyGate_apply_body mbind io_bind res_bind io_lift
                         np_read lazy_block].
  rewrite contents_app_old by (by eapply contents_buf_lt). rewrite Hv.
  destruct (fancy v _) as [g|e]; [|done].
  destruct (dot (lmatrix self) g) as [w|e]; [|done].
  by apply np_put_fresh.
Qed.

(** the loop of [LazyGate.apply] in the store *)
Lemma LazyGate_loop_run (self : LazyGate) (qreg : QReg) h v n
    (blocks : list nat) :
  reg_state h qreg = Some v ->
  forall b, n = length b -> exists b',
    length b' = n /\
    io_for blocks (LazyGate_apply_body self qreg (mkndarray (length h) 0 1 n))
           (h ++ [b]) =
    (match res_foldM (lazy_block self v) b blocks with
     | Ok _ => Ok tt
     | Raise e => Raise e
     end, h ++ [b']) /\
    (forall w, res_foldM (lazy_block self v) b blocks = Ok w -> b' = w).
Proof.
  intros Hv. induction blocks as [|i blocks IH]; intros b Hn.
  { exists b. split; [done|]. split; [done|]. intros w Hw. by inversion Hw. }
  cbn [io_for res_foldM]. unfold mbind at 1, io_bind at 1.
  rewrite (LazyGate_body_run self qreg h v b n i Hv Hn).
  destruct (lazy_block self v b i) as [b1|e] eqn:Hblk.
  - assert (n = length b1) as Hn1.
    { unfold lazy_block in Hblk.
      apply res_bind_Ok in Hblk as (g & _ & Hblk).
      apply res_bind_Ok in Hblk as (w & _ & Hblk).
      apply put_values_length in Hblk. congruence. }
    destruct (IH b1 Hn1) as (b' & Hlen & Hrun & Hres).
    exists b'. done.
  - exists b. split; [done|]. split; [done|]. intros w Hw. discriminate.
Qed.

Lemma LazyGate_apply_run (self : LazyGate) (qreg : QReg) h v :
  reg_state h qreg = Some v ->
  exists b,
    length b = length v /\
    LazyGate_apply self qreg h =
    (match LazyGate_new_state self v with
     | Ok _ => Ok (mkQReg (nbits qreg) (mkndarray (length h) 0 1 (length v)))
     | Raise e => Raise e
     end, h ++ [b]) /\
    (forall w, LazyGate_new_state self v = Ok w -> b = w).
Proof.
  intros Hv. unfold LazyGate_apply.
  unfold mbind at 1, io_bind at 1, np_read at 1.
  pose proof Hv as Hv'. unfold reg_state in Hv'. rewrite Hv'.
  unfold mbind at 1, io_bind at 1, np_array at 1.
  rewrite !np_zeros_length.
  destruct (LazyGate_loop_run self qreg h v (length v)
              (py_range (qsize self) (msize self)) Hv (np_zeros (length v)))
    as (b & Hlen & Hrun & Hres); [by rewrite np_zeros_length|].
  exists b. split; [done|]. split; [|done].
  unfold mbind at 1, io_bind at 1.
  rewrite Hrun. unfold LazyGate_new_state.
  by destruct (res_foldM _ _ _).
Qed.

(** *** Views *)

Lemma np_reversed_involutive a : np_reversed (np_reversed a) = a.
Proof.
  destruct a as [b s st n]. unfold np_reversed. simpl. f_equal; lia.
Qed.

Lemma contents_np_reversed h a v :
  contents h a = Some v -> contents h (np_reversed a) = Some (reverse v).
Proof.
  rewrite !contents_Some. intros (b & Hb & Hlen & Hget).
  exists b. simpl. split; [done|]. split; [by rewrite length_reverse|].
  intros j Hj. rewrite reverse_lookup by lia.
  rewrite <- Hget by lia. f_equal. unfold elem_pos. simpl. rewrite Hlen.
  replace (Z.of_nat (len a - S j)) with (Z.of_nat (len a) - 1 - Z.of_nat j)
    by lia.
  ring.
Qed.

End store.

(** ** The closed-form appliers in the store *)

Section appliers.
Context {C : Type} `{AmpC : Amplitude C}.

Implicit Types (v w b : list C) (h : list (list C)) (a : ndarray).

Lemma np_getitem_fresh h b n (i : Z) :
  n = length b ->
  np_getitem (mkndarray (length h) 0 1 n) i (h ++ [b]) =
  (py_getitem b i, h ++ [b]).
Proof.
  intros ->. unfold np_getitem, mbind, io_bind, np_read, io_lift.
  by rewrite contents_np_array.
Qed.

Lemma np_setitem_fresh h b n (i : Z) (j : nat) (x : C) :
  n = length b -> py_index n i = Ok j ->
  np_setitem (mkndarray (length h) 0 1 n) i x (h ++ [b]) =
  (Ok tt, h ++ [<[j := x]> b]).
Proof.
  intros Hn Hj. unfold np_setitem, mbind, io_bind, io_lift. simpl.
  rewrite Hj. apply np_store_fresh; [done|]. by eapply py_index_lt.
Qed.

Lemma py_index_from_end (n : nat) (i : Z) (j : nat) :
  - Z.of_nat n <= i < 0 -> j = Z.to_nat (i + Z.of_nat n) ->
  py_index n i = Ok j.
Proof.
  intros Hi ->. unfold py_index.
  rewrite decide_False by lia. by rewrite decide_True by lia.
Qed.

Lemma py_index_too_short (n : nat) (i : Z) :
  i < - Z.of_nat n -> py_index n i = Raise IndexError.
Proof.
  intros Hi. unfold py_index.
  rewrite decide_False by lia. by rewrite decide_False by lia.
Qed.

Lemma np_copy_run h a v :
  contents h a = Some v ->
  np_copy a h = (Ok (mkndarray (length h) 0 1 (length v)), h ++ [v]).
Proof.
  intros Hv. unfold np_copy, mbind, io_bind, np_read. by rewrite Hv.
Qed.

(** [LazyCNOT.dot] on a vector with at least two amplitudes *)
Lemma LazyCNOT_dot_swaps h a pre (x y : C) :
  contents h a = Some (pre ++ [x; y]) ->
  LazyCNOT_dot a h =
  (Ok (mkndarray (length h) 0 1 (length (pre ++ [x; y]))),
   h ++ [pre ++ [y; x]]).
Proof.
  intros Hv. unfold LazyCNOT_dot.
  unfold mbind at 1, io_bind at 1. rewrite (np_copy_run h a _ Hv).
  set (v := pre ++ [x; y]). set (n := length v).
  assert (n = length pre + 2)%nat as Hn
    by (unfold n, v; rewrite length_app; simpl; lia).
  unfold mbind at 1, io_bind at 1. rewrite np_getitem_fresh by done.
  assert (py_getitem v (-2) = Ok x) as ->.
  { unfold py_getitem. fold n.
    rewrite (py_index_from_end n (-2) (n - 2)) by lia. simpl.
    replace (n - 2)%nat with (length pre + 0)%nat by lia.
    unfold v. by rewrite lookup_app_r, Nat.add_0_r, Nat.sub_diag by lia. }
  unfold mbind at 1, io_bind at 1. rewrite np_getitem_fresh by done.
  assert (py_getitem v (-1) = Ok y) as ->.
  { unfold py_getitem. fold n.
    rewrite (py_index_from_end n (-1) (n - 1)) by lia. simpl.
    replace (n - 1)%nat with (length pre + 1)%nat by lia.
    unfold v. rewrite lookup_app_r by lia.
    by replace (length pre + 1 - length pre)%nat with 1%nat by lia. }
  unfold mbind at 1, io_bind at 1.
  rewrite (np_setitem_fresh h v n (-1) (n - 1) x eq_refl)
    by (apply py_index_from_end; lia).
  unfold mbind at 1, io_bind at 1.
  rewrite (np_setitem_fresh h _ n (-2) (n - 2) y)
    by (first [by rewrite length_insert|apply py_index_from_end; lia]).
  unfold mret, io_ret. do 3 f_equal.
  unfold v. replace (n - 1)%nat with (length pre + 1)%nat by lia.
  replace (n - 2)%nat with (length pre + 0)%nat by lia.
  rewrite insert_app_r. simpl. by rewrite insert_app_r.
Qed.

(** whatever the outcome, [LazyCNOT.dot] works on a copy *)
Lemma LazyCNOT_dot_copy h a v :
  contents h a = Some v ->
  exists r b,
    LazyCNOT_dot a h = (r, h ++ [b]) /\
    forall a', r = Ok a' -> buf a' = length h.
Proof.
  intros Hv.
  destruct (decide (length v < 2)%nat) as [Hshort|Hlong].
  - exists (Raise IndexError), v. split; [|done].
    unfold LazyCNOT_dot.
    unfold mbind at 1, io_bind at 1. rewrite (np_copy_run h a _ Hv).
    unfold mbind at 1, io_bind at 1. rewrite np_getitem_fresh by done.
    unfold py_getitem. by rewrite py_index_too_short by lia.
  - destruct (rev_ind (fun v => 2 <= length v ->
        exists pre x y, v = pre ++ [x; y])%nat) with (l := v)
      as (pre & x & y & ->); [simpl; lia| |lia|].
    { intros y l _ Hl. rewrite length_app in Hl. simpl in Hl.
      destruct l as [|x l _] using rev_ind; [simpl in Hl; lia|].
      exists l, x, y. by rewrite <- app_assoc. }
    rewrite (LazyCNOT_dot_swaps h a pre x y Hv).
    eexists _, _. split; [done|]. intros a' Ha'. by inversion Ha'.
Qed.

End appliers.

(** ** Statements about buffers *)

Section buffer_claims.
Context {C : Type} `{AmpC : Amplitude C}.

(** Every apply operation leaves the state of its input as it was,
    whatever the outcome.  [MGate.apply], [LazyGate.apply] and
    [LazyCNOT.dot] return an array over a buffer that did not exist before
    the call; [LazyNOT.dot] allocates nothing and returns a reversed view
    of the input's own buffer. *)
Lemma apply_leaves_input_unchanged (h : list (list C)) (qreg : QReg)
    (v : list C) :
  reg_state h qreg = Some v ->
  (forall (g : MGate) r h',
     MGate_apply g qreg h = (r, h') ->
     reg_state h' qreg = Some v /\
     forall q', r = Ok q' -> h !! buf (state q') = None) /\
  (forall (g : LazyGate) r h',
     LazyGate_apply g qreg h = (r, h') ->
     reg_state h' qreg = Some v /\
     forall q', r = Ok q' -> h !! buf (state q') = None) /\
  (forall r h',
     LazyCNOT_dot (state qreg) h = (r, h') ->
     reg_state h' qreg = Some v /\
     forall a', r = Ok a' -> h !! buf a' = None) /\
  (LazyNOT_dot (state qreg) h = (Ok (np_reversed (state qreg)), h) /\
   buf (np_reversed (state qreg)) = buf (state qreg)).
Proof.
  intros Hv. split; [|split; [|split]].
  - intros g r h' Hrun. rewrite (MGate_apply_run g qreg h v Hv) in Hrun.
    destruct (dot (matrix g) v) as [w|e]; inversion Hrun; subst.
    + split; [by apply contents_alloc|].
      intros q' Hq'. inversion Hq'. simpl. by apply lookup_ge_None.
    + split; [done|]. intros q' Hq'. discriminate.
  - intros g r h' Hrun.
    destruct (LazyGate_apply_run g qreg h v Hv) as (b & _ & Hb & _).
    rewrite Hb in Hrun. inversion Hrun; subst.
    split; [by apply contents_alloc|].
    intros q' Hq'. destruct (LazyGate_new_state g v); inversion Hq'.
    simpl. by apply lookup_ge_None.
  - intros r h' Hrun.
    destruct (LazyCNOT_dot_copy h (state qreg) v Hv) as (r0 & b & Hb & Hfresh).
    rewrite Hb in Hrun. inversion Hrun; subst.
    split; [by apply contents_alloc|].
    intros a' Ha'. rewrite (Hfresh a' Ha'). by apply lookup_ge_None.
  - done.
Qed.

(** C9.  Applying [LazyNOT.dot] twice gives back the original state
    vector, exactly: the first application reads the amplitudes in reverse
    order, the second is the original array again. *)
Theorem LazyNOT_dot_twice (h : list (list C)) (a : ndarray) (v : list C) :
  contents h a = Some v ->
  exists a1 a2,
    LazyNOT_dot a h = (Ok a1, h) /\ LazyNOT_dot a1 h = (Ok a2, h) /\
    contents h a1 = Some (reverse v) /\
    contents h a2 = Some v.
Proof.
  intros Hv. exists (np_reversed a), (np_reversed (np_reversed a)).
  split; [done|]. split; [done|].
  split; [by apply contents_np_reversed|].
  by rewrite np_reversed_involutive.
Qed.

End buffer_claims.

(** ** The oracle builder *)

Section oracle.
Context {C : Type} `{AmpC : Amplitude C}.
Add Ring amplitude_ring_oracle : amp_ring.

Implicit Types (v w : list C) (M : list (list C)).

Lemma res_foldM_app {X S} (f : S -> X -> res S) (s : S) (l k : list X) :
  res_foldM f s (l ++ k) = s' ← res_foldM f s l; res_foldM f s' k.
Proof.
  revert s. induction l as [|x l IH]; intros s; simpl; [done|].
  destruct (f s x) as [s'|e]; simpl; [apply IH|done].
Qed.

(** *** Labels and [int(., 2)] *)

Lemma int2_from_app (s1 s2 : string) : forall acc,
  int2_from acc (String.append s1 s2) = a ← int2_from acc s1; int2_from a s2.
Proof.
  induction s1 as [|c s1 IH]; intros acc; simpl; [done|].
  destruct (Ascii.eqb c "0"); [apply IH|].
  destruct (Ascii.eqb c "1"); [apply IH|done].
Qed.

Lemma int2_from_0 (acc : Z) : int2_from acc "0" = Ok (2 * acc).
Proof. done. Qed.

Lemma int2_from_1 (acc : Z) : int2_from acc "1" = Ok (2 * acc + 1).
Proof. done. Qed.

Lemma int2_from_label (n : nat) : forall (x : nat) (acc : Z),
  (x < 2 ^ n)%nat ->
  int2_from acc (basis_label n x) = Ok (acc * 2 ^ Z.of_nat n + Z.of_nat x).
Proof.
  induction n as [|n IH]; intros x acc Hx.
  - simpl in *. f_equal. lia.
  - cbn [basis_label]. rewrite int2_from_app.
    rewrite IH by (rewrite Nat.pow_succ_r' in Hx;
                   apply Nat.Div0.div_lt_upper_bound; lia).
    rewrite res_bind_Ok_l, Nat2Z.inj_succ, Z.pow_succ_r by lia.
    pose proof (Nat.div_mod_eq x 2) as Hdm.
    pose proof (Nat.mod_upper_bound x 2 ltac:(lia)) as Hub.
    clear IH Hx. generalize dependent (2 ^ Z.of_nat n). intros p.
    generalize dependent (x `div` 2)%nat. intros q Hdm.
    case_decide as Hmod; rewrite ?int2_from_0, ?int2_from_1; f_equal; lia.
Qed.

Lemma py_int2_snoc (s : string) (d : ascii) :
  py_int2 (String.append s (String d EmptyString)) =
  int2_from 0 (String.append s (String d EmptyString)).
Proof. by destruct s. Qed.

Lemma py_int2_label_bit (n x : nat) (bit : bool) :
  (x < 2 ^ n)%nat ->
  py_int2 (String.append (basis_label n x) (if bit then "1" else "0")) =
  Ok (Z.of_nat (2 * x + (if bit then 1 else 0))).
Proof.
  intros Hx.
  replace (if bit then "1" else "0")%string
    with (String (if bit then "1" else "0")%char EmptyString)
    by (by destruct bit).
  rewrite py_int2_snoc, int2_from_app, (int2_from_label n x 0 Hx).
  rewrite res_bind_Ok_l.
  destruct bit; rewrite ?int2_from_0, ?int2_from_1; f_equal; lia.
Qed.

Lemma length_basis_label (n x : nat) : String.length (basis_label n x) = n.
Proof.
  revert x. induction n as [|n IH]; intros x; [done|].
  cbn [basis_label].
  assert (forall s1 s2, String.length (String.append s1 s2) =
            (String.length s1 + String.length s2)%nat) as Happ.
  { induction s1; intros s2; simpl; [done|]. by rewrite IHs1. }
  rewrite Happ, IH. case_decide; simpl; lia.
Qed.

(** *** Matrices given by their entries *)

Lemma mat_is_ext M N f g :
  (forall r c, (r < N)%nat -> (c < N)%nat -> f r c = g r c) ->
  mat_is M N f -> mat_is M N g.
Proof.
  intros Hfg (H0 & H1 & H2). split; [done|]. split; [done|].
  intros r c Hr Hc. rewrite H2 by done. f_equal. by apply Hfg.
Qed.

Lemma mat_is_zeros (N : nat) : mat_is (np_zeros2 N N) N (fun _ _ => azero).
Proof.
  unfold np_zeros2, np_zeros. split; [apply length_replicate|]. split.
  - apply Forall_replicate, length_replicate.
  - intros r c Hr Hc. unfold entry.
    rewrite lookup_replicate_2 by done. simpl.
    by rewrite lookup_replicate_2.
Qed.

Lemma mat_is_shape1 M N f : (0 < N)%nat -> mat_is M N f -> shape1 M = N.
Proof.
  intros HN (H0 & H1 & _). unfold shape1.
  destruct M as [|row M]; simpl in *; [lia|].
  by apply Forall_cons in H1 as [? _].
Qed.

Lemma mat_setitem_is M N f (r c : nat) (x : C) :
  mat_is M N f -> (r < N)%nat -> (c < N)%nat ->
  exists M',
    mat_setitem M (Z.of_nat r) (Z.of_nat c) x = Ok M' /\
    mat_is M' N (fun r' c' =>
      if decide (r' = r /\ c' = c) then x else f r' c').
Proof.
  intros HM Hr Hc. unfold mat_setitem.
  rewrite (mat_is_shape1 M N f) by (done || lia).
  destruct HM as (H0 & H1 & H2). unfold shape0. rewrite H0.
  rewrite !py_index_inrange by lia. simpl. rewrite !Nat2Z.id.
  eexists. split; [done|]. split; [by rewrite length_alter|]. split.
  - apply Forall_alter; [done|]. intros row _ Hrow.
    by rewrite length_insert.
  - intros r' c' Hr' Hc'. specialize (H2 r' c' Hr' Hc').
    unfold entry in *. rewrite list_lookup_alter.
    destruct (M !! r') as [row|] eqn:Hrow; [|done]. simpl in H2.
    assert (length row = N) as Hlen.
    { rewrite Forall_forall in H1. apply H1.
      by eapply list_elem_of_lookup_2. }
    destruct (decide (r = r')) as [->|Hne]; rewrite ?Hrow; simpl.
    + destruct (decide (c' = c)) as [->|Hnc].
      * rewrite decide_True by done.
        apply list_lookup_insert_eq. lia.
      * rewrite decide_False by (intros [_ ?]; done).
        by rewrite list_lookup_insert_ne.
    + by rewrite decide_False by (intros [? _]; done).
Qed.

(** *** The loop *)

Lemma oracle_step_is (fdef : list string) (L t : nat) M :
  (t < 2 ^ L)%nat ->
  mat_is M (2 ^ (L + 1)) (oracle_partial fdef L t) ->
  exists M',
    oracle_step fdef M (basis_label L t, (t * 2)%nat) = Ok M' /\
    mat_is M' (2 ^ (L + 1)) (oracle_partial fdef L (S t)).
Proof.
  intros Ht HM. unfold oracle_step.
  assert (2 ^ (L + 1) = 2 * 2 ^ L)%nat as HN
    by (by rewrite Nat.add_1_r, Nat.pow_succ_r').
  rewrite (py_int2_label_bit L t true Ht), (py_int2_label_bit L t false Ht).
  replace (Z.of_nat (t * 2) + 1) with (Z.of_nat (t * 2 + 1)) by lia.
  assert ((2 * t) / 2 = t)%nat as Hd0 by (rewrite Nat.mul_comm; by apply Nat.div_mul).
  assert ((2 * t + 1) / 2 = t)%nat as Hd1
    by (rewrite Nat.mul_comm, Nat.div_add_l by done; simpl; lia).
  assert ((2 * t) mod 2 = 0)%nat as Hm0
    by (rewrite Nat.mul_comm; by apply Nat.Div0.mod_mul).
  assert ((2 * t + 1) mod 2 = 1)%nat as Hm1
    by (rewrite Nat.add_comm, Nat.mul_comm, Nat.Div0.mod_add; done).
  destruct (bool_decide (basis_label L t ∈ fdef)) eqn:Hacc;
    rewrite res_bind_Ok_l.
  - destruct (mat_setitem_is M _ _ (2 * t + 1) (t * 2) aone HM)
      as (M1 & -> & HM1); [lia..|]. rewrite !res_bind_Ok_l.
    destruct (mat_setitem_is M1 _ _ (2 * t + 0) (t * 2 + 1) aone HM1)
      as (M2 & -> & HM2); [lia..|].
    exists M2. split; [done|]. eapply mat_is_ext; [|exact HM2].
    intros r c Hr Hc. simpl. unfold oracle_partial, oracle_image.
    destruct (decide (c = t * 2 + 1)%nat) as [->|Hc1].
    { replace (t * 2 + 1)%nat with (2 * t + 1)%nat by lia.
      rewrite Hd1, Hm1, Hacc.
      repeat case_decide; try done; lia. }
    destruct (decide (c = t * 2)%nat) as [->|Hc0].
    { replace (t * 2)%nat with (2 * t)%nat by lia.
      rewrite Hd0, Hm0, Hacc.
      repeat case_decide; try done; lia. }
    repeat case_decide; try done; lia.
  - destruct (mat_setitem_is M _ _ (2 * t + 0) (t * 2) aone HM)
      as (M1 & -> & HM1); [lia..|]. rewrite !res_bind_Ok_l.
    destruct (mat_setitem_is M1 _ _ (2 * t + 1) (t * 2 + 1) aone HM1)
      as (M2 & -> & HM2); [lia..|].
    exists M2. split; [done|]. eapply mat_is_ext; [|exact HM2].
    intros r c Hr Hc. simpl. unfold oracle_partial, oracle_image.
    destruct (decide (c = t * 2 + 1)%nat) as [->|Hc1].
    { replace (t * 2 + 1)%nat with (2 * t + 1)%nat by lia.
      rewrite Hd1, Hacc.
      repeat case_decide; try done; lia. }
    destruct (decide (c = t * 2)%nat) as [->|Hc0].
    { replace (t * 2)%nat with (2 * t)%nat by lia.
      rewrite Hd0, Hacc.
      repeat case_decide; try done; lia. }
    repeat case_decide; try done; lia.
Qed.

Lemma oracle_loop_is (fdef : list string) (L : nat) M0 :
  mat_is M0 (2 ^ (L + 1)) (oracle_partial fdef L 0) ->
  forall n, (n <= 2 ^ L)%nat ->
  exists M,
    res_foldM (oracle_step fdef) M0
      ((fun x => (basis_label L x, (x * 2)%nat)) <$> seq 0 n) = Ok M /\
    mat_is M (2 ^ (L + 1)) (oracle_partial fdef L n).
Proof.
  intros HM0. induction n as [|n IH]; intros Hn.
  - exists M0. done.
  - destruct IH as (M & HM & His); [lia|].
    destruct (oracle_step_is fdef L n M) as (M' & HM' & His'); [lia|done|].
    exists M'. split; [|done].
    rewrite seq_S, fmap_app, res_foldM_app, HM, res_bind_Ok_l.
    cbn -[oracle_step Nat.mul]. by rewrite HM'.
Qed.

End oracle.

Section oracle_claim.
Context {C : Type} `{AmpC : Amplitude C}.
Add Ring amplitude_ring_oracle_claim : amp_ring.

Implicit Types (v w : list C) (M : list (list C)).

Lemma zip_fmap_same {X Y Z'} (f : X -> Y) (g : X -> Z') (l : list X) :
  zip (f <$> l) (g <$> l) = (fun x => (f x, g x)) <$> l.
Proof. induction l as [|x l IH]; [done|]. csimpl. by rewrite IH. Qed.

Lemma oracle_loop_items (L : nat) :
  zip (QReg_bases L) (py_range (2 ^ (L + 1)) 2) =
  (fun x => (basis_label L x, (x * 2)%nat)) <$> seq 0 (2 ^ L).
Proof.
  unfold QReg_bases, py_range.
  replace ((2 ^ (L + 1) + 2 - 1) / 2)%nat with (2 ^ L)%nat.
  - apply zip_fmap_same.
  - rewrite Nat.add_1_r, Nat.pow_succ_r'.
    replace (2 * 2 ^ L + 2 - 1)%nat with (1 + 2 ^ L * 2)%nat by lia.
    rewrite Nat.div_add by done. done.
Qed.

Lemma dotv_zeros_r v (n : nat) : dotv v (np_zeros n) = azero.
Proof.
  revert n. induction v as [|a v IH]; intros [|n]; try done.
  unfold np_zeros in *. cbn [replicate]. rewrite dotv_cons, IH. ring.
Qed.

(** the inner product with the basis state |c> reads entry [c] *)
Lemma dotv_basis v : forall (N c : nat),
  length v = N -> (c < N)%nat -> dotv v (basis_vec N c) = v !!! c.
Proof.
  induction v as [|a v IH]; intros N c Hlen Hc; simpl in Hlen; [lia|].
  destruct N as [|N]; [lia|]. unfold basis_vec, np_zeros. cbn [replicate].
  destruct c as [|c]; cbn [insert list_insert].
  - rewrite dotv_cons. fold (np_zeros (C:=C) N). rewrite dotv_zeros_r.
    change ((a :: v) !!! 0%nat) with a. ring.
  - rewrite dotv_cons.
    change ((a :: v) !!! S c) with (v !!! c).
    rewrite <- (IH N c) by lia.
    change (aadd (amul a azero) (dotv v (basis_vec N c)) =
            dotv v (basis_vec N c)).
    ring.
Qed.

Lemma basis_vec_length (N c : nat) : length (basis_vec (C:=C) N c) = N.
Proof. unfold basis_vec, np_zeros. by rewrite length_insert, length_replicate. Qed.

Lemma basis_vec_lookup (N c r : nat) :
  (r < N)%nat ->
  basis_vec (C:=C) N c !! r = Some (if decide (r = c) then aone else azero).
Proof.
  intros Hr. unfold basis_vec, np_zeros. rewrite list_lookup_insert.
  rewrite length_replicate, lookup_replicate_2 by done.
  repeat case_decide; try done; lia.
Qed.

(** a matrix with a single 1 per column sends basis states to basis states *)
Lemma dot_permutation_matrix M (N : nat) (img : nat -> nat) (c : nat) :
  mat_is M N (fun r c => if decide (r = img c) then aone else azero) ->
  (c < N)%nat ->
  dot M (basis_vec N c) = Ok (basis_vec N (img c)).
Proof.
  intros HM Hc. pose proof HM as (H0 & H1 & H2). unfold dot.
  rewrite (mat_is_shape1 M N _) by (done || lia).
  rewrite basis_vec_length, decide_True by done. f_equal.
  apply (list_eq_same_length _ _ N);
    [apply basis_vec_length|by rewrite length_fmap|].
  intros r x y Hr Hx Hy. rewrite basis_vec_lookup in Hy by done.
  rewrite list_lookup_fmap in Hx. specialize (H2 r c Hr Hc).
  unfold entry in H2. destruct (M !! r) as [row|] eqn:Hrow; [|done].
  simpl in *. inversion Hx; inversion Hy; subst.
  rewrite dotv_basis; [|rewrite Forall_forall in H1; apply H1;
                         by eapply list_elem_of_lookup_2|done].
  by rewrite (list_lookup_total_correct _ _ _ H2).
Qed.

(** C4.  For accepted bit-strings of length [L] (the size being inferred
    from the first string, or given), the oracle builder returns a dense
    gate over [L + 1] qubits that sends the basis state [x·b] to
    [x·(1-b)] when the label of [x] is accepted, and to itself
    otherwise. *)
Theorem construct_unitary_F_oracle (fdef : list string)
    (in_size : option nat) (L : nat) :
  Forall (fun s => String.length s = L) fdef ->
  (in_size = None /\ fdef <> []) \/ (in_size = Some L /\ (0 < L)%nat) ->
  exists g : MGate,
    construct_unitary_F fdef in_size = Ok g /\
    dense_gate g (L + 1) /\
    forall x b : nat, (x < 2 ^ L)%nat -> (b < 2)%nat ->
      let image :=
        (2 * x + (if bool_decide (basis_label L x ∈ fdef)
                  then 1 - b else b))%nat in
      dot (matrix g) (basis_vec (2 ^ (L + 1)) (2 * x + b)) =
        Ok (basis_vec (2 ^ (L + 1)) image) /\
      forall (h : list (list C)) (qreg : QReg),
        is_register h qreg (L + 1) (basis_vec (2 ^ (L + 1)) (2 * x + b)) ->
        exists qreg' h',
          MGate_apply g qreg h = (Ok qreg', h') /\
          is_register h' qreg' (L + 1) (basis_vec (2 ^ (L + 1)) image).
Proof.
  intros Hlen Hsize.
  assert (2 ^ (L + 1) = 2 * 2 ^ L)%nat as HN
    by (by rewrite Nat.add_1_r, Nat.pow_succ_r').
  destruct (oracle_loop_is fdef L (np_zeros2 (2 ^ (L + 1)) (2 ^ (L + 1))))
    with (n := (2 ^ L)%nat) as (M & HM & His); [|done|].
  { eapply mat_is_ext; [|apply mat_is_zeros].
    intros r c _ _. unfold oracle_partial. by rewrite decide_False by lia. }
  assert (mat_is M (2 ^ (L + 1))
            (fun r c => if decide (r = oracle_image fdef L c)
                        then aone else azero)) as Hperm.
  { eapply mat_is_ext; [|exact His]. intros r c _ Hc. unfold oracle_partial.
    repeat case_decide; try done; exfalso; [tauto|].
    apply H. split; [lia|done]. }
  assert (square (L + 1) M) as Hsq by (split; apply Hperm).
  exists (mkMGate M (L + 1)). split; [|split; [done|]].
  - unfold construct_unitary_F.
    assert (match in_size with
            | Some (S n) => Ok (S n)
            | _ => s ← py_getitem fdef 0; Ok (String.length s)
            end = Ok L) as ->.
    { destruct Hsize as [[-> Hne]|[-> HL]].
      - destruct fdef as [|s fdef]; [done|].
        apply Forall_cons in Hlen as [Hs _].
        rewrite (py_getitem_inrange (s :: fdef) 0 s) by done.
        by rewrite res_bind_Ok_l, Hs.
      - destruct L; [lia|done]. }
    rewrite res_bind_Ok_l. cbv zeta.
    rewrite oracle_loop_items, HM, res_bind_Ok_l.
    by apply MGate_init_square.
  - intros x b Hx Hb image.
    assert (dot M (basis_vec (2 ^ (L + 1)) (2 * x + b)) =
            Ok (basis_vec (2 ^ (L + 1)) image)) as Hdot.
    { rewrite (dot_permutation_matrix M _ _ _ Hperm) by lia.
      do 2 f_equal. unfold oracle_image, image.
      replace ((2 * x + b) / 2)%nat with x
        by (rewrite Nat.mul_comm, Nat.div_add_l by done;
            rewrite (Nat.div_small b 2) by done; lia).
      replace ((2 * x + b) mod 2)%nat with b
        by (rewrite Nat.add_comm, Nat.mul_comm, Nat.Div0.mod_add;
            by rewrite Nat.mod_small).
      by destruct (bool_decide _). }
    split; [exact Hdot|]. intros h qreg Hreg.
    destruct (MGate_apply_dense (mkMGate M (L + 1)) qreg (L + 1) h _
                ltac:(done) Hreg) as (q' & h' & Hrun & Hreg' & _).
    exists q', h'. split; [done|].
    destruct (dot_square (L + 1) M (basis_vec (2 ^ (L + 1)) (2 * x + b)) Hsq)
      as [Hd _]; [apply basis_vec_length|].
    rewrite Hd in Hdot. injection Hdot as <-. exact Hreg'.
Qed.

End oracle_claim.

(** ** The lazy gate: bit extraction *)

Lemma py_lshift_ok (x k : Z) : 0 <= k -> py_lshift x k = Ok (Z.shiftl x k).
Proof. intros Hk. unfold py_lshift. by rewrite decide_False by lia. Qed.

Lemma py_lshift_neg (x k : Z) : k < 0 -> py_lshift x k = Raise ValueError.
Proof. intros Hk. unfold py_lshift. by rewrite decide_True by lia. Qed.

Lemma py_rshift_ok (x k : Z) : 0 <= k -> py_rshift x k = Ok (Z.shiftr x k).
Proof. intros Hk. unfold py_rshift. by rewrite decide_False by lia. Qed.

Lemma masked_bit (base q : Z) :
  0 <= q -> Z.land base (Z.shiftl 1 q) = Z.b2z (Z.testbit base q) * 2 ^ q.
Proof.
  intros Hq. rewrite Z.shiftl_1_l. apply Z.bits_inj'. intros j Hj.
  rewrite Z.land_spec, Z.pow2_bits_eqb by done.
  destruct (Z.testbit base q) eqn:Hb; simpl.
  - rewrite Z.mul_1_l, Z.pow2_bits_eqb by done.
    destruct (Z.eqb_spec q j) as [->|_]; [by rewrite Hb|].
    apply andb_false_r.
  - rewrite Z.bits_0. destruct (Z.eqb_spec q j) as [->|_];
      [by rewrite Hb|apply andb_false_r].
Qed.

Lemma lor_fresh_bit (a k : Z) (b : bool) :
  0 <= k -> Z.testbit a k = false ->
  Z.lor a (Z.b2z b * 2 ^ k) = a + Z.b2z b * 2 ^ k.
Proof.
  intros Hk Ha. rewrite <- Z.lxor_lor, <- Z.add_nocarry_lxor; [done|..];
    (apply Z.bits_inj'; intros j Hj; rewrite Z.land_spec, Z.bits_0;
     destruct b; simpl;
     [rewrite Z.mul_1_l, Z.pow2_bits_eqb by done;
      destruct (Z.eqb_spec k j) as [->|_];
      [by rewrite Ha|apply andb_false_r]
     |rewrite Z.bits_0; apply andb_false_r]).
Qed.

Lemma testbit_b2z_pow2 (b : bool) (k j : Z) :
  0 <= k -> 0 <= j -> j <> k -> Z.testbit (Z.b2z b * 2 ^ k) j = false.
Proof.
  intros Hk Hj Hne. destruct b; simpl; [|apply Z.bits_0].
  rewrite Z.mul_1_l, Z.pow2_bits_eqb by done. by apply Z.eqb_neq.
Qed.

Lemma target_index_range (P : list Z) (x : Z) :
  0 <= target_index P x < 2 ^ Z.of_nat (length P).
Proof.
  induction P as [|q P IH]; [simpl; lia|].
  cbn [target_index length]. rewrite Nat2Z.inj_succ, Z.pow_succ_r by lia.
  destruct (Z.testbit x q); simpl; lia.
Qed.

Lemma spectator_index_range (qs : list Z) (x : Z) :
  0 <= spectator_index qs x < 2 ^ Z.of_nat (length qs).
Proof.
  induction qs as [|q qs IH]; [simpl; lia|].
  cbn [spectator_index length]. rewrite Nat2Z.inj_succ, Z.pow_succ_r by lia.
  destruct (Z.testbit x q); simpl; lia.
Qed.

(** equal keys mean equal bits at the positions *)
Lemma target_index_inj (P : list Z) (x y : Z) :
  target_index P x = target_index P y ->
  Forall (fun q => Z.testbit x q = Z.testbit y q) P.
Proof.
  induction P as [|q P IH]; [constructor|]. cbn [target_index]. intros Heq.
  pose proof (target_index_range P x). pose proof (target_index_range P y).
  assert (Z.testbit x q = Z.testbit y q) as Hq
    by (destruct (Z.testbit x q), (Z.testbit y q); simpl in Heq; (done || lia)).
  constructor; [done|]. apply IH. rewrite Hq in Heq. lia.
Qed.

Lemma spectator_index_inj (qs : list Z) (x y : Z) :
  spectator_index qs x = spectator_index qs y ->
  Forall (fun q => Z.testbit x q = Z.testbit y q) qs.
Proof.
  induction qs as [|q qs IH]; [constructor|]. cbn [spectator_index].
  intros Heq.
  assert (Z.testbit x q = Z.testbit y q) as Hq
    by (destruct (Z.testbit x q), (Z.testbit y q); simpl in Heq; (done || lia)).
  constructor; [done|]. apply IH. rewrite Hq in Heq. lia.
Qed.

Lemma target_index_ext (P : list Z) (x y : Z) :
  Forall (fun q => Z.testbit x q = Z.testbit y q) P ->
  target_index P x = target_index P y.
Proof.
  induction 1 as [|q P Hq _ IH]; [done|]. cbn [target_index].
  by rewrite Hq, IH.
Qed.

Lemma spectator_index_ext (qs : list Z) (x y : Z) :
  Forall (fun q => Z.testbit x q = Z.testbit y q) qs ->
  spectator_index qs x = spectator_index qs y.
Proof.
  induction 1 as [|q qs Hq _ IH]; [done|]. cbn [spectator_index].
  by rewrite Hq, IH.
Qed.

(** [get_qbpos] computes the target index, or fails on a negative position *)
Lemma get_qbpos_from_run (base : Z) (qs : list Z) : forall (n i : nat) (a : Z),
  Forall (fun q => 0 <= q) qs ->
  n = (i + length qs)%nat ->
  (forall j, 0 <= j < Z.of_nat (length qs) -> Z.testbit a j = false) ->
  get_qbpos_from n i qs base a = Ok (a + target_index qs base).
Proof.
  induction qs as [|q qs IH]; intros n i a Hqs Hn Ha.
  - simpl. f_equal. lia.
  - apply Forall_cons in Hqs as [Hq Hqs]. cbn [get_qbpos_from length] in *.
    rewrite py_lshift_ok, res_bind_Ok_l by lia. cbv beta.
    rewrite py_rshift_ok, res_bind_Ok_l by lia. cbv beta.
    rewrite py_lshift_ok, res_bind_Ok_l by lia. cbv beta.
    rewrite masked_bit, Z.shiftr_div_pow2, Z.div_mul by lia.
    rewrite Z.shiftl_mul_pow2 by lia.
    replace (Z.of_nat n - Z.of_nat i - 1) with (Z.of_nat (length qs)) by lia.
    rewrite IH; [|done|lia|].
    + rewrite lor_fresh_bit by (try apply Ha; lia).
      cbn [target_index]. f_equal. lia.
    + intros j Hj. rewrite Z.lor_spec, Ha by lia.
      rewrite testbit_b2z_pow2 by lia. done.
Qed.

Lemma get_qbpos_run (qbpos : list Z) (base : Z) :
  Forall (fun q => 0 <= q) qbpos ->
  get_qbpos qbpos base = Ok (target_index qbpos base).
Proof.
  intros Hq. unfold get_qbpos.
  rewrite (get_qbpos_from_run base qbpos _ 0 0 Hq); [done|done|].
  intros j _. apply Z.bits_0.
Qed.

Lemma get_qbpos_from_negative (base : Z) (qs : list Z) :
  forall (n i : nat) (a : Z),
  Exists (fun q => q < 0) qs ->
  (i + length qs <= n)%nat ->
  get_qbpos_from n i qs base a = Raise ValueError.
Proof.
  induction qs as [|q qs IH]; intros n i a Hqs Hn; [by inversion Hqs|].
  cbn [get_qbpos_from length] in *.
  destruct (decide (q < 0)) as [|Hq];
    [by rewrite py_lshift_neg|].
  rewrite py_lshift_ok, res_bind_Ok_l by lia. cbv beta.
  rewrite py_rshift_ok, res_bind_Ok_l by lia. cbv beta.
  rewrite py_lshift_ok, res_bind_Ok_l by lia. cbv beta.
  apply IH; [|lia].
  apply Exists_cons in Hqs as [?|?]; [lia|done].
Qed.

Lemma get_qbpos_negative (qbpos : list Z) (base : Z) :
  Exists (fun q => q < 0) qbpos -> get_qbpos qbpos base = Raise ValueError.
Proof.
  intros Hq. unfold get_qbpos. by apply get_qbpos_from_negative.
Qed.

(** [get_spectator] packs the bits at ascending positions *)
Lemma get_spectator_from_run (base : Z) (qs : list Z) : forall (i : nat) (a : Z),
  ascending_from (Z.of_nat i) qs ->
  (forall j, Z.of_nat i <= j -> Z.testbit a j = false) ->
  get_spectator_from i qs base a =
  Ok (a + 2 ^ Z.of_nat i * spectator_index qs base).
Proof.
  induction qs as [|q qs IH]; intros i a Hqs Ha.
  - simpl. f_equal. lia.
  - destruct Hqs as [Hq Hqs]. cbn [get_spectator_from].
    rewrite py_lshift_ok, res_bind_Ok_l by lia. cbv beta.
    rewrite py_rshift_ok, res_bind_Ok_l by lia. cbv beta.
    rewrite masked_bit, Z.shiftr_div_pow2 by lia.
    replace (Z.b2z (Z.testbit base q) * 2 ^ q / 2 ^ (q - Z.of_nat i))
      with (Z.b2z (Z.testbit base q) * 2 ^ Z.of_nat i).
    2:{ replace (2 ^ q) with (2 ^ Z.of_nat i * 2 ^ (q - Z.of_nat i))
          by (rewrite <- Z.pow_add_r by lia; f_equal; lia).
        rewrite Z.mul_assoc, Z.div_mul; [done|].
        apply Z.pow_nonzero; lia. }
    rewrite IH.
    + rewrite lor_fresh_bit by (try apply Ha; lia).
      cbn [spectator_index]. f_equal.
      rewrite Nat2Z.inj_succ, Z.pow_succ_r by lia. lia.
    + by rewrite Nat2Z.inj_succ, <- Z.add_1_r.
    + intros j Hj. rewrite Z.lor_spec, Ha by lia.
      rewrite testbit_b2z_pow2 by lia. done.
Qed.

Lemma get_spectator_run (specpos : list Z) (base : Z) :
  ascending_from 0 specpos ->
  get_spectator specpos base = Ok (spectator_index specpos base).
Proof.
  intros Hs. unfold get_spectator.
  rewrite (get_spectator_from_run base specpos 0 0 Hs).
  - f_equal. simpl. lia.
  - intros j _. apply Z.bits_0.
Qed.

Lemma filter_seqZ_ascending (P : Z -> Prop) `{forall x, Decision (P x)}
    (len : nat) : forall (s i : Z),
  i <= s -> ascending_from i (filter P (seqZ s (Z.of_nat len))).
Proof.
  induction len as [|len IH]; intros s i Hi.
  - by rewrite seqZ_nil.
  - rewrite seqZ_cons by lia.
    replace (Z.pred (Z.of_nat (S len))) with (Z.of_nat len) by lia.
    rewrite filter_cons. case_decide.
    + split; [done|]. apply IH. lia.
    + apply IH. lia.
Qed.

(** ** The lazy gate: building the index table *)

Lemma fmap_lookup_total_seqZ {X} `{Inhabited X} (l : list X) :
  (fun i => l !!! Z.to_nat i) <$> seqZ 0 (Z.of_nat (length l)) = l.
Proof.
  apply list_eq. intros i. rewrite list_lookup_fmap.
  destruct (decide (i < length l)%nat) as [Hi|Hi].
  - rewrite lookup_seqZ_lt by lia. simpl. rewrite Z.add_0_l, Nat2Z.id.
    destruct (lookup_lt_is_Some_2 l i Hi) as [a Ha].
    by rewrite (list_lookup_total_correct _ _ _ Ha), Ha.
  - rewrite lookup_seqZ_ge by lia. simpl. symmetry.
    apply lookup_ge_None. lia.
Qed.

(** indexing by a permutation of the positions permutes the array *)
Lemma fancy_Permutation (l idx : list Z) :
  idx ≡ₚ seqZ 0 (Z.of_nat (length l)) ->
  fancy l idx = Ok ((fun i => l !!! Z.to_nat i) <$> idx) /\
  (fun i => l !!! Z.to_nat i) <$> idx ≡ₚ l.
Proof.
  intros Hidx. split.
  - apply res_mapM_Ok, Forall_forall. intros i Hi.
    rewrite Hidx in Hi. apply elem_of_seqZ in Hi.
    destruct (lookup_lt_is_Some_2 l (Z.to_nat i)) as [x Hx]; [lia|].
    rewrite (list_lookup_total_correct _ _ _ Hx).
    apply py_getitem_inrange; [lia|done].
  - rewrite Hidx. by rewrite fmap_lookup_total_seqZ.
Qed.

Lemma take_drop_clipped {X} (k : nat) (l : list X) :
  take k l ++ drop (length (take k l)) l = l.
Proof.
  rewrite length_take. destruct (decide (k <= length l)%nat).
  - rewrite Nat.min_l by done. apply take_drop.
  - rewrite Nat.min_r by lia. rewrite take_ge, drop_all by lia.
    apply app_nil_r.
Qed.

Lemma py_slice_block {X} (l : list X) (i k : nat) :
  py_slice l i (i + k) = take k (drop i l).
Proof. unfold py_slice. f_equal. lia. Qed.

Lemma set_slice_Permutation (l x : list Z) (i k : nat) :
  x ≡ₚ py_slice l i (i + k) ->
  set_slice l i (i + k) x = Ok (take i l ++ x ++ drop (i + length x) l) /\
  take i l ++ x ++ drop (i + length x) l ≡ₚ l.
Proof.
  intros Hx. pose proof (Permutation_length Hx) as Hlen.
  unfold set_slice. rewrite decide_True by done. split; [done|].
  rewrite Hx at 1. rewrite Hlen, py_slice_block, <- drop_drop.
  by rewrite take_drop_clipped, take_drop.
Qed.

Section lazy_init.
Variable argsort : list Z -> list Z.
Hypothesis argsort_ok : argsort_spec argsort.

(** one pass of the second loop permutes the table *)
Lemma sort_block_Permutation (msize : nat) (gbits bases : list Z) (i : nat) :
  length gbits = length bases ->
  exists bases',
    sort_block argsort msize gbits bases i = Ok bases' /\ bases' ≡ₚ bases.
Proof.
  intros Hlen. unfold sort_block.
  destruct (argsort_ok (py_slice gbits i (i + msize))) as [Hperm _].
  assert (length (py_slice gbits i (i + msize)) =
          length (py_slice bases i (i + msize))) as Hl
    by (rewrite !py_slice_block, !length_take, !length_drop; lia).
  rewrite Hl in Hperm.
  destruct (fancy_Permutation _ _ Hperm) as [-> Hblk].
  rewrite res_bind_Ok_l.
  destruct (set_slice_Permutation bases _ i msize Hblk) as [-> Hres].
  eexists. split; done.
Qed.

Lemma sort_blocks_Permutation (msize : nat) (gbits : list Z)
    (blocks : list nat) : forall bases : list Z,
  length gbits = length bases ->
  exists bases',
    res_foldM (sort_block argsort msize gbits) bases blocks = Ok bases' /\
    bases' ≡ₚ bases.
Proof.
  induction blocks as [|i blocks IH]; intros bases Hlen.
  - exists bases. done.
  - destruct (sort_block_Permutation msize gbits bases i Hlen)
      as (bases1 & Hb1 & Hp1).
    destruct (IH bases1) as (bases2 & Hb2 & Hp2).
    { rewrite Hlen. symmetry. by apply Permutation_length. }
    exists bases2. cbn [res_foldM]. rewrite Hb1, res_bind_Ok_l.
    split; [done|]. by rewrite Hp2.
Qed.

Lemma first_sort_Permutation (qbpos : list Z) (n : nat) :
  first_sort argsort qbpos n ≡ₚ seqZ 0 (Z.of_nat (2 ^ n)).
Proof.
  unfold first_sort.
  destruct (argsort_ok (spectator_index
             (filter (fun x => x ∉ qbpos) (seqZ 0 (Z.of_nat n)))
           <$> seqZ 0 (Z.of_nat (2 ^ n)))) as [Hperm _].
  by rewrite length_fmap, length_seqZ, Nat2Z.id in Hperm.
Qed.

(** the constructor up to its second loop *)
Lemma LazyGate_init_unfold {C : Type} (matrix : list (list C))
    (qbpos : list Z) (n : nat) :
  Forall (fun q => 0 <= q) qbpos ->
  LazyGate_init argsort matrix qbpos n =
  bases ← res_foldM (sort_block argsort (2 ^ length qbpos)
                       (target_index qbpos <$> first_sort argsort qbpos n))
                    (first_sort argsort qbpos n)
                    (py_range (2 ^ n) (2 ^ length qbpos));
  Ok (mkLazyGate n matrix (2 ^ length qbpos) (2 ^ n) bases qbpos
        (filter (fun x => x ∉ qbpos) (seqZ 0 (Z.of_nat n)))).
Proof.
  intros Hq. unfold LazyGate_init. cbv zeta.
  set (specpos := filter (fun x => x ∉ qbpos) (seqZ 0 (Z.of_nat n))).
  set (bases0 := seqZ 0 (Z.of_nat (2 ^ n))).
  unfold gather_spectators.
  rewrite (res_mapM_Ok _ (spectator_index specpos)).
  2:{ apply Forall_forall. intros b _. apply get_spectator_run.
      by apply filter_seqZ_ascending. }
  rewrite res_bind_Ok_l.
  pose proof (first_sort_Permutation qbpos n) as Hperm.
  change (argsort (spectator_index specpos <$> bases0))
    with (first_sort argsort qbpos n).
  fold bases0 in Hperm.
  destruct (fancy_Permutation bases0 (first_sort argsort qbpos n)) as [-> _].
  { unfold bases0. by rewrite length_seqZ, Nat2Z.id. }
  rewrite res_bind_Ok_l.
  assert ((fun i => bases0 !!! Z.to_nat i) <$> first_sort argsort qbpos n =
          first_sort argsort qbpos n) as ->.
  { rewrite <- (list_fmap_id (first_sort argsort qbpos n)) at 2.
    apply Forall_fmap_ext, Forall_forall. intros i Hi.
    rewrite Hperm in Hi. apply elem_of_seqZ in Hi. unfold bases0.
    rewrite lookup_total_seqZ_lt by lia. simpl. lia. }
  unfold gather_qbpos.
  rewrite (res_mapM_Ok _ (target_index qbpos)).
  2:{ apply Forall_forall. intros b _. by apply get_qbpos_run. }
  by rewrite res_bind_Ok_l.
Qed.

(** construction succeeds for non-negative positions, and the table is a
    permutation of the basis indices *)
Lemma LazyGate_init_Permutation {C : Type} (matrix : list (list C))
    (qbpos : list Z) (n : nat) :
  Forall (fun q => 0 <= q) qbpos ->
  exists bases : list Z,
    LazyGate_init argsort matrix qbpos n =
    Ok (mkLazyGate n matrix (2 ^ length qbpos) (2 ^ n) bases qbpos
          (filter (fun x => x ∉ qbpos) (seqZ 0 (Z.of_nat n)))) /\
    bases ≡ₚ seqZ 0 (Z.of_nat (2 ^ n)).
Proof.
  intros Hq. rewrite LazyGate_init_unfold by done.
  destruct (sort_blocks_Permutation (2 ^ length qbpos)
              (target_index qbpos <$> first_sort argsort qbpos n)
              (py_range (2 ^ n) (2 ^ length qbpos)) (first_sort argsort qbpos n))
    as (bases & -> & Hperm); [by rewrite length_fmap|].
  exists bases. split; [done|]. by rewrite Hperm, first_sort_Permutation.
Qed.

(** a negative position is a negative shift count *)
Lemma LazyGate_init_negative {C : Type} (matrix : list (list C))
    (qbpos : list Z) (n : nat) :
  Exists (fun q => q < 0) qbpos ->
  LazyGate_init argsort matrix qbpos n = Raise ValueError.
Proof.
  intros Hq. unfold LazyGate_init. cbv zeta.
  set (specpos := filter (fun x => x ∉ qbpos) (seqZ 0 (Z.of_nat n))).
  set (bases0 := seqZ 0 (Z.of_nat (2 ^ n))).
  unfold gather_spectators.
  rewrite (res_mapM_Ok _ (spectator_index specpos)).
  2:{ apply Forall_forall. intros b _. apply get_spectator_run.
      by apply filter_seqZ_ascending. }
  rewrite res_bind_Ok_l.
  pose proof (first_sort_Permutation qbpos n) as Hperm.
  change (argsort (spectator_index specpos <$> bases0))
    with (first_sort argsort qbpos n).
  fold bases0 in Hperm.
  destruct (fancy_Permutation bases0 (first_sort argsort qbpos n)) as [-> Hp].
  { unfold bases0. by rewrite length_seqZ, Nat2Z.id. }
  rewrite res_bind_Ok_l.
  destruct ((fun i => bases0 !!! Z.to_nat i) <$> first_sort argsort qbpos n)
    as [|b bases1] eqn:Hb.
  { apply Permutation_length in Hp. unfold bases0 in Hp.
    rewrite length_seqZ in Hp. simpl in Hp. pose proof (pow2_pos n). lia. }
  unfold gather_qbpos. cbn [res_mapM].
  by rewrite get_qbpos_negative.
Qed.

End lazy_init.

(** ** The lazy gate: what the index table looks like *)

Lemma pow2_of_nat (n : nat) : 2 ^ Z.of_nat n = Z.of_nat (2 ^ n).
Proof. by rewrite Nat2Z.inj_pow. Qed.

Lemma testbit_above (x : Z) (n q : Z) :
  0 <= x < 2 ^ n -> 0 <= n <= q -> Z.testbit x q = false.
Proof.
  intros Hx Hq. destruct (Z.testbit x q) eqn:E; [|done].
  pose proof (Z.testbit_spec' x q ltac:(lia)) as Hs.
  rewrite E, Z.div_small in Hs; [done|]. split; [lia|].
  apply Z.lt_le_trans with (2 ^ n); [lia|].
  apply Z.pow_le_mono_r; lia.
Qed.

Lemma Sorted_seqZ (len : nat) : forall s : Z, Sorted Z.le (seqZ s (Z.of_nat len)).
Proof.
  induction len as [|len IH]; intros s.
  - rewrite seqZ_nil by lia. constructor.
  - rewrite seqZ_cons by lia.
    replace (Z.pred (Z.of_nat (S len))) with (Z.of_nat len) by lia.
    constructor; [apply IH|].
    destruct len as [|len]; [rewrite seqZ_nil by lia; constructor|].
    rewrite seqZ_cons by lia. constructor. lia.
Qed.

(** a duplicate-free list of [K] numbers below [K] lists them all *)
Lemma NoDup_range_Permutation (l : list Z) (K : nat) :
  NoDup l -> Forall (fun x => 0 <= x < Z.of_nat K) l -> length l = K ->
  l ≡ₚ seqZ 0 (Z.of_nat K).
Proof.
  intros Hnd Hrange Hlen. apply submseteq_length_Permutation.
  - apply NoDup_submseteq; [done|]. intros x Hx.
    rewrite Forall_forall in Hrange. apply elem_of_seqZ.
    specialize (Hrange x Hx). lia.
  - rewrite length_seqZ. lia.
Qed.

Section lazy_table.
Variable argsort : list Z -> list Z.
Hypothesis argsort_ok : argsort_spec argsort.
Variable P : list Z.
Variable n : nat.
Hypothesis P_NoDup : NoDup P.
Hypothesis P_range : Forall (fun q => 0 <= q < Z.of_nat n) P.

Local Abbreviation S := (filter (fun x => x ∉ P) (seqZ 0 (Z.of_nat n))).
Local Abbreviation skey := (spectator_index S).
Local Abbreviation tkey := (target_index P).
Local Abbreviation m := (length P).
Local Abbreviation Mz := (2 ^ length P)%nat.
Local Abbreviation N := (2 ^ n)%nat.

Lemma P_nonneg : Forall (fun q => 0 <= q) P.
Proof. eapply Forall_impl; [exact P_range|]. simpl. lia. Qed.

Lemma spectators_length : (length S + m = n)%nat.
Proof.
  pose proof (filter_app_complement (fun x => x ∈ P) (seqZ 0 (Z.of_nat n)))
    as Hsplit.
  apply Permutation_length in Hsplit.
  rewrite length_app, length_seqZ, Nat2Z.id in Hsplit.
  assert (filter (fun x => x ∈ P) (seqZ 0 (Z.of_nat n)) ≡ₚ P) as Hin.
  { apply NoDup_Permutation; [apply NoDup_filter, NoDup_seqZ|done|].
    intros x. rewrite list_elem_of_filter, elem_of_seqZ. split; [tauto|].
    intros Hx. split; [done|].
    rewrite Forall_forall in P_range. specialize (P_range x Hx). lia. }
  apply Permutation_length in Hin. lia.
Qed.

Lemma m_le_n : (m <= n)%nat.
Proof. pose proof spectators_length. lia. Qed.

Lemma N_blocks : N = (2 ^ (n - m) * Mz)%nat.
Proof.
  rewrite <- Nat.pow_add_r. f_equal. pose proof m_le_n. lia.
Qed.

(** the two keys together determine the basis index *)
Lemma keys_inj (x y : Z) :
  0 <= x < Z.of_nat N -> 0 <= y < Z.of_nat N ->
  skey x = skey y -> tkey x = tkey y -> x = y.
Proof.
  intros Hx Hy Hs Ht.
  apply spectator_index_inj in Hs. apply target_index_inj in Ht.
  rewrite Forall_forall in Hs, Ht.
  rewrite Nat2Z.inj_pow in Hx, Hy.
  apply Z.bits_inj'. intros q Hq.
  destruct (decide (q < Z.of_nat n)) as [Hlt|Hge].
  - destruct (decide (q ∈ P)) as [Hin|Hout]; [by apply Ht|].
    apply Hs. apply list_elem_of_filter. split; [done|].
    apply elem_of_seqZ. lia.
  - rewrite !(testbit_above _ (Z.of_nat n) q) by lia. done.
Qed.

Lemma skey_range (x : Z) : 0 <= skey x < Z.of_nat (2 ^ (n - m)).
Proof.
  pose proof (spectator_index_range S x) as Hr.
  replace (n - m)%nat with (length S) by (pose proof spectators_length; lia).
  by rewrite Nat2Z.inj_pow.
Qed.

Lemma tkey_range (x : Z) : 0 <= tkey x < Z.of_nat Mz.
Proof.
  pose proof (target_index_range P x) as Hr. by rewrite Nat2Z.inj_pow.
Qed.

(** the spectator keys of all basis indices, as a multiset: every key
    [2^m] times *)
Lemma skeys_Permutation :
  skey <$> seqZ 0 (Z.of_nat N) ≡ₚ
  (fun p => p / Z.of_nat Mz) <$> seqZ 0 (Z.of_nat N).
Proof.
  set (f := fun x => skey x * Z.of_nat Mz + tkey x).
  assert (f <$> seqZ 0 (Z.of_nat N) ≡ₚ seqZ 0 (Z.of_nat N)) as Hf.
  { apply NoDup_range_Permutation.
    - apply NoDup_fmap_2_strong; [|apply NoDup_seqZ].
      intros x y Hx Hy Hxy. apply elem_of_seqZ in Hx, Hy.
      pose proof (skey_range x). pose proof (skey_range y).
      pose proof (tkey_range x). pose proof (tkey_range y).
      unfold f in Hxy.
      assert (skey x = skey y) as Hs by nia.
      apply keys_inj; [lia|lia|done|]. rewrite Hs in Hxy. lia.
    - apply Forall_fmap, Forall_forall. intros x _. simpl. unfold f.
      pose proof (skey_range x). pose proof (tkey_range x).
      rewrite N_blocks at 1. rewrite Nat2Z.inj_mul. nia.
    - by rewrite length_fmap, length_seqZ, Nat2Z.id. }
  rewrite <- Hf at 2. rewrite <- list_fmap_compose.
  assert (skey <$> seqZ 0 (Z.of_nat N) =
          (fun p => p / Z.of_nat Mz) ∘ f <$> seqZ 0 (Z.of_nat N)) as ->; [|done].
  apply Forall_fmap_ext_1, Forall_forall.
  intros x _. simpl. unfold f.
  pose proof (tkey_range x). pose proof (pow2_pos m).
  rewrite Z.div_add_l by lia. rewrite Z.div_small by lia. lia.
Qed.

Lemma first_sort_skeys :
  skey <$> first_sort argsort P n =
  (fun p => p / Z.of_nat Mz) <$> seqZ 0 (Z.of_nat N).
Proof.
  pose proof (first_sort_Permutation argsort argsort_ok P n) as Hperm.
  apply (Sorted_unique Z.le).
  - destruct (argsort_ok (skey <$> seqZ 0 (Z.of_nat N))) as [_ Hsorted].
    fold (first_sort argsort P n) in Hsorted.
    assert (skey <$> first_sort argsort P n =
            (fun i => (skey <$> seqZ 0 (Z.of_nat N)) !!! Z.to_nat i)
              <$> first_sort argsort P n) as ->; [|exact Hsorted].
    apply Forall_fmap_ext_1, Forall_forall. intros i Hi. rewrite Hperm in Hi.
    apply elem_of_seqZ in Hi.
    rewrite (list_lookup_total_fmap skey (seqZ 0 (Z.of_nat N)) (Z.to_nat i))
      by (rewrite length_seqZ; lia).
    rewrite lookup_total_seqZ_lt by lia. f_equal. lia.
  - apply Sorted_fmap with (R1 := Z.le); [|apply Sorted_seqZ].
    intros x y Hxy. apply Z.div_le_mono; [|done].
    pose proof (pow2_pos m). lia.
  - rewrite Hperm. apply skeys_Permutation.
Qed.

(** after the first sort, block [k] holds the indices of spectator key [k] *)
Lemma first_sort_block (k j : nat) (b : Z) :
  (j < Mz)%nat ->
  first_sort argsort P n !! (k * Mz + j)%nat = Some b ->
  skey b = Z.of_nat k.
Proof.
  intros Hj Hb.
  assert ((skey <$> first_sort argsort P n) !! (k * Mz + j)%nat =
          Some (skey b)) as Hs by (by rewrite list_lookup_fmap, Hb).
  rewrite first_sort_skeys, list_lookup_fmap in Hs.
  destruct (seqZ 0 (Z.of_nat N) !! (k * Mz + j)%nat) as [p|] eqn:Hp; [|done].
  apply lookup_seqZ in Hp as [-> _]. simpl in Hs. injection Hs as <-.
  rewrite Z.add_0_l, Nat2Z.inj_add, Nat2Z.inj_mul.
  rewrite Z.div_add_l by lia. rewrite Z.div_small by lia. lia.
Qed.

End lazy_table.

Lemma py_range_blocks (G Mz : nat) :
  (0 < Mz)%nat ->
  py_range (G * Mz) Mz = (fun k => k * Mz)%nat <$> seq 0 G.
Proof.
  intros HM. unfold py_range. do 2 f_equal.
  replace (G * Mz + Mz - 1)%nat with (G * Mz + (Mz - 1))%nat by lia.
  rewrite Nat.div_add_l by lia. rewrite Nat.div_small by lia. lia.
Qed.

Section lazy_blocks.
Variable argsort : list Z -> list Z.
Hypothesis argsort_ok : argsort_spec argsort.
Variable P : list Z.
Variable n : nat.
Hypothesis P_NoDup : NoDup P.
Hypothesis P_range : Forall (fun q => 0 <= q < Z.of_nat n) P.

Local Abbreviation S := (filter (fun x => x ∉ P) (seqZ 0 (Z.of_nat n))).
Local Abbreviation skey := (spectator_index S).
Local Abbreviation tkey := (target_index P).
Local Abbreviation Mz := (2 ^ length P)%nat.
Local Abbreviation N := (2 ^ n)%nat.
Local Abbreviation G := (2 ^ (n - length P))%nat.
Local Abbreviation sorted1 := (first_sort argsort P n).

Lemma sort_block_step (bases : list Z) (k : nat) :
  table_upto argsort P n bases k -> (k < G)%nat ->
  exists bases',
    sort_block argsort Mz (tkey <$> sorted1) bases (k * Mz) = Ok bases' /\
    table_upto argsort P n bases' (Datatypes.S k).
Proof.
  intros (Hperm & Hdone & Hrest) Hk.
  pose proof (first_sort_Permutation argsort argsort_ok P n) as Hperm1.
  pose proof (N_blocks P n P_NoDup P_range) as HN.
  pose proof (pow2_pos (length P)) as HMz.
  set (i := (k * Mz)%nat) in *.
  assert (length bases = N) as Hlen.
  { rewrite Hperm, Hperm1. by rewrite length_seqZ, Nat2Z.id. }
  assert (i + Mz <= N)%nat as Hi by (unfold i; nia).
  set (s := take Mz (drop i bases)).
  assert (length s = Mz) as Hslen
    by (unfold s; rewrite length_take, length_drop; lia).
  assert (forall j b, s !! j = Some b ->
            (j < Mz)%nat /\ bases !! (i + j)%nat = Some b) as Hs_lookup.
  { intros j b Hb. unfold s in Hb. rewrite lookup_take in Hb.
    case_decide; [|done]. by rewrite lookup_drop in Hb. }
  assert (forall b, b ∈ s -> skey b = Z.of_nat k /\ 0 <= b < Z.of_nat N)
    as Hs_elem.
  { intros b [j Hj]%list_elem_of_lookup.
    apply Hs_lookup in Hj as [Hj Hb]. split.
    - rewrite Hrest in Hb by lia.
      by apply (first_sort_block argsort argsort_ok P n P_NoDup P_range k j b).
    - apply list_elem_of_lookup_2 in Hb. rewrite Hperm, Hperm1 in Hb.
      apply elem_of_seqZ in Hb. lia. }
  assert (py_slice (tkey <$> sorted1) i (i + Mz) = tkey <$> s) as Hks.
  { rewrite py_slice_block. unfold s. rewrite fmap_take, fmap_drop.
    apply list_eq. intros j. rewrite !lookup_take. case_decide; [|done].
    rewrite !lookup_drop, !list_lookup_fmap. by rewrite Hrest by lia. }
  unfold sort_block. rewrite Hks, py_slice_block. fold s.
  destruct (argsort_ok (tkey <$> s)) as [Hp Hsorted].
  rewrite length_fmap in Hp.
  destruct (fancy_Permutation s _ Hp) as [-> Hblk].
  set (blk := (fun j => s !!! Z.to_nat j) <$> argsort (tkey <$> s)) in *.
  rewrite res_bind_Ok_l.
  destruct (set_slice_Permutation bases blk i Mz) as [-> Hres];
    [by rewrite py_slice_block|].
  assert (length blk = Mz) as Hblen
    by (rewrite <- Hslen; by apply Permutation_length).
  assert (tkey <$> blk = seqZ 0 (Z.of_nat Mz)) as Htk.
  { apply (Sorted_unique Z.le); [|apply Sorted_seqZ|].
    - assert (tkey <$> blk =
              (fun j => (tkey <$> s) !!! Z.to_nat j)
                <$> argsort (tkey <$> s)) as ->; [|exact Hsorted].
      unfold blk. rewrite <- list_fmap_compose.
      apply Forall_fmap_ext_1, Forall_forall. intros j Hj.
      rewrite Hp in Hj. apply elem_of_seqZ in Hj. simpl.
      by rewrite (list_lookup_total_fmap tkey s (Z.to_nat j)) by lia.
    - rewrite Hblk. apply NoDup_range_Permutation.
      + apply NoDup_fmap_2_strong.
        * intros x y Hx Hy Hxy.
          destruct (Hs_elem x Hx) as [Hsx Hrx].
          destruct (Hs_elem y Hy) as [Hsy Hry].
          apply (keys_inj P n); [done..|congruence|done].
        * apply (sublist_NoDup _ bases).
          -- rewrite Hperm, Hperm1. apply NoDup_seqZ.
          -- unfold s. etrans; [apply sublist_take|apply sublist_drop].
      + apply Forall_fmap, Forall_forall. intros x _.
        apply (tkey_range P).
      + by rewrite length_fmap. }
  rewrite Hblen in Hres |- *. eexists. split; [done|].
  assert (length (take i bases) = i) as Htake
    by (rewrite length_take; lia).
  split; [by rewrite Hres|]. split.
  - intros k' j b Hk' Hj Hb.
    destruct (decide (k' < k)%nat) as [Hlt|Hge].
    + rewrite lookup_app_l in Hb by (rewrite Htake; unfold i; nia).
      rewrite lookup_take_lt in Hb by (unfold i; nia).
      by apply (Hdone k' j b).
    + assert (k' = k) as -> by lia. fold i in Hb.
      rewrite lookup_app_r in Hb by (rewrite Htake; lia).
      rewrite Htake in Hb. replace (i + j - i)%nat with j in Hb by lia.
      rewrite lookup_app_l in Hb by lia. split.
      * apply Hs_elem. rewrite <- Hblk. by eapply list_elem_of_lookup_2.
      * assert ((tkey <$> blk) !! j = Some (tkey b)) as Ht
          by (by rewrite list_lookup_fmap, Hb).
        rewrite Htk in Ht. apply lookup_seqZ in Ht. lia.
  - intros p Hp'. fold i in Hp'.
    rewrite lookup_app_r by (rewrite Htake; lia). rewrite Htake.
    rewrite lookup_app_r by lia. rewrite Hblen, lookup_drop.
    replace (i + Mz + (p - i - Mz))%nat with p by lia.
    apply Hrest. unfold i. lia.
Qed.

Lemma sort_blocks_run (cnt : nat) : forall (k0 : nat) (bases : list Z),
  table_upto argsort P n bases k0 -> (k0 + cnt <= G)%nat ->
  exists bases',
    res_foldM (sort_block argsort Mz (tkey <$> sorted1)) bases
      ((fun k => k * Mz)%nat <$> seq k0 cnt) = Ok bases' /\
    table_upto argsort P n bases' (k0 + cnt).
Proof.
  induction cnt as [|cnt IH]; intros k0 bases Hinv Hk.
  - exists bases. by rewrite Nat.add_0_r.
  - destruct (sort_block_step bases k0 Hinv) as (bases1 & Hb1 & Hinv1); [lia|].
    destruct (IH (Datatypes.S k0) bases1 Hinv1) as (bases2 & Hb2 & Hinv2);
      [lia|].
    exists bases2. cbn [seq fmap list_fmap res_foldM].
    rewrite Hb1, res_bind_Ok_l. split; [exact Hb2|].
    by replace (k0 + Datatypes.S cnt)%nat with (Datatypes.S k0 + cnt)%nat by lia.
Qed.

(** the table of a lazy gate built on distinct positions inside the
    register: block [k] lists the basis indices of spectator key [k] by
    increasing target index *)
Lemma LazyGate_init_table {C : Type} (U : list (list C)) :
  exists bases : list Z,
    LazyGate_init argsort U P n = Ok (mkLazyGate n U Mz N bases P S) /\
    bases ≡ₚ seqZ 0 (Z.of_nat N) /\
    forall (k j : nat) (b : Z),
      (k < G)%nat -> (j < Mz)%nat ->
      bases !! (k * Mz + j)%nat = Some b ->
      skey b = Z.of_nat k /\ tkey b = Z.of_nat j.
Proof.
  pose proof (first_sort_Permutation argsort argsort_ok P n) as Hperm1.
  pose proof (N_blocks P n P_NoDup P_range) as HN.
  rewrite LazyGate_init_unfold by (done || by apply (P_nonneg P n)).
  assert (py_range N Mz = (fun k => k * Mz)%nat <$> seq 0 G) as Hr
    by (rewrite <- py_range_blocks by apply pow2_pos; by rewrite <- HN).
  destruct (sort_blocks_run G 0 sorted1) as (bases & Hrun & Hinv); [|done|].
  { split; [done|]. split; [intros; lia|done]. }
  exists bases. rewrite Hr, Hrun, res_bind_Ok_l. split; [done|].
  destruct Hinv as (Hperm & Hdone & _). split; [by rewrite Hperm|].
  intros k j b Hk Hj Hb. by apply (Hdone k j b).
Qed.

End lazy_blocks.

(** ** The lazy gate: gather, multiply, scatter *)

Section scatter.
Context {C : Type}.
Implicit Types (b : list C) (jxs : list (nat * C)).

Lemma scatter_cons b (jx : nat * C) jxs :
  scatter b (jx :: jxs) = scatter (<[jx.1 := jx.2]> b) jxs.
Proof. done. Qed.

Lemma scatter_lookup_other jxs : forall b (p : nat),
  p ∉ jxs.*1 -> scatter b jxs !! p = b !! p.
Proof.
  induction jxs as [|jx jxs IH]; intros b p Hp; [done|].
  rewrite fmap_cons, not_elem_of_cons in Hp. destruct Hp as [Hne Hp].
  rewrite scatter_cons, IH by done. by apply list_lookup_insert_ne.
Qed.

Lemma scatter_lookup_written jxs : forall b (t p : nat) (x : C),
  NoDup (jxs.*1) -> jxs !! t = Some (p, x) -> (p < length b)%nat ->
  scatter b jxs !! p = Some x.
Proof.
  induction jxs as [|jx jxs IH]; intros b t p x Hnd Ht Hp; [done|].
  rewrite fmap_cons in Hnd. apply NoDup_cons in Hnd as [Hnotin Hnd].
  rewrite scatter_cons. destruct t as [|t]; simpl in Ht.
  - injection Ht as ->. simpl in *.
    rewrite scatter_lookup_other by done.
    by apply list_lookup_insert_eq.
  - apply (IH _ t); [done|done|]. by rewrite length_insert.
Qed.

End scatter.

Section lazy_apply.
Context {C : Type} `{AmpC : Amplitude C}.
Add Ring amplitude_ring_lazy : amp_ring.

Variable U : list (list C).
Variable P : list Z.
Variable n : nat.
Variable tbl : list Z.
Variable v : list C.

Local Abbreviation S := (filter (fun x => x ∉ P) (seqZ 0 (Z.of_nat n))).
Local Abbreviation skey := (spectator_index S).
Local Abbreviation tkey := (target_index P).
Local Abbreviation Mz := (2 ^ length P)%nat.
Local Abbreviation N := (2 ^ n)%nat.
Local Abbreviation G := (2 ^ (n - length P))%nat.
Local Abbreviation gate := (mkLazyGate n U Mz N tbl P S).
Local Abbreviation vget := (fun b : Z => v !!! Z.to_nat b).
Local Abbreviation block k := (take Mz (drop (k * Mz) tbl)).
Local Abbreviation bvalue := (block_value U P tbl v).
Local Abbreviation wupto := (written_upto U P n tbl v).

Hypothesis N_split : N = (G * Mz)%nat.
Hypothesis U_square : square (length P) U.
Hypothesis v_length : length v = N.
Hypothesis bases_perm : tbl ≡ₚ seqZ 0 (Z.of_nat N).
Hypothesis bases_keys : forall (k j : nat) (b : Z),
  (k < G)%nat -> (j < Mz)%nat ->
  tbl !! (k * Mz + j)%nat = Some b ->
  skey b = Z.of_nat k /\ tkey b = Z.of_nat j.

Lemma bases_length : length tbl = N.
Proof. rewrite bases_perm. by rewrite length_seqZ, Nat2Z.id. Qed.

Lemma bases_NoDup : NoDup tbl.
Proof. rewrite bases_perm. apply NoDup_seqZ. Qed.

Lemma bases_bound (q : nat) (b : Z) :
  tbl !! q = Some b -> 0 <= b < Z.of_nat N.
Proof.
  intros Hb%list_elem_of_lookup_2. rewrite bases_perm in Hb.
  apply elem_of_seqZ in Hb. lia.
Qed.

Lemma block_length (k : nat) : (k < G)%nat -> length (block k) = Mz.
Proof.
  intros Hk. rewrite length_take, length_drop, bases_length. nia.
Qed.

Lemma block_lookup (k j : nat) :
  (j < Mz)%nat -> block k !! j = tbl !! (k * Mz + j)%nat.
Proof. intros Hj. by rewrite lookup_take_lt, lookup_drop. Qed.

Lemma block_elem (k : nat) (b : Z) :
  b ∈ block k -> exists j, (j < Mz)%nat /\ tbl !! (k * Mz + j)%nat = Some b.
Proof.
  intros [j Hj]%list_elem_of_lookup. rewrite lookup_take in Hj.
  case_decide; [|done]. rewrite lookup_drop in Hj. eauto.
Qed.

(** one pass of the loop *)
Lemma lazy_block_run (new : list C) (k : nat) :
  (k < G)%nat -> length new = N ->
  lazy_block gate v new (k * Mz) =
  Ok (scatter new (zip (Z.to_nat <$> block k)
                       ((fun row => dotv row (vget <$> block k)) <$> U))).
Proof.
  intros Hk Hnew. unfold lazy_block. simpl bases. simpl msize. simpl lmatrix.
  rewrite py_slice_block.
  assert (Forall (fun b => 0 <= b < Z.of_nat N) (block k)) as Hrange.
  { apply Forall_forall. intros b (j & _ & Hb)%block_elem.
    by eapply bases_bound. }
  unfold fancy. rewrite (res_mapM_Ok _ vget).
  2:{ eapply Forall_impl; [exact Hrange|]. intros b Hb. simpl in Hb |- *.
      destruct (lookup_lt_is_Some_2 v (Z.to_nat b)) as [x Hx]; [lia|].
      rewrite (list_lookup_total_correct _ _ _ Hx).
      apply py_getitem_inrange; [lia|done]. }
  rewrite res_bind_Ok_l.
  destruct (dot_square (length P) U (vget <$> block k) U_square) as [-> Hw];
    [by rewrite length_fmap, block_length|].
  rewrite res_bind_Ok_l. unfold put_values.
  rewrite (res_mapM_Ok _ Z.to_nat).
  2:{ eapply Forall_impl; [exact Hrange|]. intros b Hb. simpl in Hb |- *.
      apply py_index_inrange. lia. }
  rewrite res_bind_Ok_l. unfold broadcast.
  rewrite decide_True by (by rewrite Hw, block_length).
  by rewrite res_bind_Ok_l.
Qed.

Lemma lazy_block_step (new : list C) (k : nat) :
  (k < G)%nat -> wupto new k ->
  exists new',
    lazy_block gate v new (k * Mz) = Ok new' /\
    wupto new' (Datatypes.S k).
Proof.
  intros Hk [Hlen Hdone]. rewrite lazy_block_run by done.
  eexists. split; [done|].
  set (js := Z.to_nat <$> block k).
  set (w := (fun row => dotv row (vget <$> block k)) <$> U).
  assert (length w = Mz) as Hw
    by (unfold w; rewrite length_fmap; apply U_square).
  assert (length js = Mz) as Hjs
    by (unfold js; by rewrite length_fmap, block_length).
  assert ((zip js w).*1 = js) as Hfst by (apply fst_zip; lia).
  split; [by rewrite scatter_length|].
  intros k' j b Hk' Hj Hb.
  pose proof (bases_bound _ _ Hb) as Hbb.
  destruct (decide (k' < k)%nat) as [Hlt|Hge].
  - rewrite scatter_lookup_other; [by apply (Hdone k' j)|].
    rewrite Hfst. unfold js. intros (b' & Heq & Hin)%list_elem_of_fmap.
    apply block_elem in Hin as (j' & Hj' & Hb').
    pose proof (bases_bound _ _ Hb') as Hbb'.
    assert (b = b') as <- by lia.
    pose proof (NoDup_lookup _ _ _ _ bases_NoDup Hb Hb') as Heq'. nia.
  - assert (k' = k) as -> by lia.
    destruct (lookup_lt_is_Some_2 U j) as [row Hrow];
      [destruct U_square as [-> _]; done|].
    apply (scatter_lookup_written _ _ j).
    + rewrite Hfst. unfold js. apply NoDup_fmap_2_strong.
      * intros x y (jx & _ & Hx)%block_elem (jy & _ & Hy)%block_elem Hxy.
        pose proof (bases_bound _ _ Hx). pose proof (bases_bound _ _ Hy). lia.
      * apply (sublist_NoDup _ tbl); [apply bases_NoDup|].
        etrans; [apply sublist_take|apply sublist_drop].
    + apply lookup_zip_with_Some. eexists _, _. split; [done|]. split.
      * unfold js. by rewrite list_lookup_fmap, block_lookup, Hb.
      * unfold w, block_value. rewrite list_lookup_fmap, Hrow. simpl.
        by rewrite (list_lookup_total_correct _ _ _ Hrow).
    + lia.
Qed.

Lemma lazy_blocks_run (cnt : nat) : forall (k0 : nat) (new : list C),
  wupto new k0 -> (k0 + cnt <= G)%nat ->
  exists new',
    res_foldM (lazy_block gate v) new
      ((fun k => k * Mz)%nat <$> seq k0 cnt) = Ok new' /\
    wupto new' (k0 + cnt).
Proof.
  induction cnt as [|cnt IH]; intros k0 new Hinv Hk.
  - exists new. by rewrite Nat.add_0_r.
  - destruct (lazy_block_step new k0) as (new1 & Hn1 & Hinv1); [lia|done|].
    destruct (IH (Datatypes.S k0) new1 Hinv1) as (new2 & Hn2 & Hinv2); [lia|].
    exists new2. cbn [seq fmap list_fmap res_foldM].
    rewrite Hn1, res_bind_Ok_l. split; [exact Hn2|].
    by replace (k0 + Datatypes.S cnt)%nat with (Datatypes.S k0 + cnt)%nat by lia.
Qed.

(** the new state of [LazyGate.apply], amplitude by amplitude *)
Lemma LazyGate_new_state_run :
  exists w,
    LazyGate_new_state gate v = Ok w /\ length w = N /\
    forall (k j : nat) (b : Z),
      (k < G)%nat -> (j < Mz)%nat ->
      tbl !! (k * Mz + j)%nat = Some b ->
      w !! Z.to_nat b = Some (bvalue k j).
Proof.
  unfold LazyGate_new_state. simpl qsize. simpl msize.
  assert (py_range N Mz = (fun k => k * Mz)%nat <$> seq 0 G) as ->
    by (rewrite <- py_range_blocks by apply pow2_pos; by rewrite <- N_split).
  destruct (lazy_blocks_run G 0 (np_zeros (length v))) as (w & Hw & Hinv);
    [|done|].
  { split; [by rewrite np_zeros_length|]. intros; lia. }
  exists w. split; [done|]. destruct Hinv as [Hlen Hdone]. split; [done|].
  intros k j b Hk Hj Hb. by apply (Hdone k j b).
Qed.

(** *** The dense side *)

Lemma eye2_product (qs : list Z) (r c : Z) :
  foldr amul aone ((fun q => eye2 (Z.testbit r q) (Z.testbit c q)) <$> qs) =
  if decide (spectator_index qs r = spectator_index qs c)
  then aone else azero.
Proof.
  induction qs as [|q qs IH]; [done|].
  rewrite fmap_cons. cbn [foldr spectator_index]. rewrite IH.
  unfold eye2.
  destruct (Z.testbit r q), (Z.testbit c q); simpl;
    repeat case_decide; try ring; lia.
Qed.

Lemma spectator_factor_decide (r c : Z) :
  spectator_factor n P r c =
  if decide (skey r = skey c) then aone else azero.
Proof. apply eye2_product. Qed.

Lemma dotv_fmap_seqZ (f : Z -> C) :
  dotv (f <$> seqZ 0 (Z.of_nat N)) v =
  vsum ((fun c => amul (f c) (vget c)) <$> seqZ 0 (Z.of_nat N)).
Proof.
  unfold dotv. f_equal.
  rewrite <- (fmap_lookup_total_seqZ v) at 1. rewrite v_length.
  rewrite zip_with_fmap_l, zip_with_fmap_r. apply zip_with_diag.
Qed.

Lemma tbl_spectator_key (q : nat) (c : Z) :
  tbl !! q = Some c -> skey c = Z.of_nat (q / Mz).
Proof.
  intros Hc. pose proof (pow2_pos (length P)) as HM.
  pose proof (lookup_lt_Some _ _ _ Hc) as Hq. rewrite bases_length in Hq.
  pose proof (Nat.div_mod_eq q Mz) as Hdm.
  pose proof (Nat.mod_upper_bound q Mz ltac:(lia)) as Hmod.
  apply (bases_keys (q / Mz) (q mod Mz) c); [|done|].
  - apply Nat.Div0.div_lt_upper_bound. lia.
  - rewrite <- Hc. f_equal. lia.
Qed.

(** row [b] of the dense embedding, applied to [v] *)
Lemma dense_row (b : Z) (k j : nat) :
  (k < G)%nat -> (j < Mz)%nat ->
  skey b = Z.of_nat k -> tkey b = Z.of_nat j ->
  dotv ((fun c => embedded_entry U P n b c) <$> seqZ 0 (Z.of_nat N)) v =
  bvalue k j.
Proof.
  intros Hk Hj Hsb Htb. pose proof (pow2_pos (length P)) as HM.
  rewrite dotv_fmap_seqZ.
  set (F := fun c => amul (embedded_entry U P n b c) (vget c)).
  rewrite <- (vsum_Permutation (F <$> tbl)) by (by rewrite bases_perm).
  assert (tbl = take (k * Mz) tbl ++ block k ++ drop (k * Mz + Mz) tbl)
    as Hsplit.
  { rewrite <- drop_drop, take_drop. by rewrite take_drop. }
  rewrite Hsplit at 1. rewrite !fmap_app, !vsum_app.
  assert (forall c, skey c <> Z.of_nat k -> F c = azero) as Hzero.
  { intros c Hc. unfold F, embedded_entry.
    rewrite spectator_factor_decide, Hsb, decide_False by done. ring. }
  rewrite (vsum_zeros (F <$> take _ _)), (vsum_zeros (F <$> drop _ _)).
  - unfold block_value, dotv.
    assert (F <$> block k = zip_with amul (U !!! j) (vget <$> block k)) as ->;
      [|ring].
    destruct (lookup_lt_is_Some_2 U j) as [row Hrow];
      [destruct U_square as [-> _]; done|].
    rewrite (list_lookup_total_correct _ _ _ Hrow).
    assert (length row = Mz) as Hrlen.
    { destruct U_square as [_ Hrows]. rewrite Forall_forall in Hrows.
      apply Hrows. by eapply list_elem_of_lookup_2. }
    apply list_eq. intros t.
    rewrite lookup_zip_with, !list_lookup_fmap.
    destruct (block k !! t) as [c|] eqn:Hc; simpl.
    + pose proof (lookup_lt_Some _ _ _ Hc) as Ht.
      rewrite block_length in Ht by done.
      rewrite block_lookup in Hc by done.
      destruct (bases_keys k t c Hk Ht Hc) as [Hsc Htc].
      destruct (lookup_lt_is_Some_2 row t) as [x Hx]; [lia|].
      rewrite Hx. simpl. f_equal. unfold F, embedded_entry.
      rewrite spectator_factor_decide, Hsb, Hsc, decide_True by done.
      rewrite Htb, Htc, !Nat2Z.id.
      rewrite (list_lookup_total_correct _ _ _ Hrow).
      rewrite (list_lookup_total_correct _ _ _ Hx). ring.
    + by destruct (row !! t).
  - apply Forall_fmap, Forall_forall. intros c [q Hq]%list_elem_of_lookup.
    simpl. apply Hzero. rewrite lookup_drop in Hq.
    rewrite (tbl_spectator_key _ _ Hq).
    assert (k < (k * Mz + Mz + q) / Mz)%nat; [|lia].
    apply Nat.div_le_lower_bound; lia.
  - apply Forall_fmap, Forall_forall. intros c [q Hq]%list_elem_of_lookup.
    simpl. apply Hzero. rewrite lookup_take in Hq.
    case_decide as Hlt; [|done].
    rewrite (tbl_spectator_key _ _ Hq).
    assert (q / Mz < k)%nat; [|lia].
    apply Nat.Div0.div_lt_upper_bound. lia.
Qed.

(** the lazy gate and the dense embedding compute the same new state *)
Lemma LazyGate_new_state_dense :
  exists w,
    LazyGate_new_state gate v = Ok w /\
    dot (dense_embedding U P n) v = Ok w /\
    length w = N.
Proof.
  destruct LazyGate_new_state_run as (w & Hw & Hlen & Hval).
  exists w. split; [done|]. split; [|done].
  pose proof (pow2_pos (length P)) as HM.
  assert (square n (dense_embedding U P n)) as Hsq.
  { unfold dense_embedding. rewrite pow2_of_nat. split.
    - by rewrite length_fmap, length_seqZ, Nat2Z.id.
    - apply Forall_fmap, Forall_forall. intros r _. simpl.
      by rewrite length_fmap, length_seqZ, Nat2Z.id. }
  destruct (dot_square n _ v Hsq v_length) as [-> Hdlen]. f_equal.
  symmetry. apply (list_eq_same_length _ _ N); [by rewrite Hdlen|done|].
  intros p x y Hp Hx Hy.
  assert (Z.of_nat p ∈ tbl) as [q Hq]%list_elem_of_lookup
    by (rewrite bases_perm; apply elem_of_seqZ; lia).
  pose proof (lookup_lt_Some _ _ _ Hq) as Hqlt. rewrite bases_length in Hqlt.
  pose proof (Nat.div_mod_eq q Mz) as Hdm.
  pose proof (Nat.mod_upper_bound q Mz ltac:(lia)) as Hmod.
  assert (q / Mz < G)%nat as Hk
    by (apply Nat.Div0.div_lt_upper_bound; lia).
  assert (tbl !! (q / Mz * Mz + q mod Mz)%nat = Some (Z.of_nat p)) as Hq'
    by (rewrite <- Hq; f_equal; lia).
  destruct (bases_keys _ _ _ Hk Hmod Hq') as [Hsk Htk].
  pose proof (Hval _ _ _ Hk Hmod Hq') as Hwp. rewrite Nat2Z.id in Hwp.
  rewrite Hwp in Hx. injection Hx as <-.
  unfold dense_embedding in Hy. rewrite pow2_of_nat in Hy.
  rewrite <- list_fmap_compose, list_lookup_fmap in Hy.
  rewrite lookup_seqZ_lt in Hy by lia. simpl in Hy. injection Hy as <-.
  rewrite Z.add_0_l. symmetry. by apply dense_row.
Qed.

End lazy_apply.

(** ** An [argsort] that meets the contract *)

Lemma key_le_total : Total key_le.
Proof. intros a b. unfold key_le. lia. Qed.

Lemma msort_argsort_spec : argsort_spec msort_argsort.
Proof.
  intros ks. unfold msort_argsort.
  set (l := zip ks (seqZ 0 (Z.of_nat (length ks)))).
  assert (length (seqZ 0 (Z.of_nat (length ks))) = length ks) as Hlen
    by (by rewrite length_seqZ, Nat2Z.id).
  pose proof (merge_sort_Permutation key_le l) as Hperm.
  split.
  - rewrite Hperm. unfold l. rewrite snd_zip by lia. done.
  - assert ((fun i => ks !!! Z.to_nat i) <$> (merge_sort key_le l).*2 =
            (merge_sort key_le l).*1) as ->.
    { rewrite <- list_fmap_compose. apply Forall_fmap_ext_1, Forall_forall.
      intros [key idx] Hin. simpl. rewrite Hperm in Hin. unfold l in Hin.
      apply list_elem_of_lookup in Hin as [i Hi].
      apply lookup_zip_with_Some in Hi as (x & y & Heq & Hx & Hy).
      injection Heq as -> ->. apply lookup_seqZ in Hy as [-> _].
      rewrite Z.add_0_l, Nat2Z.id.
      by apply list_lookup_total_correct. }
    apply Sorted_fmap with (R1 := key_le); [done|].
    apply Sorted_merge_sort. exact key_le_total.
Qed.

Lemma tie_argsort_spec : argsort_spec tie_argsort.
Proof.
  intros ks. unfold tie_argsort.
  set (l := zip ks (seqZ 0 (Z.of_nat (length ks)))).
  assert (length (seqZ 0 (Z.of_nat (length ks))) = length ks) as Hlen
    by (by rewrite length_seqZ, Nat2Z.id).
  assert (merge_sort key_le (reverse l) ≡ₚ l) as Hperm
    by (by rewrite merge_sort_Permutation, reverse_Permutation).
  split.
  - rewrite Hperm. unfold l. rewrite snd_zip by lia. done.
  - assert ((fun i => ks !!! Z.to_nat i) <$> (merge_sort key_le (reverse l)).*2
            = (merge_sort key_le (reverse l)).*1) as ->.
    { rewrite <- list_fmap_compose. apply Forall_fmap_ext_1, Forall_forall.
      intros [key idx] Hin. simpl. rewrite Hperm in Hin. unfold l in Hin.
      apply list_elem_of_lookup in Hin as [i Hi].
      apply lookup_zip_with_Some in Hi as (x & y & Heq & Hx & Hy).
      injection Heq as -> ->. apply lookup_seqZ in Hy as [-> _].
      rewrite Z.add_0_l, Nat2Z.id.
      by apply list_lookup_total_correct. }
    apply Sorted_fmap with (R1 := key_le); [done|].
    apply Sorted_merge_sort. exact key_le_total.
Qed.

(** ** Statements about the lazy gate *)

Lemma blocks_tile {X} (l : list X) (M : nat) (cnt : nat) : forall k0 : nat,
  (length (drop (k0 * M) l) <= cnt * M)%nat ->
  mjoin ((fun k => take M (drop (k * M) l)) <$> seq k0 cnt) = drop (k0 * M) l.
Proof.
  induction cnt as [|cnt IH]; intros k0 Hlen.
  - simpl in *. symmetry. apply nil_length_inv. lia.
  - cbn [seq fmap list_fmap mjoin list_join]. rewrite IH.
    + replace (Datatypes.S k0 * M)%nat with (k0 * M + M)%nat by lia.
      rewrite <- drop_drop. apply take_drop.
    + rewrite length_drop in *. lia.
Qed.

Lemma Forall_zip_fst {A B} (Q : A -> Prop) (l : list A) : forall k : list B,
  Forall Q l -> Forall (fun p => Q p.1) (zip l k).
Proof.
  induction l as [|a l IH]; intros [|b k] Hl; simpl; try done.
  apply Forall_cons in Hl as [Ha Hl]. constructor; [done|by apply IH].
Qed.

(** ** The accesses of [LazyGate.apply] *)

Lemma loaded_app (l k : list access) : loaded (l ++ k) = loaded l ++ loaded k.
Proof. apply omap_app. Qed.

Lemma stored_app (l k : list access) : stored (l ++ k) = stored l ++ stored k.
Proof. apply omap_app. Qed.

Lemma loaded_loads {X} (f : X -> nat * Z) (l : list X) :
  loaded ((fun x => Load (f x).1 (f x).2) <$> l) = f <$> l.
Proof.
  unfold loaded. induction l as [|x l IH]; [done|].
  simpl. destruct (f x); simpl. f_equal. exact IH.
Qed.

Lemma loaded_stores {X} (f : X -> nat * Z) (l : list X) :
  loaded ((fun x => Store (f x).1 (f x).2) <$> l) = [].
Proof. induction l as [|x l IH]; [done|]. by rewrite fmap_cons. Qed.

Lemma stored_stores {X} (f : X -> nat * Z) (l : list X) :
  stored ((fun x => Store (f x).1 (f x).2) <$> l) = f <$> l.
Proof.
  unfold stored. induction l as [|x l IH]; [done|].
  simpl. destruct (f x); simpl. f_equal. exact IH.
Qed.

Lemma stored_loads {X} (f : X -> nat * Z) (l : list X) :
  stored ((fun x => Load (f x).1 (f x).2) <$> l) = [].
Proof. induction l as [|x l IH]; [done|]. by rewrite fmap_cons. Qed.

Lemma fmap_seqZ_seq {X} (f : Z -> X) (N : nat) :
  f <$> seqZ 0 (Z.of_nat N) = (fun j => f (Z.of_nat j)) <$> seq 0 N.
Proof.
  induction N as [|N IH]; [done|].
  rewrite seqZ_S, seq_S, !fmap_app, IH. done.
Qed.

Section store_trace.
Context {C : Type} `{AmpC : Amplitude C}.

Implicit Types (v w new : list C) (h : list (list C)).

Lemma tio_mapM_load h (a : ndarray) v (js : list nat) :
  contents h a = Some v -> Forall (fun j => (j < len a)%nat) js ->
  tio_mapM (np_load a) js h =
  (Ok ((fun j => v !!! j) <$> js), h,
   (fun j => Load (buf a) (elem_pos a j)) <$> js).
Proof.
  intros Hv Hjs. apply contents_Some in Hv as (b & Hb & Hlen & Hget).
  induction Hjs as [|j js Hj _ IH]; [done|].
  cbn [tio_mapM]. unfold tio_bind at 1.
  assert (np_load a j h = (Ok (v !!! j), h, [Load (buf a) (elem_pos a j)]))
    as ->.
  { unfold np_load. rewrite Hb. simpl. rewrite (Hget j Hj).
    destruct (lookup_lt_is_Some_2 v j) as [x Hx]; [lia|].
    by rewrite Hx, (list_lookup_total_correct _ _ _ Hx). }
  unfold tio_bind at 1. rewrite IH. unfold tio_ret. simpl.
  by rewrite app_nil_r.
Qed.

Lemma np_take_traced_run h (a : ndarray) v (idx : list Z) :
  contents h a = Some v ->
  Forall (fun i => 0 <= i < Z.of_nat (len a)) idx ->
  np_take_traced a idx h =
  (Ok ((fun i => v !!! Z.to_nat i) <$> idx), h,
   (fun i => Load (buf a) (elem_pos a (Z.to_nat i))) <$> idx).
Proof.
  intros Hv Hidx. unfold np_take_traced, tio_bind, tio_lift, io_lift.
  rewrite (res_mapM_Ok _ Z.to_nat idx)
    by (eapply Forall_impl; [exact Hidx|];
        intros i Hi; by apply py_index_inrange).
  rewrite (tio_mapM_load h a v) by
    (first [done|apply Forall_fmap; eapply Forall_impl; [exact Hidx|];
            intros i Hi; simpl in *; lia]).
  by rewrite <- !list_fmap_compose.
Qed.

Lemma np_store_traced_fresh h (b : list C) (n j : nat) (x : C) :
  n = length b -> (j < n)%nat ->
  np_store_traced (mkndarray (length h) 0 1 n) j x (h ++ [b]) =
  (Ok tt, h ++ [<[j := x]> b], [Store (length h) (Z.of_nat j)]).
Proof.
  intros Hn Hj. unfold np_store_traced. rewrite np_store_fresh by done.
  unfold elem_pos. simpl. do 3 f_equal. lia.
Qed.

Lemma tio_for_store_fresh h (n : nat) (jxs : list (nat * C)) : forall b,
  n = length b -> Forall (fun jx => (jx.1 < n)%nat) jxs ->
  tio_for jxs (fun jx => np_store_traced (mkndarray (length h) 0 1 n) jx.1 jx.2)
          (h ++ [b]) =
  (Ok tt, h ++ [scatter b jxs],
   (fun jx => Store (length h) (Z.of_nat jx.1)) <$> jxs).
Proof.
  induction jxs as [|jx jxs IH]; intros b Hn Hjxs; [done|].
  apply Forall_cons in Hjxs as [Hj Hjxs].
  cbn [tio_for]. unfold tio_bind.
  rewrite np_store_traced_fresh by done.
  rewrite IH; [done| |done]. by rewrite length_insert.
Qed.

Lemma np_put_traced_fresh h (b : list C) (n : nat) (idx : list Z) vals :
  n = length b -> Forall (fun i => 0 <= i < Z.of_nat n) idx ->
  length vals = length idx ->
  np_put_traced (mkndarray (length h) 0 1 n) idx vals (h ++ [b]) =
  (Ok tt, h ++ [scatter b (zip (Z.to_nat <$> idx) vals)],
   (fun i => Store (length h) i) <$> idx).
Proof.
  intros Hn Hidx Hl. unfold np_put_traced, tio_bind, tio_lift, io_lift.
  cbn [len].
  rewrite (res_mapM_Ok _ Z.to_nat idx)
    by (eapply Forall_impl; [exact Hidx|];
        intros i Hi; by apply py_index_inrange).
  unfold broadcast. rewrite decide_True by done.
  rewrite tio_for_store_fresh; [|done|].
  - simpl. do 2 f_equal.
    change ((fun jx : nat * C => Store (length h) (Z.of_nat jx.1)) <$>
              zip (Z.to_nat <$> idx) vals)
      with (((fun j => Store (length h) (Z.of_nat j)) ∘ fst) <$>
              zip (Z.to_nat <$> idx) vals).
    rewrite list_fmap_compose, fst_zip by (rewrite length_fmap; lia).
    rewrite <- list_fmap_compose. apply Forall_fmap_ext_1.
    eapply Forall_impl; [exact Hidx|]. intros i Hi. simpl in *.
    f_equal. lia.
  - apply (Forall_zip_fst (fun j => (j < n)%nat)), Forall_fmap.
    eapply Forall_impl; [exact Hidx|]. intros i Hi. simpl in *. lia.
Qed.

End store_trace.

Section lazy_trace.
Context {C : Type} `{AmpC : Amplitude C}.

Variable U : list (list C).
Variable P : list Z.
Variable n : nat.
Variable tbl : list Z.
Variable v : list C.
Variable qreg : QReg.
Variable h : list (list C).

Local Abbreviation Mz := (2 ^ length P)%nat.
Local Abbreviation N := (2 ^ n)%nat.
Local Abbreviation G := (2 ^ (n - length P))%nat.
Local Abbreviation gate :=
  (mkLazyGate n U Mz N tbl P (filter (fun x => x ∉ P) (seqZ 0 (Z.of_nat n)))).
Local Abbreviation block k := (take Mz (drop (k * Mz) tbl)).
Local Abbreviation out := (mkndarray (length h) 0 1 N).
Local Abbreviation block_log k :=
  (((fun b => Load (buf (state qreg)) (elem_pos (state qreg) (Z.to_nat b)))
      <$> block k) ++
   ((fun b => Store (length h) b) <$> block k)).

Hypothesis N_split : N = (G * Mz)%nat.
Hypothesis U_square : square (length P) U.
Hypothesis v_length : length v = N.
Hypothesis bases_perm : tbl ≡ₚ seqZ 0 (Z.of_nat N).
Hypothesis qreg_state : reg_state h qreg = Some v.

Lemma traced_block_run (new : list C) (k : nat) :
  (k < G)%nat -> length new = N ->
  exists new',
    lazy_block gate v new (k * Mz) = Ok new' /\ length new' = N /\
    LazyGate_apply_body_traced gate qreg out (k * Mz) (h ++ [new]) =
    (Ok tt, h ++ [new'], block_log k).
Proof.
  intros Hk Hnew.
  pose proof (lazy_block_run U P n tbl v N_split U_square v_length bases_perm
                new k Hk Hnew) as Hpure.
  eexists. split; [exact Hpure|]. split.
  { rewrite scatter_length. done. }
  assert (length (block k) = Mz) as Hblk
    by (by apply (block_length P n tbl v)).
  assert (Forall (fun b => 0 <= b < Z.of_nat N) (block k)) as Hrange.
  { apply Forall_forall. intros b Hb.
    assert (b ∈ tbl) as Hbt
      by (by apply subseteq_take, subseteq_drop in Hb).
    rewrite bases_perm in Hbt. apply elem_of_seqZ in Hbt. lia. }
  assert (len (state qreg) = N) as Hlen.
  { unfold reg_state in qreg_state.
    apply contents_Some in qreg_state as (b & _ & Hl & _). lia. }
  unfold LazyGate_apply_body_traced. cbn [bases msize lmatrix].
  rewrite py_slice_block. unfold tio_bind at 1.
  rewrite (np_take_traced_run (h ++ [new]) (state qreg) v)
    by (first [by apply contents_alloc|by rewrite Hlen]).
  unfold tio_bind at 1, tio_lift, io_lift.
  destruct (dot_square (length P) U
              ((fun i => v !!! Z.to_nat i) <$> block k) U_square) as [-> Hw];
    [by rewrite length_fmap|].
  rewrite np_put_traced_fresh by (first [done|by rewrite Hw]).
  done.
Qed.

Lemma traced_blocks_run (cnt : nat) : forall (k0 : nat) (new : list C),
  length new = N -> (k0 + cnt <= G)%nat ->
  exists new',
    res_foldM (lazy_block gate v) new
      ((fun k => k * Mz)%nat <$> seq k0 cnt) = Ok new' /\
    length new' = N /\
    tio_for ((fun k => k * Mz)%nat <$> seq k0 cnt)
            (LazyGate_apply_body_traced gate qreg out) (h ++ [new]) =
    (Ok tt, h ++ [new'], mjoin ((fun k => block_log k) <$> seq k0 cnt)).
Proof.
  induction cnt as [|cnt IH]; intros k0 new Hnew Hk.
  - exists new. done.
  - destruct (traced_block_run new k0) as (new1 & Hp1 & Hl1 & Ht1);
      [lia|done|].
    destruct (IH (S k0) new1 Hl1) as (new2 & Hp2 & Hl2 & Ht2); [lia|].
    exists new2. cbn [seq fmap list_fmap res_foldM tio_for].
    rewrite Hp1, res_bind_Ok_l. split; [exact Hp2|]. split; [done|].
    unfold tio_bind. rewrite Ht1, Ht2. done.
Qed.

Lemma traced_log_loaded (cnt : nat) : forall k0,
  loaded (mjoin ((fun k => block_log k) <$> seq k0 cnt)) =
  (fun b => (buf (state qreg), elem_pos (state qreg) (Z.to_nat b))) <$>
    mjoin ((fun k => block k) <$> seq k0 cnt).
Proof.
  induction cnt as [|cnt IH]; intros k0; [done|].
  cbn [seq fmap list_fmap mjoin list_join].
  rewrite !loaded_app, IH, fmap_app. f_equal.
  rewrite (loaded_loads
             (fun b => (buf (state qreg), elem_pos (state qreg) (Z.to_nat b)))).
  rewrite (loaded_stores (fun b => (length h, b))). by rewrite app_nil_r.
Qed.

Lemma traced_log_stored (cnt : nat) : forall k0,
  stored (mjoin ((fun k => block_log k) <$> seq k0 cnt)) =
  (fun b => (length h, b)) <$> mjoin ((fun k => block k) <$> seq k0 cnt).
Proof.
  induction cnt as [|cnt IH]; intros k0; [done|].
  cbn [seq fmap list_fmap mjoin list_join].
  rewrite !stored_app, IH, fmap_app. f_equal.
  rewrite (stored_loads
             (fun b => (buf (state qreg), elem_pos (state qreg) (Z.to_nat b)))).
  by rewrite (stored_stores (fun b => (length h, b))).
Qed.

(** the recorded run of [LazyGate.apply]: it returns what the run returns,
    loads the input cells of the table entries in table order and stores the
    output cells of the table entries in table order *)
Lemma LazyGate_apply_traced_run :
  exists w log,
    LazyGate_apply_traced gate qreg h =
      (Ok (mkQReg (nbits qreg) out), h ++ [w], log) /\
    LazyGate_apply gate qreg h = (Ok (mkQReg (nbits qreg) out), h ++ [w]) /\
    length w = N /\
    loaded log =
      (fun b => (buf (state qreg), elem_pos (state qreg) (Z.to_nat b)))
        <$> tbl /\
    stored log = (fun b => (length h, b)) <$> tbl.
Proof.
  assert (py_range N Mz = (fun k => k * Mz)%nat <$> seq 0 G) as Hblocks
    by (rewrite <- py_range_blocks by apply pow2_pos; by rewrite <- N_split).
  destruct (traced_blocks_run G 0 (np_zeros (length v)))
    as (w & Hpure & Hlw & Htr); [by rewrite np_zeros_length|done|].
  assert (mjoin ((fun k => block k) <$> seq 0 G) = tbl) as Htile.
  { rewrite (blocks_tile tbl Mz G 0); [done|].
    rewrite Nat.mul_0_l, drop_0, bases_perm, length_seqZ, Nat2Z.id. lia. }
  exists w, (mjoin ((fun k => block_log k) <$> seq 0 G)).
  split; [|split; [|split; [done|split]]].
  - unfold LazyGate_apply_traced. cbn [qsize msize].
    unfold tio_bind at 1, tio_lift at 1, np_read.
    unfold reg_state in qreg_state. rewrite qreg_state.
    unfold tio_bind at 1, tio_lift at 1, np_array.
    rewrite np_zeros_length, v_length.
    unfold tio_bind at 1. rewrite Hblocks.
    rewrite v_length in Htr. rewrite Htr. unfold tio_ret. simpl.
    by rewrite app_nil_r.
  - destruct (LazyGate_apply_run gate qreg h v qreg_state)
      as (b & _ & Hrun & Hb).
    assert (LazyGate_new_state gate v = Ok w) as Hnew.
    { unfold LazyGate_new_state. cbn [qsize msize]. by rewrite Hblocks. }
    rewrite Hnew in Hrun. rewrite (Hb w Hnew) in Hrun.
    by rewrite v_length in Hrun.
  - by rewrite traced_log_loaded, Htile.
  - by rewrite traced_log_stored, Htile.
Qed.

End lazy_trace.

Section lazy_claims.
Context {C : Type} `{AmpC : Amplitude C}.
Variable argsort : list Z -> list Z.
Hypothesis argsort_ok : argsort_spec argsort.

(** C1.  For a [2^m x 2^m] matrix [U] and [m] distinct target positions
    [P] inside an [n]-qubit register, the lazy gate built from
    [(U, P, n)] and the dense gate whose matrix tensors [U] with
    identities at the other positions give the same new state on every
    [n]-qubit register, basis states included.  Exact arithmetic stands
    for numpy's floating point. *)
Theorem LazyGate_matches_dense (U : list (list C)) (P : list Z) (n : nat) :
  NoDup P -> Forall (fun q => 0 <= q < Z.of_nat n) P ->
  square (length P) U ->
  exists (lazy : LazyGate) (dense : MGate),
    LazyGate_init argsort U P n = Ok lazy /\
    MGate_init (dense_embedding U P n) n = Ok dense /\
    forall (h : list (list C)) (qreg : QReg) (v : list C),
      is_register h qreg n v ->
      exists r1 h1 r2 h2 w,
        LazyGate_apply lazy qreg h = (Ok r1, h1) /\
        MGate_apply dense qreg h = (Ok r2, h2) /\
        is_register h1 r1 n w /\ is_register h2 r2 n w.
Proof.
  intros Hnd Hrange HU.
  destruct (LazyGate_init_table argsort argsort_ok P n Hnd Hrange U)
    as (tbl & Hinit & Hperm & Hkeys).
  pose proof (N_blocks P n Hnd Hrange) as HN.
  assert (square n (dense_embedding U P n)) as Hsq.
  { unfold dense_embedding. rewrite pow2_of_nat. split.
    - by rewrite length_fmap, length_seqZ, Nat2Z.id.
    - apply Forall_fmap, Forall_forall. intros r _. simpl.
      by rewrite length_fmap, length_seqZ, Nat2Z.id. }
  eexists _, (mkMGate (dense_embedding U P n) n).
  split; [exact Hinit|]. split; [by apply MGate_init_square|].
  intros h qreg v Hreg. pose proof Hreg as (Hn & Hv & Hlen).
  destruct (LazyGate_new_state_dense U P n tbl v HN HU Hlen Hperm Hkeys)
    as (w & Hlazy & Hdense & Hwlen).
  destruct (LazyGate_apply_run
              (mkLazyGate n U (2 ^ length P) (2 ^ n) tbl P
                 (filter (fun x => x ∉ P) (seqZ 0 (Z.of_nat n))))
              qreg h v Hv) as (b & _ & Hrun & Hb).
  rewrite Hlazy in Hrun. rewrite (Hb w Hlazy) in Hrun.
  destruct (MGate_apply_dense (mkMGate (dense_embedding U P n) n) qreg n h v
              ltac:(done) Hreg) as (r2 & h2 & Hrun2 & Hreg2 & _).
  eexists _, _, r2, h2, w. split; [exact Hrun|]. split; [exact Hrun2|].
  split.
  - split; [done|]. split; [|done]. unfold reg_state. simpl.
    rewrite Hlen, <- Hwlen. apply contents_np_array.
  - destruct (dot_square n _ v Hsq Hlen) as [Hd _].
    rewrite Hd in Hdense. injection Hdense as <-. exact Hreg2.
Qed.

(** C5, as the code has it.  [LazyGate.__init__] checks none of its
    arguments.  Whatever the matrix and the register size, it succeeds
    when no target position is negative (positions may repeat, lie beyond
    the register or outnumber its qubits), and it fails, with the
    ValueError of a negative shift count, when one is. *)
Theorem LazyGate_init_unchecked (U : list (list C)) (P : list Z) (n : nat) :
  (Forall (fun q => 0 <= q < 63) P ->
   exists g : LazyGate,
     LazyGate_init argsort U P n = Ok g /\
     lmatrix g = U /\ qbpos g = P /\ lqreg_size g = n) /\
  (Exists (fun q => q < 0) P ->
   LazyGate_init argsort U P n = Raise ValueError).
Proof.
  split.
  - intros HP.
    destruct (LazyGate_init_Permutation argsort argsort_ok U P n)
      as (tbl & Hinit & _).
    { eapply Forall_impl; [exact HP|]. simpl. lia. }
    eexists. split; [exact Hinit|]. done.
  - by apply LazyGate_init_negative.
Qed.


End lazy_claims.

(** ** The statements at concrete gates *)

(** the dense embedding is the Kronecker product with identities where the
    positions are adjacent: qubit 1 of 3, qubits 2 and 1, qubits 1 and 0 *)
Example dense_embedding_middle_qubit :
  dense_embedding U1_Z [1] 3 = kron (kron eye2_Z U1_Z) eye2_Z.
Proof. vm_compute. reflexivity. Qed.

Example dense_embedding_high_pair :
  dense_embedding U2_Z [2; 1] 3 = kron U2_Z eye2_Z.
Proof. vm_compute. reflexivity. Qed.

Example dense_embedding_low_pair :
  dense_embedding U2_Z [1; 0] 3 = kron eye2_Z U2_Z.
Proof. vm_compute. reflexivity. Qed.

(** position 0 is the least significant bit of the basis index: the last
    factor of the Kronecker product *)
Example dense_embedding_low_qubit :
  dense_embedding U1_Z [0] 3 = kron eye2_Z (kron eye2_Z U1_Z).
Proof. vm_compute. reflexivity. Qed.

(** the first target position is the most significant bit of the local
    index: swapping the positions swaps the roles of the two qubits *)
Example dense_embedding_swapped_pair :
  dense_embedding U2_Z [0; 1] 2 <> dense_embedding U2_Z [1; 0] 2 /\
  dense_embedding U2_Z [1; 0] 2 = U2_Z.
Proof. split; [discriminate|vm_compute; reflexivity]. Qed.

Example LazyGate_init_middle_qubit :
  LazyGate_init msort_argsort U1_Z [1] 3 =
  Ok (mkLazyGate 3 U1_Z 2 8 [0; 2; 1; 3; 4; 6; 5; 7] [1] [0; 2]).
Proof. vm_compute. reflexivity. Qed.

Lemma dense_NOT_Z : dense_gate NOT_Z 1.
Proof. split; [reflexivity|]. split; [reflexivity|repeat constructor]. Qed.

Lemma dense_CNOT_Z : dense_gate CNOT_Z 2.
Proof. split; [reflexivity|]. split; [reflexivity|repeat constructor]. Qed.

Lemma dense_SWAP_Z : dense_gate SWAP_Z 2.
Proof. split; [reflexivity|]. split; [reflexivity|repeat constructor]. Qed.

(** a register holding [v] in a one-buffer store *)
Lemma is_register_single (n : nat) (v : list Z) :
  length v = (2 ^ n)%nat ->
  is_register [v] (mkQReg n (mkndarray 0 0 1 (length v))) n v.
Proof.
  intros Hlen. split; [done|]. split; [|done].
  apply (contents_np_array (C:=Z) [] v).
Qed.

Lemma MGate_add_is_matrix_product_witness :
  dense_gate CNOT_Z 2 /\ dense_gate SWAP_Z 2 /\
  exists AB : MGate,
    MGate_add CNOT_Z SWAP_Z = Ok AB /\ dense_gate AB 2 /\
    matmul (matrix CNOT_Z) (matrix SWAP_Z) = Ok (matrix AB) /\
    forall (h : list (list Z)) (qreg : QReg) (v : list Z),
      is_register h qreg 2 v ->
      exists r1 h1 r2 h2 r3 h3 w,
        MGate_apply SWAP_Z qreg h = (Ok r1, h1) /\
        MGate_apply CNOT_Z r1 h1 = (Ok r2, h2) /\
        MGate_apply AB qreg h = (Ok r3, h3) /\
        is_register h2 r2 2 w /\ is_register h3 r3 2 w.
Proof.
  split; [exact dense_CNOT_Z|]. split; [exact dense_SWAP_Z|].
  exact (MGate_add_is_matrix_product CNOT_Z SWAP_Z 2 dense_CNOT_Z dense_SWAP_Z).
Defined.

(** C2 as the specification has it fails: [CNOT + SWAP] has the matrix
    [CNOT · SWAP], not [SWAP · CNOT], and on |01> it gives |11> where
    [SWAP.apply(CNOT.apply(R))] gives |10>. *)
Lemma MGate_add_order_counterexample :
  exists (AB : MGate) (BA : list (list Z)) r1 h1 r2 h2 r3 h3,
    CNOT = Ok CNOT_Z /\ SWAP = Ok SWAP_Z /\
    MGate_add CNOT_Z SWAP_Z = Ok AB /\
    matmul (matrix SWAP_Z) (matrix CNOT_Z) = Ok BA /\
    matrix AB <> BA /\
    is_register [[0; 1; 0; 0]] (mkQReg 2 (mkndarray 0 0 1 4)) 2 [0; 1; 0; 0] /\
    MGate_apply CNOT_Z (mkQReg 2 (mkndarray 0 0 1 4)) [[0; 1; 0; 0]]
      = (Ok r1, h1) /\
    MGate_apply SWAP_Z r1 h1 = (Ok r2, h2) /\
    MGate_apply AB (mkQReg 2 (mkndarray 0 0 1 4)) [[0; 1; 0; 0]]
      = (Ok r3, h3) /\
    reg_state h2 r2 = Some [0; 0; 1; 0] /\
    reg_state h3 r3 = Some [0; 0; 0; 1].
Proof.
  do 8 eexists.
  split; [reflexivity|]. split; [reflexivity|].
  split; [vm_compute; reflexivity|]. split; [vm_compute; reflexivity|].
  split; [discriminate|].
  split; [exact (is_register_single 2 [0; 1; 0; 0] eq_refl)|].
  split; [vm_compute; reflexivity|]. split; [vm_compute; reflexivity|].
  split; [vm_compute; reflexivity|]. split; vm_compute; reflexivity.
Qed.

Lemma MGate_pow_is_kron_power_witness :
  dense_gate NOT_Z 1 /\ 1 <= 3 /\ 3 <= Z.of_nat 10 /\
  (3 = 1 -> MGate_pow 10 NOT_Z 3 = Ok NOT_Z) /\
  (exists g : MGate,
     MGate_pow 10 NOT_Z 3 = Ok g /\ dense_gate g (1 * Z.to_nat 3) /\
     matrix g = kron_power (matrix NOT_Z) (Z.to_nat (3 - 1))) /\
  (3 = 3 ->
   MGate_pow 10 NOT_Z 3 =
   Ok (mkMGate (kron (matrix NOT_Z) (kron (matrix NOT_Z) (matrix NOT_Z)))
         (1 * 3))).
Proof.
  split; [exact dense_NOT_Z|]. split; [lia|]. split; [lia|].
  apply (MGate_pow_is_kron_power NOT_Z 1 3 10 dense_NOT_Z); lia.
Defined.

(** C3 as the specification has it fails: [NOT ** 3] is a gate over 3
    qubits, not [NOT] composed with itself by [+] (a gate over 1 qubit),
    and it cannot be applied to a 1-qubit register at all. *)
Lemma MGate_pow_sequential_counterexample :
  exists (P3 S3 : MGate) r1 h1 r2 h2 r3 h3,
    NOT = Ok NOT_Z /\
    MGate_pow 10 NOT_Z 3 = Ok P3 /\
    spec_sequential_power NOT_Z 2 = Ok S3 /\
    P3 <> S3 /\ qreg_size P3 = 3%nat /\ qreg_size S3 = 1%nat /\
    is_register [[1; 0]] (mkQReg 1 (mkndarray 0 0 1 2)) 1 [1; 0] /\
    MGate_apply P3 (mkQReg 1 (mkndarray 0 0 1 2)) [[1; 0]]
      = (Raise ShapeError, [[1; 0]]) /\
    MGate_apply NOT_Z (mkQReg 1 (mkndarray 0 0 1 2)) [[1; 0]] = (Ok r1, h1) /\
    MGate_apply NOT_Z r1 h1 = (Ok r2, h2) /\
    MGate_apply NOT_Z r2 h2 = (Ok r3, h3) /\
    reg_state h3 r3 = Some [0; 1].
Proof.
  do 8 eexists.
  split; [reflexivity|].
  split; [vm_compute; reflexivity|]. split; [vm_compute; reflexivity|].
  split; [discriminate|]. split; [reflexivity|]. split; [reflexivity|].
  split; [exact (is_register_single 1 [1; 0] eq_refl)|].
  split; [vm_compute; reflexivity|].
  split; [vm_compute; reflexivity|]. split; [vm_compute; reflexivity|].
  split; vm_compute; reflexivity.
Qed.

Lemma construct_unitary_F_oracle_witness :
  Forall (fun s => String.length s = 2%nat) ["00"; "10"]%string /\
  exists g : MGate (C:=Z),
    construct_unitary_F ["00"; "10"]%string None = Ok g /\
    dense_gate g 3 /\
    dot (matrix g) (basis_vec 8 0) = Ok (basis_vec 8 1) /\
    dot (matrix g) (basis_vec 8 1) = Ok (basis_vec 8 0) /\
    dot (matrix g) (basis_vec 8 2) = Ok (basis_vec 8 2) /\
    dot (matrix g) (basis_vec 8 3) = Ok (basis_vec 8 3).
Proof.
  assert (Forall (fun s => String.length s = 2%nat) ["00"; "10"]%string)
    as Hlen by (repeat constructor).
  split; [exact Hlen|].
  destruct (construct_unitary_F_oracle (C:=Z) ["00"; "10"]%string None 2 Hlen)
    as (g & Hg & Hdense & Hact); [left; split; [reflexivity|discriminate]|].
  exists g. split; [exact Hg|]. split; [exact Hdense|].
  split; [exact (proj1 (Hact 0%nat 0%nat ltac:(simpl; lia) ltac:(lia)))|].
  split; [exact (proj1 (Hact 0%nat 1%nat ltac:(simpl; lia) ltac:(lia)))|].
  split; [exact (proj1 (Hact 1%nat 0%nat ltac:(simpl; lia) ltac:(lia)))|].
  exact (proj1 (Hact 1%nat 1%nat ltac:(simpl; lia) ltac:(lia))).
Defined.

Lemma MGate_apply_size_mismatch_witness :
  dense_gate CNOT_Z 2 /\
  is_register [[1; 0]] (mkQReg 1 (mkndarray 0 0 1 2)) 1 [1; 0] /\
  (1%nat <> 2%nat ->
   MGate_apply CNOT_Z (mkQReg 1 (mkndarray 0 0 1 2)) [[1; 0]]
   = (Raise ShapeError, [[1; 0]])).
Proof.
  split; [exact dense_CNOT_Z|].
  split; [exact (is_register_single 1 [1; 0] eq_refl)|].
  exact (proj1 (MGate_apply_size_mismatch CNOT_Z 2 1 [[1; 0]]
                  (mkQReg 1 (mkndarray 0 0 1 2)) [1; 0] dense_CNOT_Z
                  (is_register_single 1 [1; 0] eq_refl))).
Defined.

Lemma MGate_mul_is_kron_witness :
  dense_gate NOT_Z 1 /\ dense_gate CNOT_Z 2 /\
  exists g : MGate,
    MGate_mul NOT_Z CNOT_Z = Ok g /\ dense_gate g (1 + 2) /\
    qreg_size g = (1 + 2)%nat /\
    matrix g = kron (matrix NOT_Z) (matrix CNOT_Z) /\
    forall i j k l a b,
      entry (matrix NOT_Z) i j = Some a -> entry (matrix CNOT_Z) k l = Some b ->
      entry (matrix g) (i * 2 ^ 2 + k) (j * 2 ^ 2 + l) = Some (amul a b).
Proof.
  split; [exact dense_NOT_Z|]. split; [exact dense_CNOT_Z|].
  exact (MGate_mul_is_kron NOT_Z CNOT_Z 1 2 dense_NOT_Z dense_CNOT_Z).
Defined.

Lemma apply_leaves_input_unchanged_example :
  reg_state [[1; 0]] (mkQReg 1 (mkndarray 0 0 1 2)) = Some [1; 0] /\
  LazyNOT_dot (mkndarray 0 0 1 2) [[1; 0]]
    = (Ok (np_reversed (mkndarray 0 0 1 2)), [[1; 0]]) /\
  buf (np_reversed (mkndarray 0 0 1 2)) = buf (mkndarray 0 0 1 2).
Proof.
  split; [reflexivity|].
  exact (proj2 (proj2 (proj2
    (apply_leaves_input_unchanged (C:=Z) [[1; 0]]
       (mkQReg 1 (mkndarray 0 0 1 2)) [1; 0] eq_refl)))).
Defined.

(** C8 asks every apply operation for a newly allocated result that does
    not alias the input.  [LazyNOT.dot] breaks it, where [LazyCNOT.dot]
    copies: on the state [1, 0] it returns an array in the input's own
    buffer, and a write through the result shows in the input. *)
Theorem LazyNOT_dot_aliases_input :
  exists a' h',
    contents [[1; 0]] (mkndarray 0 0 1 2) = Some [1; 0] /\
    LazyNOT_dot (mkndarray 0 0 1 2) [[1; 0]] = (Ok a', [[1; 0]]) /\
    buf a' = buf (mkndarray 0 0 1 2) /\
    [[1; 0]] !! buf a' <> None /\
    np_setitem a' 0 5 [[1; 0]] = (Ok tt, h') /\
    contents h' (mkndarray 0 0 1 2) = Some [1; 5].
Proof.
  do 2 eexists. split; [reflexivity|]. split; [reflexivity|].
  split; [reflexivity|]. split; [discriminate|].
  split; vm_compute; reflexivity.
Qed.

Lemma LazyNOT_dot_twice_witness :
  contents [[1; 2; 3]] (mkndarray 0 0 1 3) = Some [1; 2; 3] /\
  exists a1 a2,
    LazyNOT_dot (mkndarray 0 0 1 3) [[1; 2; 3]] = (Ok a1, [[1; 2; 3]]) /\
    LazyNOT_dot a1 [[1; 2; 3]] = (Ok a2, [[1; 2; 3]]) /\
    contents [[1; 2; 3]] a1 = Some (reverse [1; 2; 3]) /\
    contents [[1; 2; 3]] a2 = Some [1; 2; 3].
Proof.
  split; [reflexivity|].
  exact (LazyNOT_dot_twice (C:=Z) [[1; 2; 3]] (mkndarray 0 0 1 3) [1; 2; 3]
           eq_refl).
Defined.

Lemma LazyGate_matches_dense_witness :
  argsort_spec msort_argsort /\ NoDup [1] /\
  Forall (fun q => 0 <= q < Z.of_nat 3) [1] /\ square 1 U1_Z /\
  exists (lazy : LazyGate) (dense : MGate),
    LazyGate_init msort_argsort U1_Z [1] 3 = Ok lazy /\
    MGate_init (dense_embedding U1_Z [1] 3) 3 = Ok dense /\
    forall (h : list (list Z)) (qreg : QReg) (v : list Z),
      is_register h qreg 3 v ->
      exists r1 h1 r2 h2 w,
        LazyGate_apply lazy qreg h = (Ok r1, h1) /\
        MGate_apply dense qreg h = (Ok r2, h2) /\
        is_register h1 r1 3 w /\ is_register h2 r2 3 w.
Proof.
  assert (NoDup [1]) as Hnd by apply NoDup_singleton.
  assert (Forall (fun q => 0 <= q < Z.of_nat 3) [1]) as Hr
    by (repeat constructor; simpl; lia).
  assert (square 1 U1_Z) as HU
    by (split; [reflexivity|repeat constructor]).
  split; [exact msort_argsort_spec|]. split; [exact Hnd|].
  split; [exact Hr|]. split; [exact HU|].
  exact (LazyGate_matches_dense msort_argsort msort_argsort_spec
           U1_Z [1] 3 Hnd Hr HU).
Defined.

Lemma LazyGate_init_unchecked_witness :
  argsort_spec msort_argsort /\ Forall (fun q => 0 <= q < 63) [5] /\
  exists g : LazyGate,
    LazyGate_init msort_argsort U1_Z [5] 2 = Ok g /\
    lmatrix g = U1_Z /\ qbpos g = [5] /\ lqreg_size g = 2%nat.
Proof.
  assert (Forall (fun q => 0 <= q < 63) [5]) as Hr
    by (repeat constructor; lia).
  split; [exact msort_argsort_spec|]. split; [exact Hr|].
  exact (proj1 (LazyGate_init_unchecked msort_argsort msort_argsort_spec
                  U1_Z [5] 2) Hr).
Defined.

(** C5 as the specification has it fails: construction succeeds with more
    target positions than qubits, with a position outside the register,
    with a repeated position, and with a matrix of the wrong dimension. *)
Lemma LazyGate_init_accepts_malformed :
  is_Ok (LazyGate_init msort_argsort U2_Z [0; 1] 1) /\
  is_Ok (LazyGate_init msort_argsort U1_Z [5] 2) /\
  is_Ok (LazyGate_init msort_argsort U2_Z [0; 0] 2) /\
  is_Ok (LazyGate_init msort_argsort U2_Z [0] 1).
Proof.
  repeat split; eexists; vm_compute; reflexivity.
Qed.


(** * Further properties of the module

    Laws of the composition operators, the closed-form appliers against
    the dense constants, the oracle builder on arbitrary states, the keys
    and the table of the lazy gate, and [apply] on inputs of the wrong
    size. *)

Section dense_more.
Context {C : Type} `{AmpC : Amplitude C}.
Add Ring amplitude_ring_more : amp_ring.

Implicit Types (x y v w : list C) (A B D M : list (list C)).

Lemma kron_row_cons (a : C) x y :
  kron_row (a :: x) y = (amul a <$> y) ++ kron_row x y.
Proof. done. Qed.

Lemma kron_row_app x1 x2 y :
  kron_row (x1 ++ x2) y = kron_row x1 y ++ kron_row x2 y.
Proof. unfold kron_row. by rewrite fmap_app, join_app. Qed.

Lemma kron_row_scale (a : C) x y :
  kron_row (amul a <$> x) y = amul a <$> kron_row x y.
Proof.
  induction x as [|b x IH]; [done|].
  rewrite fmap_cons, !kron_row_cons, fmap_app, IH. f_equal.
  rewrite <- list_fmap_compose. apply list_fmap_ext. intros _ c _. simpl. ring.
Qed.

Lemma kron_row_assoc x y z :
  kron_row (kron_row x y) z = kron_row x (kron_row y z).
Proof.
  induction x as [|a x IH]; [done|].
  by rewrite !kron_row_cons, kron_row_app, IH, kron_row_scale.
Qed.

Lemma kron_cons (r : list C) A B :
  kron (r :: A) B = ((fun rb => kron_row r rb) <$> B) ++ kron A B.
Proof. done. Qed.

Lemma kron_app A1 A2 B : kron (A1 ++ A2) B = kron A1 B ++ kron A2 B.
Proof. unfold kron. by rewrite fmap_app, join_app. Qed.

Lemma kron_rows_scale (r : list C) A B :
  kron ((fun ra => kron_row r ra) <$> A) B =
  (fun ra => kron_row r ra) <$> kron A B.
Proof.
  induction A as [|ra A IH]; [done|].
  rewrite fmap_cons, !kron_cons, fmap_app, IH. f_equal.
  rewrite <- list_fmap_compose. apply list_fmap_ext. intros _ rb _. simpl.
  apply kron_row_assoc.
Qed.

(** [np.kron] is associative *)
Lemma kron_assoc A B D : kron (kron A B) D = kron A (kron B D).
Proof.
  induction A as [|ra A IH]; [done|].
  by rewrite !kron_cons, kron_app, IH, kron_rows_scale.
Qed.

Lemma kron_power_add A (a b : nat) :
  kron (kron_power A a) (kron_power A b) = kron_power A (S (a + b)).
Proof.
  induction a as [|a IH]; [done|].
  cbn [kron_power Nat.add]. by rewrite kron_assoc, IH.
Qed.

(** X1.  [MGate.__add__] on gates over different numbers of qubits builds
    no gate: [np.matmul] raises on the operand shapes. *)
Theorem MGate_add_size_mismatch (A B : MGate) (k l : nat) :
  dense_gate A k -> dense_gate B l -> k <> l ->
  MGate_add A B = Raise ShapeError.
Proof.
  intros [_ HA] [_ HB] Hkl. unfold MGate_add, matmul.
  rewrite (square_shape1 k), (square_shape0 l) by done.
  rewrite decide_False; [done|]. intros H. apply Hkl.
  by apply Nat.pow_inj_r in H; [|lia].
Qed.

(** X2.  [MGate.__mul__] is associative: [(A * B) * D] and [A * (B * D)]
    have the same qubit count and, within the tolerance of floating-point
    rounding, the same matrix (the same entries in exact arithmetic, as
    here). *)
Theorem MGate_mul_assoc (A B D : MGate) (k1 k2 k3 : nat) :
  dense_gate A k1 -> dense_gate B k2 -> dense_gate D k3 ->
  exists AB BD g : MGate,
    MGate_mul A B = Ok AB /\ MGate_mul B D = Ok BD /\
    MGate_mul AB D = Ok g /\ MGate_mul A BD = Ok g /\
    dense_gate g (k1 + k2 + k3).
Proof.
  intros HA HB HD.
  pose proof (MGate_mul_dense A B k1 k2 HA HB) as HAB.
  pose proof (MGate_mul_dense B D k2 k3 HB HD) as HBD.
  assert (dense_gate (mkMGate (kron (matrix A) (matrix B)) (k1 + k2)) (k1 + k2))
    as dAB.
  { split; [done|]. apply kron_square; [apply HA|apply HB]. }
  assert (dense_gate (mkMGate (kron (matrix B) (matrix D)) (k2 + k3)) (k2 + k3))
    as dBD.
  { split; [done|]. apply kron_square; [apply HB|apply HD]. }
  eexists _, _, _. split; [exact HAB|]. split; [exact HBD|].
  split; [apply (MGate_mul_dense _ D (k1 + k2) k3 dAB HD)|].
  split.
  - rewrite (MGate_mul_dense A _ k1 (k2 + k3) HA dBD). simpl.
    by rewrite kron_assoc, Nat.add_assoc.
  - split; [done|]. simpl. apply kron_square; [apply dAB|apply HD].
Qed.

(** X3.  [MGate.__pow__] has its only base case at [i == 1]: for an
    exponent below 1 the recursion never reaches it and ends in a
    RecursionError, whatever the recursion limit and whatever the gate. *)
Theorem MGate_pow_nonpositive (A : MGate) (i : Z) (depth : nat) :
  i < 1 -> MGate_pow depth A i = Raise RecursionError.
Proof.
  revert i. induction depth as [|depth IH]; intros i Hi; [done|].
  cbn [MGate_pow]. rewrite decide_False by lia.
  by rewrite IH by lia.
Qed.

Lemma MGate_pow_matrix (A : MGate) (k : nat) (d depth : nat) :
  dense_gate A k -> (d < depth)%nat ->
  exists g, MGate_pow depth A (Z.of_nat (S d)) = Ok g /\
    matrix g = kron_power (matrix A) d /\ dense_gate g (k * S d).
Proof.
  intros HA Hd. rewrite (MGate_pow_run A k HA d depth Hd).
  eexists. split; [done|]. destruct d as [|d].
  - split; [done|]. by rewrite Nat.mul_1_r.
  - split; [done|]. split; [done|].
    apply (kron_power_square k (matrix A) (S d)), HA.
Qed.

(** X4.  Powers add up under [*]: when the recursion limit allows [i + j]
    calls, [A ** (i + j)] has the qubit count of [(A ** i) * (A ** j)] and,
    within the tolerance of floating-point rounding, its matrix (the same
    entries in exact arithmetic, as here). *)
Theorem MGate_pow_add (A : MGate) (k : nat) (i j : Z) (depth : nat) :
  dense_gate A k -> 1 <= i -> 1 <= j -> i + j <= Z.of_nat depth ->
  exists gi gj g : MGate,
    MGate_pow depth A i = Ok gi /\ MGate_pow depth A j = Ok gj /\
    MGate_pow depth A (i + j) = Ok g /\ MGate_mul gi gj = Ok g.
Proof.
  intros HA Hi Hj Hd.
  destruct (MGate_pow_matrix A k (Z.to_nat (i - 1)) depth HA ltac:(lia))
    as (gi & Hgi & Mi & Di).
  destruct (MGate_pow_matrix A k (Z.to_nat (j - 1)) depth HA ltac:(lia))
    as (gj & Hgj & Mj & Dj).
  destruct (MGate_pow_matrix A k (Z.to_nat (i + j - 1)) depth HA ltac:(lia))
    as (g & Hg & Mg & Dg).
  replace (Z.of_nat (S (Z.to_nat (i - 1)))) with i in Hgi by lia.
  replace (Z.of_nat (S (Z.to_nat (j - 1)))) with j in Hgj by lia.
  replace (Z.of_nat (S (Z.to_nat (i + j - 1)))) with (i + j) in Hg by lia.
  exists gi, gj, g. do 3 (split; [done|]).
  rewrite (MGate_mul_dense gi gj _ _ Di Dj), Mi, Mj, kron_power_add.
  destruct g as [mg sg]. destruct Dg as [Hs _].
  cbn [matrix qreg_size] in Mg, Hs. subst.
  f_equal. f_equal; [f_equal; lia|].
  rewrite <- Nat.mul_add_distr_l. f_equal. lia.
Qed.

End dense_more.

Section dense_laws.
Context {C : Type} `{AmpC : Amplitude C}.
Add Ring amplitude_ring_laws : amp_ring.

Implicit Types (x y v w : list C) (A B D M : list (list C)).

Lemma dotv_comm x : forall y, dotv x y = dotv y x.
Proof.
  induction x as [|a x IH]; intros [|b y].
  - done.
  - by rewrite dotv_nil_l, dotv_nil_r.
  - by rewrite dotv_nil_l, dotv_nil_r.
  - rewrite !dotv_cons, IH. ring.
Qed.

Lemma dotv_app x1 x2 y1 y2 :
  length x1 = length y1 ->
  dotv (x1 ++ x2) (y1 ++ y2) = aadd (dotv x1 y1) (dotv x2 y2).
Proof.
  intros Hl. unfold dotv. rewrite zip_with_app by done. apply vsum_app.
Qed.

Lemma dotv_scale (a b : C) x : forall y,
  dotv (amul a <$> x) (amul b <$> y) = amul (amul a b) (dotv x y).
Proof.
  induction x as [|c x IH]; intros [|d y].
  - rewrite fmap_nil, !dotv_nil_l. ring.
  - rewrite fmap_nil, !dotv_nil_l. ring.
  - rewrite (fmap_nil (amul b)), !dotv_nil_r. ring.
  - rewrite !fmap_cons, !dotv_cons, IH. ring.
Qed.

Lemma dotv_kron_row x y : forall x' y',
  length y = length y' ->
  dotv (kron_row x y) (kron_row x' y') = amul (dotv x x') (dotv y y').
Proof.
  induction x as [|a x IH]; intros [|a' x'] y' Hl.
  - change (kron_row [] y) with (@nil C). rewrite !dotv_nil_l. ring.
  - change (kron_row [] y) with (@nil C). rewrite !dotv_nil_l. ring.
  - change (kron_row [] y') with (@nil C). rewrite !dotv_nil_r. ring.
  - rewrite !kron_row_cons, dotv_app by (by rewrite !length_fmap).
    rewrite dotv_scale, IH, dotv_cons by done. ring.
Qed.

(** a matrix is determined by its action on vectors *)
Lemma square_ext k M M' :
  square k M -> square k M' ->
  (forall v, length v = (2 ^ k)%nat ->
     (fun r => dotv r v) <$> M = (fun r => dotv r v) <$> M') ->
  M = M'.
Proof.
  intros [HM HMr] [HM' HMr'] Hext.
  apply (list_eq_same_length _ _ (2 ^ k)%nat); [done..|].
  intros i r r' Hi Hr Hr'.
  assert (length r = (2 ^ k)%nat) as Hlr.
  { rewrite Forall_forall in HMr. apply HMr. by eapply list_elem_of_lookup_2. }
  assert (length r' = (2 ^ k)%nat) as Hlr'.
  { rewrite Forall_forall in HMr'. apply HMr'. by eapply list_elem_of_lookup_2. }
  apply (list_eq_same_length _ _ (2 ^ k)%nat); [done..|].
  intros j a b Hj Ha Hb.
  specialize (Hext (basis_vec (2 ^ k) j) (basis_vec_length _ _)).
  apply (f_equal (fun l => l !! i)) in Hext.
  rewrite !list_lookup_fmap, Hr, Hr' in Hext. simpl in Hext.
  injection Hext as Hext.
  rewrite !(dotv_basis _ (2 ^ k)%nat j) in Hext by done.
  rewrite (list_lookup_total_correct _ _ _ Ha) in Hext.
  by rewrite (list_lookup_total_correct _ _ _ Hb) in Hext.
Qed.

Lemma MGate_add_dense (A B : MGate) k :
  dense_gate A k -> dense_gate B k ->
  exists M, matmul (matrix A) (matrix B) = Ok M /\ square k M /\
    MGate_add A B = Ok (mkMGate M k) /\
    forall v, length v = (2 ^ k)%nat ->
      (fun r => dotv r v) <$> M =
      (fun r => dotv r ((fun rb => dotv rb v) <$> matrix B)) <$> matrix A.
Proof.
  intros [<- HA] [Hk HB].
  destruct (matmul_square _ _ _ HA HB) as (M & HM & Hsq & Hact).
  exists M. split; [done|]. split; [done|]. split; [|done].
  unfold MGate_add. rewrite HM, res_bind_Ok_l. by apply MGate_init_square.
Qed.

(** X5.  [MGate.__add__] is associative: [(A + B) + D] and [A + (B + D)]
    have the same qubit count and, within the tolerance of floating-point
    rounding, the same matrix (the same entries in exact arithmetic, as
    here). *)
Theorem MGate_add_assoc (A B D : MGate) (k : nat) :
  dense_gate A k -> dense_gate B k -> dense_gate D k ->
  exists AB BD g : MGate,
    MGate_add A B = Ok AB /\ MGate_add B D = Ok BD /\
    MGate_add AB D = Ok g /\ MGate_add A BD = Ok g.
Proof.
  intros HA HB HD.
  destruct (MGate_add_dense A B k HA HB) as (M1 & _ & S1 & E1 & Act1).
  destruct (MGate_add_dense B D k HB HD) as (M2 & _ & S2 & E2 & Act2).
  assert (dense_gate (mkMGate M1 k) k) as D1 by done.
  assert (dense_gate (mkMGate M2 k) k) as D2 by done.
  destruct (MGate_add_dense _ D k D1 HD) as (M3 & _ & S3 & E3 & Act3).
  destruct (MGate_add_dense A _ k HA D2) as (M4 & _ & S4 & E4 & Act4).
  exists (mkMGate M1 k), (mkMGate M2 k), (mkMGate M3 k).
  do 3 (split; [done|]). rewrite E4. do 2 f_equal.
  apply (square_ext k); [done..|]. intros v Hv.
  rewrite Act4, Act3 by done. cbn [matrix].
  rewrite Act2 by done. rewrite Act1; [done|].
  rewrite length_fmap. apply HD.
Qed.

Lemma column_app (j : nat) A B : column j (A ++ B) = column j A ++ column j B.
Proof. unfold column. apply fmap_app. Qed.

Lemma column_kron (c1 c2 j1 j2 : nat) A B :
  Forall (fun r => length r = c1) A -> Forall (fun r => length r = c2) B ->
  (j1 < c1)%nat -> (j2 < c2)%nat ->
  column (j1 * c2 + j2) (kron A B) = kron_row (column j1 A) (column j2 B).
Proof.
  intros HA HB Hj1 Hj2. induction HA as [|ra A Hra HA IH]; [done|].
  rewrite kron_cons, column_app, IH.
  change (column j1 (ra :: A)) with (ra !!! j1 :: column j1 A).
  rewrite kron_row_cons. f_equal.
  unfold column. rewrite <- !list_fmap_compose.
  apply list_fmap_ext. intros i rb Hrb. simpl.
  assert (length rb = c2) as Hlb.
  { rewrite Forall_forall in HB. apply HB. by eapply list_elem_of_lookup_2. }
  destruct (lookup_lt_is_Some_2 ra j1) as [a Ha]; [lia|].
  destruct (lookup_lt_is_Some_2 rb j2) as [b Hb]; [lia|].
  apply list_lookup_total_correct.
  rewrite (list_lookup_total_correct _ _ _ Ha).
  rewrite (list_lookup_total_correct _ _ _ Hb).
  rewrite <- Hlb. by apply kron_row_lookup.
Qed.

Lemma fmap_seq_blocks {X} (f : nat -> X) (c1 c2 : nat) :
  f <$> seq 0 (c1 * c2) =
  mjoin ((fun j1 => (fun j2 => f (j1 * c2 + j2)%nat) <$> seq 0 c2)
           <$> seq 0 c1).
Proof.
  induction c1 as [|c1 IH]; [done|].
  replace (S c1 * c2)%nat with (c1 * c2 + c2)%nat by lia.
  rewrite seq_app, fmap_app, IH, seq_S, fmap_app, join_app. f_equal.
  simpl. rewrite app_nil_r.
  replace (seq (c1 * c2) c2) with (seq (c1 * c2 + 0) c2) by (by rewrite Nat.add_0_r).
  rewrite <- (fmap_add_seq (c1 * c2) 0 c2).
  by rewrite <- list_fmap_compose.
Qed.

(** one row of [kron(A,B) . kron(A',B')] *)
Lemma matmul_kron_row (c1 c2 : nat) (ra rb : list C) A' B' :
  Forall (fun r => length r = c1) A' -> Forall (fun r => length r = c2) B' ->
  length rb = length B' ->
  (fun j => dotv (kron_row ra rb) (column j (kron A' B'))) <$> seq 0 (c1 * c2)
  = kron_row ((fun j => dotv ra (column j A')) <$> seq 0 c1)
             ((fun j => dotv rb (column j B')) <$> seq 0 c2).
Proof.
  intros HA' HB' Hrb. rewrite fmap_seq_blocks. unfold kron_row at 2.
  f_equal. rewrite <- list_fmap_compose.
  apply list_fmap_ext. intros i1 j1 Hj1. simpl.
  apply lookup_seq in Hj1 as [-> Hj1].
  rewrite <- list_fmap_compose.
  apply list_fmap_ext. intros i2 j2 Hj2. simpl.
  apply lookup_seq in Hj2 as [-> Hj2]. simpl.
  rewrite (column_kron c1 c2) by done.
  apply dotv_kron_row. unfold column. by rewrite length_fmap.
Qed.

(** [kron(A,B) . kron(A',B') = kron(A . A', B . B')] *)
Lemma matmul_kron k1 k2 A B A' B' M1 M2 :
  square k1 A -> square k1 A' -> square k2 B -> square k2 B' ->
  matmul A A' = Ok M1 -> matmul B B' = Ok M2 ->
  matmul (kron A B) (kron A' B') = Ok (kron M1 M2).
Proof.
  intros HA HA' HB HB' HM1 HM2.
  pose proof (kron_square _ _ _ _ HA HB) as HAB.
  pose proof (kron_square _ _ _ _ HA' HB') as HAB'.
  unfold matmul in *.
  rewrite (square_shape1 k1 A), (square_shape0 k1 A') in HM1 by done.
  rewrite (square_shape1 k2 B), (square_shape0 k2 B') in HM2 by done.
  rewrite decide_True in HM1 by done. rewrite decide_True in HM2 by done.
  rewrite (square_shape1 k1 A') in HM1 by done.
  rewrite (square_shape1 k2 B') in HM2 by done.
  injection HM1 as <-. injection HM2 as <-.
  rewrite (square_shape1 (k1 + k2)), (square_shape0 (k1 + k2)) by done.
  rewrite decide_True by done. f_equal.
  rewrite (square_shape1 (k1 + k2)), Nat.pow_add_r by done.
  destruct HA' as [_ HA'r]. destruct HB' as [HB'l HB'r].
  destruct HB as [_ HBr].
  clear HAB HAB' HA. induction A as [|ra A IH]; [done|].
  rewrite fmap_cons, !kron_cons, fmap_app, IH. f_equal.
  rewrite <- !list_fmap_compose. apply list_fmap_ext. intros i rb Hrb. simpl.
  apply (matmul_kron_row _ _ ra rb); [done..|].
  rewrite HB'l. rewrite Forall_forall in HBr. apply HBr.
  by eapply list_elem_of_lookup_2.
Qed.

(** X6.  [+] and [*] interchange: composing two parallel gates with [+]
    gives the parallel gate of the two compositions.  [(A * B) + (A' * B')]
    and [(A + A') * (B + B')] have the same qubit count and, within the
    tolerance of floating-point rounding, the same matrix (the same entries
    in exact arithmetic, as here). *)
Theorem MGate_add_mul_interchange (A A' B B' : MGate) (k1 k2 : nat) :
  dense_gate A k1 -> dense_gate A' k1 ->
  dense_gate B k2 -> dense_gate B' k2 ->
  exists P P' SA SB g : MGate,
    MGate_mul A B = Ok P /\ MGate_mul A' B' = Ok P' /\
    MGate_add A A' = Ok SA /\ MGate_add B B' = Ok SB /\
    MGate_add P P' = Ok g /\ MGate_mul SA SB = Ok g.
Proof.
  intros HA HA' HB HB'.
  destruct (MGate_add_dense A A' k1 HA HA') as (M1 & HM1 & S1 & E1 & _).
  destruct (MGate_add_dense B B' k2 HB HB') as (M2 & HM2 & S2 & E2 & _).
  pose proof (MGate_mul_dense A B k1 k2 HA HB) as EP.
  pose proof (MGate_mul_dense A' B' k1 k2 HA' HB') as EP'.
  eexists _, _, _, _, (mkMGate (kron M1 M2) (k1 + k2)).
  split; [exact EP|]. split; [exact EP'|].
  split; [exact E1|]. split; [exact E2|]. split.
  - unfold MGate_add. cbn [matrix qreg_size].
    rewrite (matmul_kron k1 k2 _ _ _ _ M1 M2);
      [|apply HA|apply HA'|apply HB|apply HB'|done..].
    rewrite res_bind_Ok_l. apply MGate_init_square. by apply kron_square.
  - by apply (MGate_mul_dense (mkMGate M1 k1) (mkMGate M2 k2)).
Qed.

End dense_laws.

Section closed_forms.
Context {C : Type} `{AmpC : Amplitude C}.
Add Ring amplitude_ring_closed : amp_ring.

Implicit Types (x y v w : list C) (A B D K M : list (list C)).

Lemma dotv_scale_l (a : C) x : forall y,
  dotv (amul a <$> x) y = amul a (dotv x y).
Proof.
  induction x as [|c x IH]; intros [|d y].
  - rewrite fmap_nil, !dotv_nil_l. ring.
  - rewrite fmap_nil, !dotv_nil_l. ring.
  - rewrite !dotv_nil_r. ring.
  - rewrite !fmap_cons, !dotv_cons, IH. ring.
Qed.

(** the action of [kron(U, K)] for a one-qubit [U] on the two halves of a
    state *)
Lemma dot_kron2 (a b c d : C) K v1 v2 (n : nat) :
  K <> [] -> Forall (fun r => length r = n) K ->
  length v1 = n -> length v2 = n ->
  dot (kron [[a; b]; [c; d]] K) (v1 ++ v2) =
  Ok (((fun r => aadd (amul a (dotv r v1)) (amul b (dotv r v2))) <$> K) ++
      ((fun r => aadd (amul c (dotv r v1)) (amul d (dotv r v2))) <$> K)).
Proof.
  intros HK HKr Hv1 Hv2.
  assert (forall (p q : C) r, r ∈ K ->
            length (kron_row [p; q] r) = length (v1 ++ v2) /\
            dotv (kron_row [p; q] r) (v1 ++ v2) =
            aadd (amul p (dotv r v1)) (amul q (dotv r v2))) as Hrow.
  { intros p q r Hr. rewrite Forall_forall in HKr. specialize (HKr r Hr).
    rewrite !kron_row_cons. change (kron_row [] r) with (@nil C).
    rewrite app_nil_r. split.
    - rewrite !length_app, !length_fmap. lia.
    - rewrite dotv_app by (rewrite length_fmap; lia).
      by rewrite !dotv_scale_l. }
  rewrite !kron_cons. change (kron [] K) with (@nil (list C)).
  rewrite app_nil_r. unfold dot.
  rewrite decide_True.
  - f_equal. rewrite fmap_app, <- !list_fmap_compose. f_equal.
    + apply list_fmap_ext. intros i r Hr. simpl.
      apply Hrow. by eapply list_elem_of_lookup_2.
    + apply list_fmap_ext. intros i r Hr. simpl.
      apply Hrow. by eapply list_elem_of_lookup_2.
  - destruct K as [|r K]; [done|]. unfold shape1. simpl.
    apply Hrow. left.
Qed.

Lemma kron_power_nonempty A (k d : nat) :
  square k A -> kron_power A d <> [].
Proof.
  intros HA E. pose proof (kron_power_square k A d HA) as [Hl _].
  rewrite E in Hl. simpl in Hl. pose proof (pow2_pos (k * S d)). lia.
Qed.

Lemma split_halves v (N : nat) :
  length v = (2 * N)%nat ->
  exists v1 v2, v = v1 ++ v2 /\ length v1 = N /\ length v2 = N.
Proof.
  intros Hv. exists (take N v), (drop N v).
  rewrite take_drop, length_take, length_drop. split; [done|lia].
Qed.

Lemma dot_Ok_inv M v w : dot M v = Ok w -> (fun r => dotv r v) <$> M = w.
Proof. unfold dot. case_decide; [|done]. by intros [= <-]. Qed.

(** the matrix of [NOT ** (d+1)] reverses the amplitudes *)
Lemma NOT_power_dot (d : nat) : forall v,
  length v = (2 ^ S d)%nat ->
  dot (kron_power [[azero; aone]; [aone; azero]] d) v = Ok (reverse v).
Proof.
  assert (square 1 [[azero; aone]; [aone; azero]]) as Hsq
    by (split; [done|by repeat constructor]).
  induction d as [|d IH]; intros v Hv.
  - destruct v as [|a [|b [|]]]; try done.
    unfold dot, dotv, vsum. simpl.
    change (reverse [a; b]) with [b; a]. f_equal. f_equal; [ring|f_equal; ring].
  - rewrite Nat.pow_succ_r' in Hv.
    destruct (split_halves v _ Hv) as (v1 & v2 & -> & Hv1 & Hv2).
    cbn [kron_power].
    pose proof (kron_power_square 1 _ d Hsq) as [_ Hr].
    rewrite Nat.mul_1_l in Hr.
    rewrite (dot_kron2 _ _ _ _ _ v1 v2 (2 ^ S d)%nat);
      [|by apply (kron_power_nonempty _ 1)|done..].
    rewrite reverse_app. do 2 f_equal.
    + rewrite <- (dot_Ok_inv _ _ _ (IH v2 Hv2)).
      apply list_fmap_ext. intros _ r _. simpl. ring.
    + rewrite <- (dot_Ok_inv _ _ _ (IH v1 Hv1)).
      apply list_fmap_ext. intros _ r _. simpl. ring.
Qed.

(** the matrix of [I ** (d+1)] leaves the amplitudes as they are *)
Lemma I_power_dot (d : nat) : forall v,
  length v = (2 ^ S d)%nat ->
  dot (kron_power (np_eye 2) d) v = Ok v.
Proof.
  assert (square 1 (np_eye (C:=C) 2)) as Hsq
    by (split; [done|by repeat constructor]).
  induction d as [|d IH]; intros v Hv.
  - destruct v as [|a [|b [|]]]; try done.
    unfold dot, dotv, vsum. simpl. f_equal. f_equal; [ring|f_equal; ring].
  - rewrite Nat.pow_succ_r' in Hv.
    destruct (split_halves v _ Hv) as (v1 & v2 & -> & Hv1 & Hv2).
    cbn [kron_power].
    pose proof (kron_power_square 1 _ d Hsq) as [_ Hr].
    rewrite Nat.mul_1_l in Hr.
    change (np_eye 2) with [[aone; azero]; [azero; aone]] at 1.
    rewrite (dot_kron2 _ _ _ _ _ v1 v2 (2 ^ S d)%nat);
      [|by apply (kron_power_nonempty _ 1)|done..].
    do 2 f_equal.
    + etrans; [|exact (dot_Ok_inv _ _ _ (IH v1 Hv1))].
      apply list_fmap_ext. intros _ r _. simpl. ring.
    + etrans; [|exact (dot_Ok_inv _ _ _ (IH v2 Hv2))].
      apply list_fmap_ext. intros _ r _. simpl. ring.
Qed.

Lemma MGate_apply_result (g : MGate) (qreg : QReg) h v w :
  reg_state h qreg = Some v -> dot (matrix g) v = Ok w ->
  exists qreg' h',
    MGate_apply g qreg h = (Ok qreg', h') /\
    nbits qreg' = nbits qreg /\
    reg_state h' qreg' = Some w /\ reg_state h' qreg = Some v.
Proof.
  intros Hv Hw. rewrite (MGate_apply_run g qreg h v Hv), Hw.
  eexists _, _. split; [done|]. split; [done|]. split.
  - apply contents_np_array.
  - by apply contents_alloc.
Qed.

(** X7.  [LazyNOT.dot] is the closed form of the dense gate [NOT ** n]:
    on an [n]-qubit register both give the amplitudes in reverse order. *)
Theorem NOT_pow_is_LazyNOT (n depth : nat) (h : list (list C)) (qreg : QReg)
    (v : list C) :
  (1 <= n <= depth)%nat -> is_register h qreg n v ->
  exists (g1 g : MGate) qreg' h' a w,
    NOT = Ok g1 /\ MGate_pow depth g1 (Z.of_nat n) = Ok g /\
    MGate_apply g qreg h = (Ok qreg', h') /\
    LazyNOT_dot (state qreg) h = (Ok a, h) /\
    reg_state h' qreg' = Some w /\ contents h a = Some w /\ w = reverse v.
Proof.
  intros Hn (Hbits & Hv & Hlen).
  assert (square 1 [[azero; aone]; [aone; azero]]) as Hsq
    by (split; [done|by repeat constructor]).
  set (g1 := mkMGate [[azero; aone]; [aone; azero]] 1).
  assert (dense_gate g1 1) as Hg1 by done.
  destruct (MGate_pow_matrix g1 1 (n - 1) depth Hg1 ltac:(lia))
    as (g & Hg & Mg & Dg).
  replace (Z.of_nat (S (n - 1))) with (Z.of_nat n) in Hg by lia.
  assert (dot (matrix g) v = Ok (reverse v)) as Hdot.
  { rewrite Mg. apply NOT_power_dot.
    by replace (S (n - 1)) with n by lia. }
  destruct (MGate_apply_result g qreg h v _ Hv Hdot)
    as (qreg' & h' & Hrun & _ & Hw & _).
  exists g1, g, qreg', h', (np_reversed (state qreg)), (reverse v).
  split; [by apply MGate_init_square|]. do 3 (split; [done|]).
  split; [done|]. split; [|done]. by apply contents_np_reversed.
Qed.

(** X8.  [I ** n] is an [n]-qubit gate whose [apply] returns a register
    with the amplitudes of its input. *)
Theorem I_pow_is_identity (n depth : nat) (h : list (list C)) (qreg : QReg)
    (v : list C) :
  (1 <= n <= depth)%nat -> is_register h qreg n v ->
  exists (g1 g : MGate) qreg' h',
    I_gate = Ok g1 /\ MGate_pow depth g1 (Z.of_nat n) = Ok g /\
    dense_gate g n /\
    MGate_apply g qreg h = (Ok qreg', h') /\
    is_register h' qreg' n v.
Proof.
  intros Hn (Hbits & Hv & Hlen).
  assert (square 1 (np_eye (C:=C) 2)) as Hsq
    by (split; [done|by repeat constructor]).
  set (g1 := mkMGate (np_eye 2) 1).
  assert (dense_gate g1 1) as Hg1 by done.
  destruct (MGate_pow_matrix g1 1 (n - 1) depth Hg1 ltac:(lia))
    as (g & Hg & Mg & Dg).
  replace (Z.of_nat (S (n - 1))) with (Z.of_nat n) in Hg by lia.
  replace (1 * S (n - 1))%nat with n in Dg by lia.
  assert (dot (matrix g) v = Ok v) as Hdot.
  { rewrite Mg. apply I_power_dot.
    by replace (S (n - 1)) with n by lia. }
  destruct (MGate_apply_result g qreg h v _ Hv Hdot)
    as (qreg' & h' & Hrun & Hb & Hw & _).
  exists g1, g, qreg', h'.
  split; [by apply MGate_init_square|]. do 3 (split; [done|]).
  split; [congruence|done].
Qed.

(** X9.  [LazyCNOT.dot] is the closed form of the dense constants: on four
    amplitudes it returns what the matrix of [CNOT] gives, on eight
    amplitudes what the matrix of [CCNOT] gives. *)
Theorem LazyCNOT_dot_is_CNOT (h : list (list C)) (a : ndarray) (v : list C) :
  contents h a = Some v ->
  (length v = 4%nat ->
   exists g a' h' w,
     CNOT = Ok g /\ LazyCNOT_dot a h = (Ok a', h') /\
     dot (matrix g) v = Ok w /\ contents h' a' = Some w) /\
  (length v = 8%nat ->
   exists g a' h' w,
     CCNOT = Ok g /\ LazyCNOT_dot a h = (Ok a', h') /\
     dot (matrix g) v = Ok w /\ contents h' a' = Some w).
Proof.
  intros Hv. split; intros Hlen.
  - destruct v as [|x0 [|x1 [|x2 [|x3 [|]]]]]; try done.
    eexists _, _, _, _. split; [reflexivity|].
    split; [apply (LazyCNOT_dot_swaps h a [x0; x1] x2 x3 Hv)|].
    split; [|exact (contents_np_array h [x0; x1; x3; x2])].
    unfold dot, dotv, vsum. simpl. repeat f_equal; ring.
  - destruct v as [|x0 [|x1 [|x2 [|x3 [|x4 [|x5 [|x6 [|x7 [|]]]]]]]]];
      try done.
    eexists _, _, _, _. split; [reflexivity|].
    split;
      [apply (LazyCNOT_dot_swaps h a [x0; x1; x2; x3; x4; x5] x6 x7 Hv)|].
    split; [|exact (contents_np_array h [x0; x1; x2; x3; x4; x5; x7; x6])].
    unfold dot, dotv, vsum. simpl. repeat f_equal; ring.
Qed.

Lemma last_two v :
  (2 <= length v)%nat -> exists pre (x y : C), v = pre ++ [x; y].
Proof.
  intros Hl. destruct v as [|y v _] using rev_ind; [simpl in Hl; lia|].
  rewrite length_app in Hl. simpl in Hl.
  destruct v as [|x v _] using rev_ind; [simpl in Hl; lia|].
  exists v, x, y. by rewrite <- app_assoc.
Qed.

(** X10.  [LazyCNOT.dot] applied twice gives back the amplitudes it
    started from, each time in a new buffer, the input buffer unchanged. *)
Theorem LazyCNOT_dot_twice (h : list (list C)) (a : ndarray) (v : list C) :
  contents h a = Some v -> (2 <= length v)%nat ->
  exists a1 h1 a2 h2,
    LazyCNOT_dot a h = (Ok a1, h1) /\ LazyCNOT_dot a1 h1 = (Ok a2, h2) /\
    contents h2 a2 = Some v /\ contents h2 a = Some v /\
    buf a1 <> buf a /\ buf a2 <> buf a /\ buf a2 <> buf a1.
Proof.
  intros Hv Hl. destruct (last_two v Hl) as (pre & x & y & ->).
  pose proof (contents_buf_lt _ _ _ Hv) as Hbuf.
  set (a1 := mkndarray (length h) 0 1 (length (pre ++ [x; y]))).
  set (h1 := h ++ [pre ++ [y; x]]).
  assert (contents h1 a1 = Some (pre ++ [y; x])) as Hv1.
  { unfold a1, h1.
    replace (length (pre ++ [x; y])) with (length (pre ++ [y; x]))
      by (by rewrite !length_app).
    apply contents_np_array. }
  exists a1, h1, (mkndarray (length h1) 0 1 (length (pre ++ [y; x]))),
         (h1 ++ [pre ++ [x; y]]).
  split; [apply (LazyCNOT_dot_swaps h a pre x y Hv)|].
  split; [apply (LazyCNOT_dot_swaps h1 a1 pre y x Hv1)|].
  split.
  { replace (length (pre ++ [y; x])) with (length (pre ++ [x; y]))
      by (by rewrite !length_app).
    apply contents_np_array. }
  split; [by do 2 apply contents_alloc|].
  unfold a1, h1. simpl. rewrite length_app. simpl. lia.
Qed.

(** X11.  [LazyCNOT.dot] on an array with fewer than two elements raises
    IndexError at [new_state[-2]], after the copy was made; the input is
    unchanged. *)
Theorem LazyCNOT_dot_too_short (h : list (list C)) (a : ndarray) (v : list C) :
  contents h a = Some v -> (length v < 2)%nat ->
  exists h',
    LazyCNOT_dot a h = (Raise IndexError, h') /\ contents h' a = Some v.
Proof.
  intros Hv Hl. exists (h ++ [v]). split; [|by apply contents_alloc].
  unfold LazyCNOT_dot.
  unfold mbind at 1, io_bind at 1. rewrite (np_copy_run h a _ Hv).
  unfold mbind at 1, io_bind at 1. rewrite np_getitem_fresh by done.
  unfold py_getitem. by rewrite py_index_too_short by lia.
Qed.

End closed_forms.

Section oracle_more.
Context {C : Type} `{AmpC : Amplitude C}.
Add Ring amplitude_ring_oracle_more : amp_ring.

Implicit Types (v w : list C) (M : list (list C)).

Lemma mat_is_row M N f (r : nat) row :
  mat_is M N f -> M !! r = Some row ->
  row = (fun c => f r c) <$> seq 0 N.
Proof.
  intros (Hl & Hr & He) Hrow.
  assert (r < N)%nat as Hrn by (apply lookup_lt_Some in Hrow; lia).
  apply (list_eq_same_length _ _ N).
  - by rewrite length_fmap, length_seq.
  - rewrite Forall_forall in Hr. apply Hr. by eapply list_elem_of_lookup_2.
  - intros c a b Hc Ha Hb. specialize (He r c Hrn Hc).
    unfold entry in He. rewrite Hrow in He. simpl in He.
    rewrite list_lookup_fmap, lookup_seq_lt in Hb by done. simpl in Hb.
    congruence.
Qed.

Lemma mat_is_unique M M' N f :
  mat_is M N f -> mat_is M' N f -> M = M'.
Proof.
  intros HM HM'. apply (list_eq_same_length _ _ N); [apply HM'|apply HM|].
  intros r row row' Hr Hrow Hrow'.
  rewrite (mat_is_row M N f r row HM Hrow).
  by rewrite (mat_is_row M' N f r row' HM' Hrow').
Qed.

(** a matrix with a single 1 in every row, at column [sel r], gathers *)
Lemma dot_selection M (N : nat) (sel : nat -> nat) v :
  mat_is M N (fun r c => if decide (c = sel r) then aone else azero) ->
  (forall r, (r < N)%nat -> (sel r < N)%nat) ->
  length v = N ->
  dot M v = Ok ((fun r => v !!! sel r) <$> seq 0 N).
Proof.
  intros HM Hsel Hv. unfold dot.
  assert (shape1 M = N) as ->.
  { destruct (decide (N = 0)%nat) as [->|HN].
    - destruct HM as (Hl & _). by destruct M.
    - eapply mat_is_shape1; [|exact HM]. lia. }
  rewrite decide_True by done. f_equal.
  apply (list_eq_same_length _ _ N).
  - by rewrite length_fmap, length_seq.
  - rewrite length_fmap. apply HM.
  - intros r a b Hr Ha Hb.
    rewrite list_lookup_fmap in Ha.
    destruct (M !! r) as [row|] eqn:Hrow; [|done]. simpl in Ha.
    injection Ha as <-.
    rewrite list_lookup_fmap, lookup_seq_lt in Hb by done. simpl in Hb.
    injection Hb as <-.
    rewrite (mat_is_row M N _ r row HM Hrow).
    assert ((fun c => if decide (c = sel r) then aone else azero)
              <$> seq 0 N = basis_vec (C:=C) N (sel r)) as ->.
    { apply (list_eq_same_length _ _ N).
      - apply basis_vec_length.
      - by rewrite length_fmap, length_seq.
      - intros c a b Hc Ha Hb.
        rewrite list_lookup_fmap, lookup_seq_lt in Ha by done. simpl in Ha.
        rewrite basis_vec_lookup in Hb by done. congruence. }
    rewrite dotv_comm. apply dotv_basis; [done|by apply Hsel].
Qed.

Lemma half_double (x b : nat) :
  (b < 2)%nat -> ((2 * x + b) / 2 = x /\ (2 * x + b) mod 2 = b)%nat.
Proof.
  intros Hb. split.
  - rewrite Nat.mul_comm, Nat.div_add_l by done.
    rewrite (Nat.div_small b 2) by done. lia.
  - rewrite Nat.add_comm, Nat.mul_comm, Nat.Div0.mod_add.
    by rewrite Nat.mod_small.
Qed.

Lemma oracle_image_range (fdef : list string) (L c : nat) :
  (c < 2 ^ (L + 1))%nat -> (oracle_image fdef L c < 2 ^ (L + 1))%nat.
Proof.
  intros Hc. unfold oracle_image. case_bool_decide; [|done].
  pose proof (Nat.div_mod_eq c 2) as Hdm.
  pose proof (Nat.mod_upper_bound c 2 ltac:(done)) as Hm.
  rewrite Nat.add_1_r, Nat.pow_succ_r' in *. lia.
Qed.

Lemma oracle_image_involutive (fdef : list string) (L c : nat) :
  oracle_image fdef L (oracle_image fdef L c) = c.
Proof.
  unfold oracle_image at 2. case_bool_decide as Hin.
  - pose proof (Nat.div_mod_eq c 2) as Hdm.
    pose proof (Nat.mod_upper_bound c 2 ltac:(done)) as Hm.
    destruct (half_double (c / 2) (1 - c mod 2) ltac:(lia)) as [Hd Hmm].
    unfold oracle_image. rewrite Hd, Hmm, bool_decide_eq_true_2 by done. lia.
  - unfold oracle_image. by rewrite bool_decide_eq_false_2.
Qed.

(** the loop of [construct_unitary_F] builds the matrix that moves the
    amplitude of column [c] to row [oracle_image c] *)
Lemma oracle_matrix (fdef : list string) (L : nat) :
  exists M,
    res_foldM (oracle_step fdef) (np_zeros2 (2 ^ (L + 1)) (2 ^ (L + 1)))
      (zip (QReg_bases L) (py_range (2 ^ (L + 1)) 2)) = Ok M /\
    mat_is M (2 ^ (L + 1))
      (fun r c => if decide (c = oracle_image fdef L r) then aone else azero).
Proof.
  destruct (oracle_loop_is fdef L (np_zeros2 (2 ^ (L + 1)) (2 ^ (L + 1))))
    with (n := (2 ^ L)%nat) as (M & HM & His); [|done|].
  { eapply mat_is_ext; [|apply mat_is_zeros].
    intros r c _ _. unfold oracle_partial. by rewrite decide_False by lia. }
  exists M. split; [by rewrite oracle_loop_items|].
  eapply mat_is_ext; [|exact His]. intros r c _ Hc. unfold oracle_partial.
  assert (2 ^ (L + 1) = 2 * 2 ^ L)%nat as HN
    by (by rewrite Nat.add_1_r, Nat.pow_succ_r').
  destruct (decide (r = oracle_image fdef L c)) as [->|Hne].
  - rewrite decide_True by (split; [lia|done]).
    by rewrite oracle_image_involutive, decide_True.
  - rewrite decide_False by tauto. rewrite decide_False; [done|].
    intros ->. by rewrite oracle_image_involutive in Hne.
Qed.

Lemma construct_unitary_F_run (fdef : list string) (in_size : option nat)
    (L : nat) :
  (in_size = Some L /\ (0 < L)%nat) \/
  (in_size = None /\ exists s rest, fdef = s :: rest /\ String.length s = L) ->
  exists M,
    construct_unitary_F fdef in_size = Ok (mkMGate M (L + 1)) /\
    square (L + 1) M /\
    mat_is M (2 ^ (L + 1))
      (fun r c => if decide (c = oracle_image fdef L r) then aone else azero).
Proof.
  intros Hsize. destruct (oracle_matrix fdef L) as (M & HM & His).
  assert (square (L + 1) M) as Hsq by (split; apply His).
  exists M. split; [|done]. unfold construct_unitary_F.
  assert (match in_size with
          | Some (S n) => Ok (S n)
          | _ => s ← py_getitem fdef 0; Ok (String.length s)
          end = Ok L) as ->.
  { destruct Hsize as [[-> HL]|[-> (s & rest & -> & Hs)]].
    - destruct L; [lia|done].
    - rewrite (py_getitem_inrange (s :: rest) 0 s) by done.
      by rewrite res_bind_Ok_l, Hs. }
  rewrite res_bind_Ok_l. cbv zeta. rewrite HM, res_bind_Ok_l.
  by apply MGate_init_square.
Qed.

Lemma oracle_dot (fdef : list string) (L : nat) M v :
  mat_is M (2 ^ (L + 1))
    (fun r c => if decide (c = oracle_image fdef L r) then aone else azero) ->
  length v = (2 ^ (L + 1))%nat ->
  dot M v =
  Ok ((fun r => v !!! oracle_image fdef L r) <$> seq 0 (2 ^ (L + 1))).
Proof.
  intros HM Hv. apply dot_selection; [done| |done].
  intros r Hr. by apply oracle_image_range.
Qed.

(** X12.  The gate of [construct_unitary_F] permutes the amplitudes of
    any state: the pair of amplitudes at [2x] and [2x+1] is swapped when
    the label of [x] is in [fdef], and kept otherwise.  The strings of
    [fdef] need not have the input size. *)
Theorem construct_unitary_F_permutes (fdef : list string)
    (in_size : option nat) (L : nat) (h : list (list C)) (qreg : QReg)
    (v : list C) :
  (in_size = Some L /\ (0 < L)%nat) \/
  (in_size = None /\ exists s rest, fdef = s :: rest /\ String.length s = L) ->
  is_register h qreg (L + 1) v ->
  exists (g : MGate) qreg' h' w,
    construct_unitary_F fdef in_size = Ok g /\
    MGate_apply g qreg h = (Ok qreg', h') /\
    is_register h' qreg' (L + 1) w /\
    forall x b : nat, (x < 2 ^ L)%nat -> (b < 2)%nat ->
      w !! (2 * x + b)%nat =
      v !! (2 * x + (if bool_decide (basis_label L x ∈ fdef)
                     then 1 - b else b))%nat.
Proof.
  intros Hsize (Hbits & Hv & Hlen).
  destruct (construct_unitary_F_run fdef in_size L Hsize)
    as (M & Hrun & Hsq & His).
  pose proof (oracle_dot fdef L M v His Hlen) as Hdot.
  destruct (MGate_apply_result (mkMGate M (L + 1)) qreg h v _ Hv Hdot)
    as (qreg' & h' & Happ & Hb & Hw & _).
  eexists _, qreg', h', _. split; [exact Hrun|]. split; [exact Happ|].
  split.
  { split; [congruence|]. split; [exact Hw|].
    by rewrite length_fmap, length_seq. }
  intros x b Hx Hb2.
  assert (2 ^ (L + 1) = 2 * 2 ^ L)%nat as HN
    by (by rewrite Nat.add_1_r, Nat.pow_succ_r').
  destruct (half_double x b Hb2) as [Hd Hm].
  assert (oracle_image fdef L (2 * x + b) =
          2 * x + (if bool_decide (basis_label L x ∈ fdef)
                   then 1 - b else b))%nat as Himg.
  { unfold oracle_image. rewrite Hd, Hm. by destruct (bool_decide _). }
  rewrite <- Himg.
  etrans; [|symmetry; apply list_lookup_lookup_total_lt;
            rewrite Hlen; apply oracle_image_range; lia].
  by rewrite list_lookup_fmap, lookup_seq_lt by lia.
Qed.

(** X13.  The gate of [construct_unitary_F] is its own inverse: applied
    twice it returns the amplitudes of the input register. *)
Theorem construct_unitary_F_self_inverse (fdef : list string)
    (in_size : option nat) (L : nat) (h : list (list C)) (qreg : QReg)
    (v : list C) :
  (in_size = Some L /\ (0 < L)%nat) \/
  (in_size = None /\ exists s rest, fdef = s :: rest /\ String.length s = L) ->
  is_register h qreg (L + 1) v ->
  exists (g : MGate) r1 h1 r2 h2,
    construct_unitary_F fdef in_size = Ok g /\
    MGate_apply g qreg h = (Ok r1, h1) /\
    MGate_apply g r1 h1 = (Ok r2, h2) /\
    is_register h2 r2 (L + 1) v.
Proof.
  intros Hsize (Hbits & Hv & Hlen).
  destruct (construct_unitary_F_run fdef in_size L Hsize)
    as (M & Hrun & Hsq & His).
  pose proof (oracle_dot fdef L M v His Hlen) as Hdot.
  destruct (MGate_apply_result (mkMGate M (L + 1)) qreg h v _ Hv Hdot)
    as (r1 & h1 & Happ1 & Hb1 & Hw1 & _).
  set (w := (fun r => v !!! oracle_image fdef L r) <$> seq 0 (2 ^ (L + 1)))
    in *.
  assert (length w = (2 ^ (L + 1))%nat) as Hlw
    by (unfold w; by rewrite length_fmap, length_seq).
  pose proof (oracle_dot fdef L M w His Hlw) as Hdot2.
  assert ((fun r => w !!! oracle_image fdef L r) <$> seq 0 (2 ^ (L + 1)) = v)
    as Hback.
  { apply (list_eq_same_length _ _ (2 ^ (L + 1))%nat);
      [done|by rewrite length_fmap, length_seq|].
    intros r a b Hr Ha Hb.
    rewrite list_lookup_fmap, lookup_seq_lt in Ha by done. simpl in Ha.
    injection Ha as <-.
    pose proof (oracle_image_range fdef L r Hr) as Hir.
    assert (w !! oracle_image fdef L r =
            Some (v !!! oracle_image fdef L (oracle_image fdef L r))) as Hwr
      by (unfold w; by rewrite list_lookup_fmap, lookup_seq_lt by done).
    rewrite (list_lookup_total_correct _ _ _ Hwr), oracle_image_involutive.
    by apply list_lookup_total_correct. }
  rewrite Hback in Hdot2.
  destruct (MGate_apply_result (mkMGate M (L + 1)) r1 h1 w _ Hw1 Hdot2)
    as (r2 & h2 & Happ2 & Hb2 & Hw2 & _).
  exists (mkMGate M (L + 1)), r1, h1, r2, h2.
  do 3 (split; [done|]). split; [congruence|done].
Qed.

(** X14.  [construct_unitary_F] only tests [base in fdef] on the labels of
    the input size: two lists holding the same such labels give the same
    gate, so order, repetitions and strings of other lengths or other
    characters do not matter. *)
Theorem construct_unitary_F_membership (fdef fdef' : list string) (L : nat) :
  (0 < L)%nat ->
  (forall x, (x < 2 ^ L)%nat ->
     basis_label L x ∈ fdef <-> basis_label L x ∈ fdef') ->
  construct_unitary_F (C:=C) fdef (Some L) = construct_unitary_F fdef' (Some L)
  /\ is_Ok (construct_unitary_F (C:=C) fdef (Some L)).
Proof.
  intros HL Hsame.
  destruct (construct_unitary_F_run fdef (Some L) L ltac:(by left))
    as (M & Hrun & _ & His).
  destruct (construct_unitary_F_run fdef' (Some L) L ltac:(by left))
    as (M' & Hrun' & _ & His').
  rewrite Hrun, Hrun'. split; [|by eexists]. do 2 f_equal.
  apply (mat_is_unique M M' _ _ His).
  eapply mat_is_ext; [|exact His']. intros r c Hr _. simpl.
  assert (oracle_image fdef' L r = oracle_image fdef L r) as ->; [|done].
  unfold oracle_image.
  assert (r / 2 < 2 ^ L)%nat as Hx.
  { apply Nat.Div0.div_lt_upper_bound.
    by rewrite Nat.add_1_r, Nat.pow_succ_r' in Hr. }
  specialize (Hsame _ Hx).
  repeat case_bool_decide; tauto.
Qed.

(** X15.  When [fdef] holds no label of the input size (the empty list
    above all, with [in_size] given), [construct_unitary_F] returns the
    identity: [apply] returns the amplitudes of its input. *)
Theorem construct_unitary_F_rejecting (fdef : list string) (L : nat)
    (h : list (list C)) (qreg : QReg) (v : list C) :
  (0 < L)%nat ->
  (forall x, (x < 2 ^ L)%nat -> basis_label L x ∉ fdef) ->
  is_register h qreg (L + 1) v ->
  exists (g : MGate) qreg' h',
    construct_unitary_F fdef (Some L) = Ok g /\
    MGate_apply g qreg h = (Ok qreg', h') /\
    is_register h' qreg' (L + 1) v.
Proof.
  intros HL Hrej (Hbits & Hv & Hlen).
  destruct (construct_unitary_F_run fdef (Some L) L ltac:(by left))
    as (M & Hrun & Hsq & His).
  pose proof (oracle_dot fdef L M v His Hlen) as Hdot.
  assert ((fun r => v !!! oracle_image fdef L r) <$> seq 0 (2 ^ (L + 1)) = v)
    as Hid.
  { apply (list_eq_same_length _ _ (2 ^ (L + 1))%nat);
      [done|by rewrite length_fmap, length_seq|].
    intros r a b Hr Ha Hb.
    rewrite list_lookup_fmap, lookup_seq_lt in Ha by done. simpl in Ha.
    injection Ha as <-.
    unfold oracle_image. rewrite bool_decide_eq_false_2.
    - by apply list_lookup_total_correct.
    - apply Hrej. apply Nat.Div0.div_lt_upper_bound.
      by rewrite Nat.add_1_r, Nat.pow_succ_r' in Hr. }
  rewrite Hid in Hdot.
  destruct (MGate_apply_result (mkMGate M (L + 1)) qreg h v _ Hv Hdot)
    as (qreg' & h' & Happ & Hb & Hw & _).
  exists (mkMGate M (L + 1)), qreg', h'.
  do 2 (split; [done|]). split; [congruence|done].
Qed.

(** X16.  [if not in_size] also catches [in_size = 0]: then, as with no
    [in_size], the size is the length of the first string of [fdef] alone,
    and an empty [fdef] raises IndexError at [fdef[0]]. *)
Theorem construct_unitary_F_size_needed (in_size : option nat) :
  in_size = None \/ in_size = Some 0%nat ->
  construct_unitary_F (C:=C) [] in_size = Raise IndexError /\
  forall (s : string) (rest : list string),
    (0 < String.length s)%nat ->
    exists g : MGate,
      construct_unitary_F (s :: rest) in_size = Ok g /\
      dense_gate g (String.length s + 1).
Proof.
  intros Hsize.
  assert (forall fdef : list string,
            construct_unitary_F (C:=C) fdef in_size =
            construct_unitary_F fdef None) as Hnone
    by (by destruct Hsize as [->| ->]).
  split; [by rewrite Hnone|]. intros s rest Hs. rewrite Hnone.
  destruct (construct_unitary_F_run (s :: rest) None (String.length s))
    as (M & Hrun & Hsq & _); [right; split; [done|by eexists _, _]|].
  exists (mkMGate M (String.length s + 1)). by split.
Qed.

End oracle_more.

(** ** The keys of the lazy gate, bit by bit *)

Lemma target_index_testbit (P : list Z) (x : Z) : forall (i : nat) (q : Z),
  P !! i = Some q ->
  Z.testbit (target_index P x) (Z.of_nat (length P - 1 - i)) = Z.testbit x q.
Proof.
  induction P as [|p P IH]; intros i q Hi; [done|].
  cbn [target_index length].
  pose proof (target_index_range P x) as Ht.
  rewrite Z.add_comm, <- lor_fresh_bit
    by (first [lia|apply (testbit_above _ (Z.of_nat (length P))); lia]).
  rewrite Z.lor_spec. destruct i as [|i]; simpl in Hi.
  - injection Hi as ->.
    replace (Z.of_nat (S (length P) - 1 - 0)) with (Z.of_nat (length P)) by lia.
    rewrite (testbit_above _ (Z.of_nat (length P))) by lia.
    rewrite Z.mul_pow2_bits, Z.sub_diag by lia. simpl.
    apply Z.b2z_bit0.
  - pose proof (lookup_lt_Some _ _ _ Hi) as Hlt.
    rewrite testbit_b2z_pow2 by lia. rewrite orb_false_r.
    replace (S (length P) - 1 - S i)%nat with (length P - 1 - i)%nat by lia.
    by apply IH.
Qed.

Lemma spectator_index_testbit (qs : list Z) (x : Z) : forall (i : nat) (q : Z),
  qs !! i = Some q ->
  Z.testbit (spectator_index qs x) (Z.of_nat i) = Z.testbit x q.
Proof.
  induction qs as [|p qs IH]; intros i q Hi; [done|].
  cbn [spectator_index]. rewrite Z.add_comm. destruct i as [|i]; simpl in Hi.
  - injection Hi as ->. apply Z.testbit_0_r.
  - rewrite Nat2Z.inj_succ, Z.testbit_succ_r by lia. by apply IH.
Qed.

(** X17.  [LazyGate.get_qbpos] packs the bits of [base] at the target
    positions into a number below [2^len(qbpos)], first position most
    significant; a negative position raises ValueError (negative shift
    count). *)
Theorem get_qbpos_packs_bits (qbpos : list Z) (base : Z) :
  (Forall (fun q => 0 <= q) qbpos ->
   exists a,
     get_qbpos qbpos base = Ok a /\
     0 <= a < 2 ^ Z.of_nat (length qbpos) /\
     forall (i : nat) (q : Z), qbpos !! i = Some q ->
       Z.testbit a (Z.of_nat (length qbpos - 1 - i)) = Z.testbit base q) /\
  (Exists (fun q => q < 0) qbpos -> get_qbpos qbpos base = Raise ValueError).
Proof.
  split.
  - intros Hpos. exists (target_index qbpos base).
    split; [by apply get_qbpos_run|].
    split; [apply target_index_range|]. apply target_index_testbit.
  - apply get_qbpos_negative.
Qed.

(** X18.  [LazyGate.get_spectator], on the spectator positions that
    [__init__] computes, never raises and packs the bits of [base] at those
    positions, lowest position least significant. *)
Theorem get_spectator_packs_bits (qbpos : list Z) (n : nat) (base : Z) :
  exists a,
    get_spectator (filter (fun x => x ∉ qbpos) (seqZ 0 (Z.of_nat n))) base
      = Ok a /\
    0 <= a < 2 ^ Z.of_nat
               (length (filter (fun x => x ∉ qbpos) (seqZ 0 (Z.of_nat n)))) /\
    forall (i : nat) (q : Z),
      filter (fun x => x ∉ qbpos) (seqZ 0 (Z.of_nat n)) !! i = Some q ->
      Z.testbit a (Z.of_nat i) = Z.testbit base q.
Proof.
  eexists. split.
  - apply get_spectator_run. by apply filter_seqZ_ascending.
  - split; [apply spectator_index_range|]. apply spectator_index_testbit.
Qed.

(** X19.  The two keys determine the basis index: two indices below
    [2^qreg_size] with the same [get_qbpos] and the same [get_spectator]
    are equal. *)
Theorem LazyGate_keys_determine_base (qbpos : list Z) (n : nat) (x y : Z) :
  Forall (fun q => 0 <= q) qbpos ->
  0 <= x < 2 ^ Z.of_nat n -> 0 <= y < 2 ^ Z.of_nat n ->
  get_qbpos qbpos x = get_qbpos qbpos y ->
  get_spectator (filter (fun q => q ∉ qbpos) (seqZ 0 (Z.of_nat n))) x =
  get_spectator (filter (fun q => q ∉ qbpos) (seqZ 0 (Z.of_nat n))) y ->
  x = y.
Proof.
  intros Hpos Hx Hy Ht Hs.
  rewrite !get_qbpos_run in Ht by done.
  rewrite !get_spectator_run in Hs by (by apply filter_seqZ_ascending).
  rewrite pow2_of_nat in Hx, Hy.
  apply (keys_inj qbpos n); congruence.
Qed.

Section lazy_more.
Context {C : Type} `{AmpC : Amplitude C}.
Variable argsort : list Z -> list Z.
Hypothesis argsort_ok : argsort_spec argsort.

Implicit Types (v w new : list C) (U : list (list C)) (P tbl idx : list Z).

(** X20.  The table [bases] built by [LazyGate.__init__]: block [k] of
    [msize] consecutive entries holds the indices whose spectator key is
    [k], and entry [j] of a block has target key [j]. *)
Theorem LazyGate_init_layout U P (n : nat) :
  NoDup P -> Forall (fun q => 0 <= q < Z.of_nat n) P ->
  exists g : LazyGate,
    LazyGate_init argsort U P n = Ok g /\
    msize g = (2 ^ length P)%nat /\ qsize g = (2 ^ n)%nat /\
    length (bases g) = (2 ^ n)%nat /\
    specpos g = filter (fun q => q ∉ P) (seqZ 0 (Z.of_nat n)) /\
    forall (k j : nat) (b : Z),
      (j < 2 ^ length P)%nat ->
      bases g !! (k * 2 ^ length P + j)%nat = Some b ->
      get_spectator (specpos g) b = Ok (Z.of_nat k) /\
      get_qbpos (qbpos g) b = Ok (Z.of_nat j).
Proof.
  intros HND HP.
  destruct (LazyGate_init_table argsort argsort_ok P n HND HP U)
    as (tbl & Hinit & Hperm & Hkeys).
  eexists. split; [exact Hinit|]. cbn [msize qsize bases specpos qbpos].
  assert (length tbl = (2 ^ n)%nat) as Hlen
    by (by rewrite Hperm, length_seqZ, Nat2Z.id).
  do 4 (split; [done|]). intros k j b Hj Hb.
  assert (k < 2 ^ (n - length P))%nat as Hk.
  { apply lookup_lt_Some in Hb. rewrite Hlen, (N_blocks P n HND HP) in Hb.
    apply Nat.nle_gt. intros Hge.
    assert (2 ^ (n - length P) * 2 ^ length P <= k * 2 ^ length P)%nat
      by (by apply Nat.mul_le_mono_r).
    lia. }
  destruct (Hkeys k j b Hk Hj Hb) as [Hs Ht].
  rewrite get_spectator_run by (by apply filter_seqZ_ascending).
  rewrite get_qbpos_run by (eapply Forall_impl; [exact HP|]; simpl; lia).
  by rewrite Hs, Ht.
Qed.

End lazy_more.

(** ** [LazyGate.apply] on registers and matrices of the wrong size *)

Lemma res_mapM_error {A B} (f : A -> res B) (e0 : error) (l : list A) e :
  (forall x e', f x = Raise e' -> e' = e0) ->
  res_mapM f l = Raise e -> e = e0.
Proof.
  intros Hf. induction l as [|x l IH]; simpl; [done|].
  destruct (f x) as [y|e'] eqn:Hx; simpl.
  - destruct (res_mapM f l) as [ys|e'']; simpl; [done|].
    intros [= <-]. by apply IH.
  - intros [= <-]. by eapply Hf.
Qed.

Lemma py_index_error (n : nat) (i : Z) e :
  py_index n i = Raise e -> e = IndexError.
Proof. unfold py_index. repeat case_decide; congruence. Qed.

Lemma py_getitem_error {A} (l : list A) (i : Z) e :
  py_getitem l i = Raise e -> e = IndexError.
Proof.
  unfold py_getitem. destruct (py_index (length l) i) as [j|e'] eqn:Hj; simpl.
  - destruct (l !! j); congruence.
  - intros [= <-]. by eapply py_index_error.
Qed.

Lemma py_getitem_Ok_bound {A} (l : list A) (i : Z) (x : A) :
  py_getitem l i = Ok x -> - Z.of_nat (length l) <= i < Z.of_nat (length l).
Proof.
  unfold py_getitem, py_index. repeat case_decide; simpl; try done; lia.
Qed.

Lemma fancy_Ok_bound {A} (l : list A) (idx : list Z) : forall g,
  fancy l idx = Ok g ->
  Forall (fun b => - Z.of_nat (length l) <= b < Z.of_nat (length l)) idx.
Proof.
  unfold fancy. induction idx as [|b idx IH]; intros g Hg; [done|].
  simpl in Hg. apply res_bind_Ok in Hg as (x & Hx & Hg).
  apply res_bind_Ok in Hg as (xs & Hxs & _).
  constructor; [by eapply py_getitem_Ok_bound|by eapply IH].
Qed.

Lemma fancy_inrange {A} `{Inhabited A} (l : list A) (idx : list Z) :
  Forall (fun b => 0 <= b < Z.of_nat (length l)) idx ->
  fancy l idx = Ok ((fun b => l !!! Z.to_nat b) <$> idx).
Proof.
  intros Hidx. apply res_mapM_Ok. eapply Forall_impl; [exact Hidx|].
  intros b Hb. simpl in Hb. apply py_getitem_inrange; [lia|].
  apply list_lookup_lookup_total_lt. lia.
Qed.

Section lazy_edges.
Context {C : Type} `{AmpC : Amplitude C}.
Variable argsort : list Z -> list Z.
Hypothesis argsort_ok : argsort_spec argsort.

Implicit Types (v w new z : list C) (U : list (list C)) (P tbl idx : list Z).

Lemma put_values_error new idx w e :
  length w = length idx -> put_values new idx w = Raise e -> e = IndexError.
Proof.
  intros Hl. unfold put_values.
  destruct (res_mapM (py_index (length new)) idx) as [js|e'] eqn:Hjs; simpl.
  - unfold broadcast. by rewrite decide_True.
  - intros [= <-]. eapply res_mapM_error; [|exact Hjs].
    intros x e''. apply py_index_error.
Qed.

(** one pass either writes or stops on an index out of bounds *)
Lemma lazy_block_outcome (g : LazyGate) (m : nat) v new (i : nat) :
  square m (lmatrix g) ->
  length (py_slice (bases g) i (i + msize g)) = (2 ^ m)%nat ->
  match lazy_block g v new i with
  | Ok new' =>
      length new' = length new /\
      Forall (fun b => - Z.of_nat (length v) <= b < Z.of_nat (length v))
             (py_slice (bases g) i (i + msize g))
  | Raise e => e = IndexError
  end.
Proof.
  intros HU Hblk. unfold lazy_block.
  destruct (fancy v (py_slice (bases g) i (i + msize g))) as [gth|e] eqn:Hf;
    simpl.
  - pose proof (res_mapM_length _ _ _ Hf) as Hlg.
    destruct (dot_square m (lmatrix g) gth HU) as [-> Hlw]; [lia|]. simpl.
    destruct (put_values new _ _) as [new'|e] eqn:Hp.
    + split; [by eapply put_values_length|by eapply fancy_Ok_bound].
    + eapply put_values_error; [|exact Hp]. lia.
  - eapply res_mapM_error; [|exact Hf]. intros x e'. apply py_getitem_error.
Qed.

Lemma lazy_fold_outcome (g : LazyGate) (m : nat) v (blocks : list nat) :
  square m (lmatrix g) ->
  (forall i, i ∈ blocks ->
     length (py_slice (bases g) i (i + msize g)) = (2 ^ m)%nat) ->
  forall new,
  match res_foldM (lazy_block g v) new blocks with
  | Ok _ =>
      forall i, i ∈ blocks ->
        Forall (fun b => - Z.of_nat (length v) <= b < Z.of_nat (length v))
               (py_slice (bases g) i (i + msize g))
  | Raise e => e = IndexError
  end.
Proof.
  intros HU. induction blocks as [|i blocks IH]; intros Hblk new; simpl.
  - intros i Hi. by apply elem_of_nil in Hi.
  - pose proof (lazy_block_outcome g m v new i HU (Hblk i ltac:(left)))
      as Hstep.
    destruct (lazy_block g v new i) as [new'|e]; simpl; [|done].
    specialize (IH (fun j Hj => Hblk j ltac:(by right)) new').
    destruct (res_foldM (lazy_block g v) new' blocks) as [r|e]; [|done].
    intros j Hj. apply elem_of_cons in Hj as [->|Hj]; [apply Hstep|by apply IH].
Qed.

Lemma block_sizes (m n : nat) tbl (k : nat) :
  (m <= n)%nat -> length tbl = (2 ^ n)%nat -> (k < 2 ^ (n - m))%nat ->
  length (py_slice tbl (k * 2 ^ m) (k * 2 ^ m + 2 ^ m)) = (2 ^ m)%nat.
Proof.
  intros Hm Hl Hk. rewrite py_slice_block, length_take, length_drop, Hl.
  replace (2 ^ n)%nat with (2 ^ (n - m) * 2 ^ m)%nat
    by (rewrite <- Nat.pow_add_r; f_equal; lia).
  rewrite <- Nat.mul_sub_distr_r.
  pose proof (pow2_pos m).
  assert (1 * 2 ^ m <= (2 ^ (n - m) - k) * 2 ^ m)%nat
    by (apply Nat.mul_le_mono_r; lia).
  lia.
Qed.

Lemma lazy_blocks_list (m n : nat) :
  (m <= n)%nat ->
  py_range (2 ^ n) (2 ^ m) = (fun k => k * 2 ^ m)%nat <$> seq 0 (2 ^ (n - m)).
Proof.
  intros Hm.
  replace (2 ^ n)%nat with (2 ^ (n - m) * 2 ^ m)%nat
    by (rewrite <- Nat.pow_add_r; f_equal; lia).
  apply py_range_blocks, pow2_pos.
Qed.

(** X21.  [LazyGate.apply] checks no size: on a state with fewer than
    [2^qreg_size] amplitudes it raises IndexError (an index of the table is
    out of bounds), the input register unchanged. *)
Theorem LazyGate_apply_short_register U P (n : nat) (h : list (list C))
    (qreg : QReg) v :
  Forall (fun q => 0 <= q) P -> (length P <= n)%nat ->
  square (length P) U ->
  reg_state h qreg = Some v -> (length v < 2 ^ n)%nat ->
  exists (g : LazyGate) h',
    LazyGate_init argsort U P n = Ok g /\
    LazyGate_apply g qreg h = (Raise IndexError, h') /\
    reg_state h' qreg = Some v.
Proof.
  intros HP Hm HU Hv Hshort.
  destruct (LazyGate_init_Permutation argsort argsort_ok U P n HP)
    as (tbl & Hinit & Hperm).
  set (g := mkLazyGate n U (2 ^ length P) (2 ^ n) tbl P
              (filter (fun x => x ∉ P) (seqZ 0 (Z.of_nat n)))) in *.
  assert (length tbl = (2 ^ n)%nat) as Hlen
    by (by rewrite Hperm, length_seqZ, Nat2Z.id).
  assert (LazyGate_new_state g v = Raise IndexError) as Hnew.
  { unfold LazyGate_new_state.
    pose proof (lazy_fold_outcome g (length P) v
                  (py_range (qsize g) (msize g)) HU) as Hout.
    unfold g in Hout. cbn [qsize msize bases lmatrix] in Hout.
    rewrite (lazy_blocks_list _ _ Hm) in Hout.
    unfold g at 2 3. cbn [qsize msize]. rewrite (lazy_blocks_list _ _ Hm).
    specialize (Hout ltac:(intros i Hi;
      apply list_elem_of_fmap in Hi as (k & -> & Hk);
      apply elem_of_seq in Hk; apply (block_sizes _ n); [done..|lia])
      (np_zeros (length v))).
    destruct (res_foldM _ _ _) as [r|e]; [exfalso|by subst].
    pose proof (pow2_pos n) as Hpos.
    assert (Z.of_nat (2 ^ n - 1) ∈
            mjoin ((fun i => py_slice tbl i (i + 2 ^ length P)) <$>
                     ((fun k => k * 2 ^ length P)%nat <$>
                        seq 0 (2 ^ (n - length P))))) as Hin.
    { rewrite <- list_fmap_compose.
      erewrite list_fmap_ext; [|intros i k _; simpl; apply py_slice_block].
      rewrite (blocks_tile tbl _ _ 0).
      - rewrite Nat.mul_0_l, drop_0, Hperm. apply elem_of_seqZ. lia.
      - rewrite Nat.mul_0_l, drop_0, Hlen, <- Nat.pow_add_r.
        by replace (n - length P + length P)%nat with n by lia. }
    apply list_elem_of_join in Hin as (blk & Hb & Hblk).
    pose proof Hblk as Hblk'.
    apply list_elem_of_fmap in Hblk as (i & -> & Hi).
    specialize (Hout i Hi). rewrite Forall_forall in Hout.
    specialize (Hout _ Hb). lia. }
  destruct (LazyGate_apply_run g qreg h v Hv) as (b & _ & Hrun & _).
  rewrite Hnew in Hrun.
  exists g, (h ++ [b]). split; [done|]. split; [done|].
  by apply contents_alloc.
Qed.

(** X22.  A matrix whose number of columns is not [2^len(qbpos)] is
    accepted by [LazyGate.__init__] and rejected by the first pass of
    [apply], where [matrix.dot] raises on the shapes. *)
Theorem LazyGate_apply_wrong_matrix U P (n : nat) (h : list (list C))
    (qreg : QReg) v :
  Forall (fun q => 0 <= q) P -> (length P <= n)%nat ->
  shape1 U <> (2 ^ length P)%nat ->
  is_register h qreg n v ->
  exists (g : LazyGate) h',
    LazyGate_init argsort U P n = Ok g /\
    LazyGate_apply g qreg h = (Raise ShapeError, h') /\
    reg_state h' qreg = Some v.
Proof.
  intros HP Hm HU (_ & Hv & Hlv).
  destruct (LazyGate_init_Permutation argsort argsort_ok U P n HP)
    as (tbl & Hinit & Hperm).
  set (g := mkLazyGate n U (2 ^ length P) (2 ^ n) tbl P
              (filter (fun x => x ∉ P) (seqZ 0 (Z.of_nat n)))) in *.
  assert (length tbl = (2 ^ n)%nat) as Hlen
    by (by rewrite Hperm, length_seqZ, Nat2Z.id).
  assert (LazyGate_new_state g v = Raise ShapeError) as Hnew.
  { unfold LazyGate_new_state. unfold g at 2 3. cbn [qsize msize].
    rewrite (lazy_blocks_list _ _ Hm).
    pose proof (pow2_pos (n - length P)) as HG.
    destruct (2 ^ (n - length P))%nat as [|G'] eqn:EG; [lia|].
    cbn [seq fmap list_fmap res_foldM].
    assert (lazy_block g v (np_zeros (length v)) (0 * 2 ^ length P) =
            Raise ShapeError) as ->; [|done].
    unfold lazy_block, g. cbn [bases msize lmatrix].
    rewrite fancy_inrange.
    - rewrite res_bind_Ok_l. unfold dot. rewrite decide_False; [done|].
      rewrite length_fmap.
      rewrite (block_sizes (length P) n tbl 0 Hm Hlen) by lia. done.
    - apply Forall_forall. intros b Hb.
      assert (b ∈ tbl) as Hbt.
      { unfold py_slice in Hb.
        by apply subseteq_take, subseteq_drop in Hb. }
      rewrite Hperm in Hbt. apply elem_of_seqZ in Hbt. lia. }
  destruct (LazyGate_apply_run g qreg h v Hv) as (b & _ & Hrun & _).
  rewrite Hnew in Hrun.
  exists g, (h ++ [b]). split; [done|]. split; [done|].
  by apply contents_alloc.
Qed.

Lemma scatter_app_l (jxs : list (nat * C)) : forall new z,
  Forall (fun jx => (jx.1 < length new)%nat) jxs ->
  scatter (new ++ z) jxs = scatter new jxs ++ z.
Proof.
  induction jxs as [|jx jxs IH]; intros new z Hj; [done|].
  apply Forall_cons in Hj as [Hjx Hj].
  rewrite !scatter_cons, <- IH by (by rewrite length_insert).
  by rewrite insert_app_l.
Qed.

Lemma put_values_app new z idx w new' :
  Forall (fun b => 0 <= b < Z.of_nat (length new)) idx ->
  put_values new idx w = Ok new' ->
  put_values (new ++ z) idx w = Ok (new' ++ z).
Proof.
  intros Hidx. unfold put_values.
  rewrite (res_mapM_Ok _ Z.to_nat idx)
    by (eapply Forall_impl; [exact Hidx|];
        intros b Hb; by apply py_index_inrange).
  rewrite (res_mapM_Ok (py_index (length (new ++ z))) Z.to_nat idx)
    by (eapply Forall_impl; [exact Hidx|];
        intros b Hb; simpl in Hb; apply py_index_inrange;
        rewrite length_app; lia).
  rewrite !res_bind_Ok_l.
  destruct (broadcast w (length idx)) as [w'|]; simpl; [|done].
  intros [= <-]. f_equal. apply scatter_app_l.
  apply (Forall_zip_fst (fun j => (j < length new)%nat)), Forall_fmap.
  eapply Forall_impl; [exact Hidx|]. intros b Hb. simpl in *. lia.
Qed.

Lemma lazy_block_app (g : LazyGate) v extra new z (i : nat) new' :
  Forall (fun b => 0 <= b < Z.of_nat (length v))
         (py_slice (bases g) i (i + msize g)) ->
  length new = length v ->
  lazy_block g v new i = Ok new' ->
  lazy_block g (v ++ extra) (new ++ z) i = Ok (new' ++ z).
Proof.
  intros Hidx Hln. unfold lazy_block.
  rewrite (fancy_inrange v) by done.
  rewrite (fancy_inrange (v ++ extra))
    by (eapply Forall_impl; [exact Hidx|];
        intros b Hb; simpl in Hb; rewrite length_app; lia).
  assert ((fun b => (v ++ extra) !!! Z.to_nat b) <$>
            py_slice (bases g) i (i + msize g) =
          (fun b => v !!! Z.to_nat b) <$>
            py_slice (bases g) i (i + msize g)) as ->.
  { apply Forall_fmap_ext_1. eapply Forall_impl; [exact Hidx|].
    intros b Hb. simpl in *. apply lookup_total_app_l. lia. }
  rewrite !res_bind_Ok_l.
  destruct (dot (lmatrix g) _) as [w|]; simpl; [|done].
  apply put_values_app. by rewrite Hln.
Qed.

Lemma lazy_block_length (g : LazyGate) v new (i : nat) new' :
  lazy_block g v new i = Ok new' -> length new' = length new.
Proof.
  unfold lazy_block. intros Hb.
  apply res_bind_Ok in Hb as (gth & _ & Hb).
  apply res_bind_Ok in Hb as (w & _ & Hb).
  by eapply put_values_length.
Qed.

Lemma lazy_fold_app (g : LazyGate) v extra z (blocks : list nat) :
  (forall i, i ∈ blocks ->
     Forall (fun b => 0 <= b < Z.of_nat (length v))
            (py_slice (bases g) i (i + msize g))) ->
  forall new new',
  length new = length v ->
  res_foldM (lazy_block g v) new blocks = Ok new' ->
  res_foldM (lazy_block g (v ++ extra)) (new ++ z) blocks = Ok (new' ++ z).
Proof.
  induction blocks as [|i blocks IH]; intros Hblk new new' Hln; simpl.
  - by intros [= <-].
  - intros Hfold. apply res_bind_Ok in Hfold as (new1 & Hstep & Hfold).
    rewrite (lazy_block_app g v extra new z i new1);
      [|apply Hblk; left|done..].
    rewrite res_bind_Ok_l.
    apply IH; [|rewrite <- Hln; by eapply lazy_block_length|done].
    intros j Hj. apply Hblk. by right.
Qed.

(** X23.  [LazyGate.apply] on a state with more than [2^qreg_size]
    amplitudes does not fail: the first [2^qreg_size] amplitudes are
    transformed as by the dense gate, the others are not read and come out
    as zeros. *)
Theorem LazyGate_apply_long_register U P (n : nat) (h : list (list C))
    (qreg : QReg) v extra :
  NoDup P -> Forall (fun q => 0 <= q < Z.of_nat n) P ->
  square (length P) U ->
  reg_state h qreg = Some (v ++ extra) -> length v = (2 ^ n)%nat ->
  exists (g : LazyGate) r1 h1 w,
    LazyGate_init argsort U P n = Ok g /\
    LazyGate_apply g qreg h = (Ok r1, h1) /\
    dot (dense_embedding U P n) v = Ok w /\
    reg_state h1 r1 = Some (w ++ np_zeros (length extra)).
Proof.
  intros HND HP HU Hv Hlv.
  destruct (LazyGate_init_table argsort argsort_ok P n HND HP U)
    as (tbl & Hinit & Hperm & Hkeys).
  destruct (LazyGate_new_state_dense U P n tbl v (N_blocks P n HND HP)
              HU Hlv Hperm Hkeys) as (w & Hnew & Hdense & Hlw).
  set (g := mkLazyGate n U (2 ^ length P) (2 ^ n) tbl P
              (filter (fun x => x ∉ P) (seqZ 0 (Z.of_nat n)))) in *.
  assert (LazyGate_new_state g (v ++ extra) =
          Ok (w ++ np_zeros (length extra))) as Hlong.
  { unfold LazyGate_new_state in *.
    rewrite length_app. unfold np_zeros at 1. rewrite replicate_add.
    apply lazy_fold_app; [|apply np_zeros_length|exact Hnew].
    intros i _. apply Forall_forall. intros b Hb.
    assert (b ∈ tbl) as Hbt.
    { unfold py_slice, g in Hb. cbn [bases] in Hb.
      by apply subseteq_take, subseteq_drop in Hb. }
    rewrite Hperm in Hbt. apply elem_of_seqZ in Hbt. lia. }
  destruct (LazyGate_apply_run g qreg h _ Hv) as (b & Hlb & Hrun & Hb).
  rewrite Hlong in Hrun. specialize (Hb _ Hlong). subst b.
  eexists g, _, _, w. split; [done|]. split; [exact Hrun|]. split; [done|].
  unfold reg_state. cbn [state]. rewrite <- Hlb. apply contents_np_array.
Qed.

End lazy_edges.

Section dense_states.
Context {C : Type} `{AmpC : Amplitude C}.
Add Ring amplitude_ring_states : amp_ring.

Implicit Types (x y v w : list C) (A B D K M : list (list C)).

Lemma dotv_linear_r (a : C) x : forall v w,
  length v = length w ->
  dotv x (zip_with aadd (amul a <$> v) w) =
  aadd (amul a (dotv x v)) (dotv x w).
Proof.
  induction x as [|c x IH]; intros [|b v] [|d w] Hl; try done.
  - rewrite !dotv_nil_l. ring.
  - rewrite !dotv_nil_l. ring.
  - simpl zip_with. rewrite !dotv_nil_r. ring.
  - rewrite fmap_cons. simpl zip_with. rewrite !dotv_cons, IH by (simpl in Hl; lia).
    ring.
Qed.

Lemma fmap_zip_with_same {X} (f g : X -> C) (op : C -> C -> C) (l : list X) :
  zip_with op (f <$> l) (g <$> l) = (fun r => op (f r) (g r)) <$> l.
Proof. induction l as [|r l IH]; [done|]. rewrite !fmap_cons. simpl. by rewrite IH. Qed.

(** X24.  [MGate.apply] is linear in the state: on [a * v + w] it gives,
    within the tolerance of floating-point rounding, [a] times its result
    on [v] plus its result on [w] (exactly so in exact arithmetic, as
    here). *)
Theorem MGate_apply_linear (g : MGate) (k : nat) (a : C)
    (h : list (list C)) (qv qw qs : QReg) (v w : list C) :
  dense_gate g k ->
  is_register h qv k v -> is_register h qw k w ->
  is_register h qs k (zip_with aadd (amul a <$> v) w) ->
  exists rv hv rw hw rs hs gv gw,
    MGate_apply g qv h = (Ok rv, hv) /\ reg_state hv rv = Some gv /\
    MGate_apply g qw h = (Ok rw, hw) /\ reg_state hw rw = Some gw /\
    MGate_apply g qs h = (Ok rs, hs) /\
    reg_state hs rs = Some (zip_with aadd (amul a <$> gv) gw).
Proof.
  intros [_ Hsq] (_ & Hv & Hlv) (_ & Hw & Hlw) (_ & Hs & Hls).
  destruct (dot_square k (matrix g) v Hsq Hlv) as [Hdv _].
  destruct (dot_square k (matrix g) w Hsq Hlw) as [Hdw _].
  destruct (dot_square k (matrix g) _ Hsq Hls) as [Hds _].
  destruct (MGate_apply_result g qv h v _ Hv Hdv) as (rv & hv & Hrv & _ & Hgv & _).
  destruct (MGate_apply_result g qw h w _ Hw Hdw) as (rw & hw & Hrw & _ & Hgw & _).
  destruct (MGate_apply_result g qs h _ _ Hs Hds) as (rs & hs & Hrs & _ & Hgs & _).
  exists rv, hv, rw, hw, rs, hs. eexists _, _.
  do 5 (split; [done|]). rewrite Hgs. f_equal.
  rewrite <- list_fmap_compose, fmap_zip_with_same.
  apply list_fmap_ext. intros _ r _. simpl.
  apply dotv_linear_r. lia.
Qed.

(** X25.  A gate built with [*] acts factor by factor on a product state:
    the matrix of [A * B] sends [kron(v1, v2)], within the tolerance of
    floating-point rounding, to [kron(A.matrix . v1, B.matrix . v2)]
    (exactly so in exact arithmetic, as here). *)
Theorem MGate_mul_product_state (A B : MGate) (k1 k2 : nat) (v1 v2 : list C) :
  dense_gate A k1 -> dense_gate B k2 ->
  length v1 = (2 ^ k1)%nat -> length v2 = (2 ^ k2)%nat ->
  exists (g : MGate) w1 w2,
    MGate_mul A B = Ok g /\
    dot (matrix A) v1 = Ok w1 /\ dot (matrix B) v2 = Ok w2 /\
    dot (matrix g) (kron_row v1 v2) = Ok (kron_row w1 w2).
Proof.
  intros HA HB Hv1 Hv2.
  destruct (dot_square k1 (matrix A) v1 ltac:(apply HA) Hv1) as [Hd1 _].
  destruct (dot_square k2 (matrix B) v2 ltac:(apply HB) Hv2) as [Hd2 _].
  eexists _, _, _. split; [apply (MGate_mul_dense A B k1 k2 HA HB)|].
  split; [exact Hd1|]. split; [exact Hd2|]. cbn [matrix].
  destruct (dot_square (k1 + k2) (kron (matrix A) (matrix B))
              (kron_row v1 v2)) as [-> _].
  { apply kron_square; [apply HA|apply HB]. }
  { by rewrite kron_row_length, Hv1, Hv2, Nat.pow_add_r. }
  f_equal. destruct HB as [_ [_ HBr]]. clear Hd1 Hd2 HA.
  induction (matrix A) as [|ra A' IH]; [done|].
  rewrite kron_cons, fmap_app, IH, fmap_cons, kron_row_cons. f_equal.
  rewrite <- !list_fmap_compose. apply list_fmap_ext. intros i rb Hrb. simpl.
  apply dotv_kron_row. rewrite Hv2.
  rewrite Forall_forall in HBr. apply HBr. by eapply list_elem_of_lookup_2.
Qed.

(** X26.  [I ** n] is neutral for [+] on [n]-qubit gates, on either
    side. *)
Theorem I_pow_neutral (A : MGate) (n depth : nat) :
  dense_gate A n -> (1 <= n <= depth)%nat ->
  exists g1 In : MGate,
    I_gate = Ok g1 /\ MGate_pow depth g1 (Z.of_nat n) = Ok In /\
    MGate_add In A = Ok A /\ MGate_add A In = Ok A.
Proof.
  intros HA Hn.
  assert (square 1 (np_eye (C:=C) 2)) as Hsq
    by (split; [done|by repeat constructor]).
  set (g1 := mkMGate (np_eye 2) 1).
  assert (dense_gate g1 1) as Hg1 by done.
  destruct (MGate_pow_matrix g1 1 (n - 1) depth Hg1 ltac:(lia))
    as (In & HIn & MIn & DIn).
  replace (Z.of_nat (S (n - 1))) with (Z.of_nat n) in HIn by lia.
  replace (1 * S (n - 1))%nat with n in DIn by lia.
  assert (forall v, length v = (2 ^ n)%nat ->
            (fun r => dotv r v) <$> matrix In = v) as Hid.
  { intros v Hv. apply dot_Ok_inv. rewrite MIn. apply I_power_dot.
    by replace (S (n - 1)) with n by lia. }
  destruct (MGate_add_dense In A n DIn HA) as (M1 & _ & S1 & E1 & Act1).
  destruct (MGate_add_dense A In n HA DIn) as (M2 & _ & S2 & E2 & Act2).
  assert (A = mkMGate (matrix A) n) as EA
    by (destruct A; destruct HA as [Hq _]; simpl in Hq; by subst).
  exists g1, In. split; [by apply MGate_init_square|]. split; [done|].
  destruct HA as [_ HAsq]. split.
  - rewrite E1, EA. do 2 f_equal. apply (square_ext n); [done..|].
    intros v Hv. rewrite Act1 by done. rewrite Hid; [done|].
    rewrite length_fmap. apply HAsq.
  - rewrite E2, EA. do 2 f_equal. apply (square_ext n); [done..|].
    intros v Hv. rewrite Act2 by done. by rewrite Hid.
Qed.

End dense_states.

(** X27.  The table of [LazyGate.__init__] does not depend on how
    [np.argsort] orders equal keys: any two sorts meeting its contract
    build the same gate. *)
Theorem LazyGate_init_any_argsort {C : Type} (argsort1 argsort2 : list Z -> list Z)
    (U : list (list C)) (P : list Z) (n : nat) :
  argsort_spec argsort1 -> argsort_spec argsort2 ->
  NoDup P -> Forall (fun q => 0 <= q < Z.of_nat n) P ->
  LazyGate_init argsort1 U P n = LazyGate_init argsort2 U P n /\
  is_Ok (LazyGate_init argsort1 U P n).
Proof.
  intros H1 H2 HND HP.
  destruct (LazyGate_init_table argsort1 H1 P n HND HP U)
    as (t1 & E1 & Hp1 & K1).
  destruct (LazyGate_init_table argsort2 H2 P n HND HP U)
    as (t2 & E2 & Hp2 & K2).
  rewrite E1, E2. split; [|by eexists]. do 2 f_equal.
  assert (length t1 = (2 ^ n)%nat) as L1
    by (by rewrite Hp1, length_seqZ, Nat2Z.id).
  assert (length t2 = (2 ^ n)%nat) as L2
    by (by rewrite Hp2, length_seqZ, Nat2Z.id).
  apply (list_eq_same_length _ _ (2 ^ n)%nat); [done..|].
  intros p b1 b2 Hp Hb1 Hb2.
  pose proof (pow2_pos (length P)) as HM.
  pose proof (Nat.div_mod_eq p (2 ^ length P)) as Hdm.
  pose proof (Nat.mod_upper_bound p (2 ^ length P) ltac:(lia)) as Hj.
  assert (p / 2 ^ length P < 2 ^ (n - length P))%nat as Hk.
  { apply Nat.Div0.div_lt_upper_bound.
    rewrite Nat.mul_comm, <- (N_blocks P n HND HP). done. }
  assert (p = p / 2 ^ length P * 2 ^ length P + p mod 2 ^ length P)%nat
    as Hsplit by lia.
  rewrite Hsplit in Hb1, Hb2.
  destruct (K1 _ _ _ Hk Hj Hb1) as [Hs1 Ht1].
  destruct (K2 _ _ _ Hk Hj Hb2) as [Hs2 Ht2].
  apply (keys_inj P n); [| |congruence..].
  - apply list_elem_of_lookup_2 in Hb1. rewrite Hp1 in Hb1.
    apply elem_of_seqZ in Hb1. lia.
  - apply list_elem_of_lookup_2 in Hb2. rewrite Hp2 in Hb2.
    apply elem_of_seqZ in Hb2. lia.
Qed.

(** ** Instances of the further properties *)

Example CNOT_r_is_swapped_CNOT :
  exists (s c r : MGate (C:=Z)) sc scs,
    SWAP = Ok s /\ CNOT = Ok c /\ CNOT_r = Ok r /\
    MGate_add s c = Ok sc /\ MGate_add sc s = Ok scs /\ scs = r.
Proof. by eexists _, _, _, _, _. Qed.

Lemma register_Z_1234 :
  is_register [[1; 2; 3; 4]] (mkQReg 2 (mkndarray 0 0 1 4)) 2 [1; 2; 3; 4].
Proof. exact (is_register_single 2 [1; 2; 3; 4] eq_refl). Qed.

Lemma register_Z_8 :
  is_register [[1; 2; 3; 4; 5; 6; 7; 8]] (mkQReg 3 (mkndarray 0 0 1 8)) 3
    [1; 2; 3; 4; 5; 6; 7; 8].
Proof. exact (is_register_single 3 [1; 2; 3; 4; 5; 6; 7; 8] eq_refl). Qed.

Lemma MGate_add_size_mismatch_witness :
  dense_gate NOT_Z 1 /\ dense_gate CNOT_Z 2 /\ 1%nat <> 2%nat /\
  MGate_add NOT_Z CNOT_Z = Raise ShapeError.
Proof.
  split; [exact dense_NOT_Z|]. split; [exact dense_CNOT_Z|].
  split; [discriminate|].
  exact (MGate_add_size_mismatch NOT_Z CNOT_Z 1 2 dense_NOT_Z dense_CNOT_Z
           ltac:(discriminate)).
Defined.

Lemma MGate_mul_assoc_witness :
  dense_gate NOT_Z 1 /\ dense_gate CNOT_Z 2 /\ dense_gate SWAP_Z 2 /\
  exists AB BD g : MGate,
    MGate_mul NOT_Z CNOT_Z = Ok AB /\ MGate_mul CNOT_Z SWAP_Z = Ok BD /\
    MGate_mul AB SWAP_Z = Ok g /\ MGate_mul NOT_Z BD = Ok g /\
    dense_gate g (1 + 2 + 2).
Proof.
  split; [exact dense_NOT_Z|]. split; [exact dense_CNOT_Z|].
  split; [exact dense_SWAP_Z|].
  exact (MGate_mul_assoc NOT_Z CNOT_Z SWAP_Z 1 2 2
           dense_NOT_Z dense_CNOT_Z dense_SWAP_Z).
Defined.

Lemma MGate_pow_nonpositive_witness :
  0 < 1 /\ MGate_pow 1000 NOT_Z 0 = Raise RecursionError.
Proof.
  split; [lia|]. exact (MGate_pow_nonpositive NOT_Z 0 1000 ltac:(lia)).
Defined.

Lemma MGate_pow_add_witness :
  dense_gate CNOT_Z 2 /\ 1 <= 2 /\ 1 <= 3 /\ 2 + 3 <= Z.of_nat 10 /\
  exists gi gj g : MGate,
    MGate_pow 10 CNOT_Z 2 = Ok gi /\ MGate_pow 10 CNOT_Z 3 = Ok gj /\
    MGate_pow 10 CNOT_Z (2 + 3) = Ok g /\ MGate_mul gi gj = Ok g.
Proof.
  split; [exact dense_CNOT_Z|]. do 3 (split; [lia|]).
  exact (MGate_pow_add CNOT_Z 2 2 3 10 dense_CNOT_Z
           ltac:(lia) ltac:(lia) ltac:(lia)).
Defined.

Lemma MGate_add_assoc_witness :
  dense_gate CNOT_Z 2 /\ dense_gate SWAP_Z 2 /\
  exists AB BD g : MGate,
    MGate_add CNOT_Z SWAP_Z = Ok AB /\ MGate_add SWAP_Z CNOT_Z = Ok BD /\
    MGate_add AB CNOT_Z = Ok g /\ MGate_add CNOT_Z BD = Ok g.
Proof.
  split; [exact dense_CNOT_Z|]. split; [exact dense_SWAP_Z|].
  exact (MGate_add_assoc CNOT_Z SWAP_Z CNOT_Z 2
           dense_CNOT_Z dense_SWAP_Z dense_CNOT_Z).
Defined.

Lemma MGate_add_mul_interchange_witness :
  dense_gate NOT_Z 1 /\ dense_gate CNOT_Z 2 /\ dense_gate SWAP_Z 2 /\
  exists P P' SA SB g : MGate,
    MGate_mul NOT_Z CNOT_Z = Ok P /\ MGate_mul NOT_Z SWAP_Z = Ok P' /\
    MGate_add NOT_Z NOT_Z = Ok SA /\ MGate_add CNOT_Z SWAP_Z = Ok SB /\
    MGate_add P P' = Ok g /\ MGate_mul SA SB = Ok g.
Proof.
  split; [exact dense_NOT_Z|]. split; [exact dense_CNOT_Z|].
  split; [exact dense_SWAP_Z|].
  exact (MGate_add_mul_interchange NOT_Z NOT_Z CNOT_Z SWAP_Z 1 2
           dense_NOT_Z dense_NOT_Z dense_CNOT_Z dense_SWAP_Z).
Defined.

Lemma NOT_pow_is_LazyNOT_witness :
  (1 <= 2 <= 5)%nat /\
  is_register [[1; 2; 3; 4]] (mkQReg 2 (mkndarray 0 0 1 4)) 2 [1; 2; 3; 4] /\
  exists (g1 g : MGate) qreg' h' a w,
    NOT = Ok g1 /\ MGate_pow 5 g1 (Z.of_nat 2) = Ok g /\
    MGate_apply g (mkQReg 2 (mkndarray 0 0 1 4)) [[1; 2; 3; 4]]
      = (Ok qreg', h') /\
    LazyNOT_dot (state (mkQReg 2 (mkndarray 0 0 1 4))) [[1; 2; 3; 4]]
      = (Ok a, [[1; 2; 3; 4]]) /\
    reg_state h' qreg' = Some w /\ contents [[1; 2; 3; 4]] a = Some w /\
    w = reverse [1; 2; 3; 4].
Proof.
  split; [lia|]. split; [exact register_Z_1234|].
  exact (NOT_pow_is_LazyNOT 2 5 _ _ _ ltac:(lia) register_Z_1234).
Defined.

Lemma I_pow_is_identity_witness :
  (1 <= 2 <= 5)%nat /\
  is_register [[1; 2; 3; 4]] (mkQReg 2 (mkndarray 0 0 1 4)) 2 [1; 2; 3; 4] /\
  exists (g1 g : MGate) qreg' h',
    I_gate = Ok g1 /\ MGate_pow 5 g1 (Z.of_nat 2) = Ok g /\
    dense_gate g 2 /\
    MGate_apply g (mkQReg 2 (mkndarray 0 0 1 4)) [[1; 2; 3; 4]]
      = (Ok qreg', h') /\
    is_register h' qreg' 2 [1; 2; 3; 4].
Proof.
  split; [lia|]. split; [exact register_Z_1234|].
  exact (I_pow_is_identity 2 5 _ _ _ ltac:(lia) register_Z_1234).
Defined.

Lemma LazyCNOT_dot_is_CNOT_witness :
  contents [[1; 2; 3; 4]] (mkndarray 0 0 1 4) = Some [1; 2; 3; 4] /\
  length [1; 2; 3; 4] = 4%nat /\
  exists (g : MGate) a' h' w,
    CNOT = Ok g /\
    LazyCNOT_dot (mkndarray 0 0 1 4) [[1; 2; 3; 4]] = (Ok a', h') /\
    dot (matrix g) [1; 2; 3; 4] = Ok w /\ contents h' a' = Some w.
Proof.
  split; [reflexivity|]. split; [reflexivity|].
  exact (proj1 (LazyCNOT_dot_is_CNOT (C:=Z) [[1; 2; 3; 4]]
                  (mkndarray 0 0 1 4) [1; 2; 3; 4] eq_refl) eq_refl).
Defined.

Lemma LazyCNOT_dot_twice_witness :
  contents [[1; 2; 3; 4]] (mkndarray 0 0 1 4) = Some [1; 2; 3; 4] /\
  (2 <= length [1; 2; 3; 4])%nat /\
  exists a1 h1 a2 h2,
    LazyCNOT_dot (mkndarray 0 0 1 4) [[1; 2; 3; 4]] = (Ok a1, h1) /\
    LazyCNOT_dot a1 h1 = (Ok a2, h2) /\
    contents h2 a2 = Some [1; 2; 3; 4] /\
    contents h2 (mkndarray 0 0 1 4) = Some [1; 2; 3; 4] /\
    buf a1 <> buf (mkndarray 0 0 1 4) /\ buf a2 <> buf (mkndarray 0 0 1 4) /\
    buf a2 <> buf a1.
Proof.
  split; [reflexivity|]. split; [simpl; lia|].
  exact (LazyCNOT_dot_twice (C:=Z) [[1; 2; 3; 4]] (mkndarray 0 0 1 4)
           [1; 2; 3; 4] eq_refl ltac:(simpl; lia)).
Defined.

Lemma LazyCNOT_dot_too_short_witness :
  contents [[7]] (mkndarray 0 0 1 1) = Some [7] /\ (length [7] < 2)%nat /\
  exists h',
    LazyCNOT_dot (mkndarray 0 0 1 1) [[7]] = (Raise IndexError, h') /\
    contents h' (mkndarray 0 0 1 1) = Some [7].
Proof.
  split; [reflexivity|]. split; [simpl; lia|].
  exact (LazyCNOT_dot_too_short (C:=Z) [[7]] (mkndarray 0 0 1 1) [7]
           eq_refl ltac:(simpl; lia)).
Defined.

Lemma construct_unitary_F_permutes_witness :
  is_register [[1; 2; 3; 4; 5; 6; 7; 8]] (mkQReg 3 (mkndarray 0 0 1 8)) (2 + 1)
    [1; 2; 3; 4; 5; 6; 7; 8] /\
  exists (g : MGate) qreg' h' w,
    construct_unitary_F ["00"; "10"]%string None = Ok g /\
    MGate_apply g (mkQReg 3 (mkndarray 0 0 1 8)) [[1; 2; 3; 4; 5; 6; 7; 8]]
      = (Ok qreg', h') /\
    is_register h' qreg' (2 + 1) w /\
    forall x b : nat, (x < 2 ^ 2)%nat -> (b < 2)%nat ->
      w !! (2 * x + b)%nat =
      [1; 2; 3; 4; 5; 6; 7; 8] !!
        (2 * x + (if bool_decide (basis_label 2 x ∈ ["00"; "10"]%string)
                  then 1 - b else b))%nat.
Proof.
  split; [exact register_Z_8|].
  exact (construct_unitary_F_permutes ["00"; "10"]%string None 2 _ _ _
           (or_intror (conj eq_refl
              (ex_intro _ "00"%string (ex_intro _ ["10"%string]
                 (conj eq_refl eq_refl)))))
           register_Z_8).
Defined.

Lemma construct_unitary_F_self_inverse_witness :
  is_register [[1; 2; 3; 4; 5; 6; 7; 8]] (mkQReg 3 (mkndarray 0 0 1 8)) (2 + 1)
    [1; 2; 3; 4; 5; 6; 7; 8] /\
  exists (g : MGate) r1 h1 r2 h2,
    construct_unitary_F ["00"; "10"]%string (Some 2%nat) = Ok g /\
    MGate_apply g (mkQReg 3 (mkndarray 0 0 1 8)) [[1; 2; 3; 4; 5; 6; 7; 8]]
      = (Ok r1, h1) /\
    MGate_apply g r1 h1 = (Ok r2, h2) /\
    is_register h2 r2 (2 + 1) [1; 2; 3; 4; 5; 6; 7; 8].
Proof.
  split; [exact register_Z_8|].
  exact (construct_unitary_F_self_inverse ["00"; "10"]%string (Some 2%nat) 2
           _ _ _ (or_introl (conj eq_refl (Nat.lt_0_succ 1))) register_Z_8).
Defined.

Lemma construct_unitary_F_membership_witness :
  (0 < 2)%nat /\
  (forall x, (x < 2 ^ 2)%nat ->
     basis_label 2 x ∈ ["00"; "10"]%string <->
     basis_label 2 x ∈ ["10"; "00"; "10"; "1"; "abc"]%string) /\
  construct_unitary_F (C:=Z) ["00"; "10"]%string (Some 2%nat) =
  construct_unitary_F ["10"; "00"; "10"; "1"; "abc"]%string (Some 2%nat) /\
  is_Ok (construct_unitary_F (C:=Z) ["00"; "10"]%string (Some 2%nat)).
Proof.
  assert (forall x, (x < 2 ^ 2)%nat ->
            basis_label 2 x ∈ ["00"; "10"]%string <->
            basis_label 2 x ∈ ["10"; "00"; "10"; "1"; "abc"]%string) as Hsame.
  { intros x Hx. simpl in Hx.
    destruct x as [|[|[|[|x]]]]; [| | | |lia];
      apply (bool_decide_unpack _); vm_compute; exact I. }
  split; [lia|]. split; [exact Hsame|].
  exact (construct_unitary_F_membership (C:=Z) _ _ 2 ltac:(lia) Hsame).
Defined.

Lemma construct_unitary_F_rejecting_witness :
  (0 < 2)%nat /\
  (forall x, (x < 2 ^ 2)%nat -> basis_label 2 x ∉ @nil string) /\
  is_register [[1; 2; 3; 4; 5; 6; 7; 8]] (mkQReg 3 (mkndarray 0 0 1 8)) (2 + 1)
    [1; 2; 3; 4; 5; 6; 7; 8] /\
  exists (g : MGate) qreg' h',
    construct_unitary_F [] (Some 2%nat) = Ok g /\
    MGate_apply g (mkQReg 3 (mkndarray 0 0 1 8)) [[1; 2; 3; 4; 5; 6; 7; 8]]
      = (Ok qreg', h') /\
    is_register h' qreg' (2 + 1) [1; 2; 3; 4; 5; 6; 7; 8].
Proof.
  assert (forall x, (x < 2 ^ 2)%nat -> basis_label 2 x ∉ @nil string) as Hrej
    by (intros x _ Hin; by apply elem_of_nil in Hin).
  split; [lia|]. split; [exact Hrej|]. split; [exact register_Z_8|].
  exact (construct_unitary_F_rejecting [] 2 _ _ _ ltac:(lia) Hrej
           register_Z_8).
Defined.

Lemma construct_unitary_F_size_needed_witness :
  (Some 0%nat = None \/ Some 0%nat = Some 0%nat) /\
  construct_unitary_F (C:=Z) [] (Some 0%nat) = Raise IndexError /\
  forall (s : string) (rest : list string),
    (0 < String.length s)%nat ->
    exists g : MGate (C:=Z),
      construct_unitary_F (s :: rest) (Some 0%nat) = Ok g /\
      dense_gate g (String.length s + 1).
Proof.
  split; [right; reflexivity|].
  exact (construct_unitary_F_size_needed (C:=Z) (Some 0%nat)
           (or_intror eq_refl)).
Defined.

Lemma get_qbpos_packs_bits_witness :
  Forall (fun q => 0 <= q) [2; 0] /\
  exists a,
    get_qbpos [2; 0] 5 = Ok a /\
    0 <= a < 2 ^ Z.of_nat (length [2; 0]) /\
    forall (i : nat) (q : Z), [2; 0] !! i = Some q ->
      Z.testbit a (Z.of_nat (length [2; 0] - 1 - i)) = Z.testbit 5 q.
Proof.
  assert (Forall (fun q => 0 <= q) [2; 0]) as Hpos
    by (repeat constructor; lia).
  split; [exact Hpos|].
  exact (proj1 (get_qbpos_packs_bits [2; 0] 5) Hpos).
Defined.

Lemma LazyGate_keys_determine_base_witness :
  Forall (fun q => 0 <= q) [1] /\
  0 <= 5 < 2 ^ Z.of_nat 3 /\
  get_qbpos [1] 5 = get_qbpos [1] 5 /\
  get_spectator (filter (fun q => q ∉ [1]) (seqZ 0 (Z.of_nat 3))) 5 =
  get_spectator (filter (fun q => q ∉ [1]) (seqZ 0 (Z.of_nat 3))) 5 /\
  5 = 5.
Proof.
  assert (Forall (fun q => 0 <= q) [1]) as Hpos
    by (repeat constructor; lia).
  split; [exact Hpos|]. split; [simpl; lia|]. split; [reflexivity|].
  split; [reflexivity|].
  exact (LazyGate_keys_determine_base [1] 3 5 5 Hpos
           ltac:(simpl; lia) ltac:(simpl; lia) eq_refl eq_refl).
Defined.

Lemma LazyGate_init_layout_witness :
  argsort_spec msort_argsort /\ NoDup [1] /\
  Forall (fun q => 0 <= q < Z.of_nat 3) [1] /\
  exists g : LazyGate,
    LazyGate_init msort_argsort U1_Z [1] 3 = Ok g /\
    msize g = (2 ^ length [1])%nat /\ qsize g = (2 ^ 3)%nat /\
    length (bases g) = (2 ^ 3)%nat /\
    specpos g = filter (fun q => q ∉ [1]) (seqZ 0 (Z.of_nat 3)) /\
    forall (k j : nat) (b : Z),
      (j < 2 ^ length [1])%nat ->
      bases g !! (k * 2 ^ length [1] + j)%nat = Some b ->
      get_spectator (specpos g) b = Ok (Z.of_nat k) /\
      get_qbpos (qbpos g) b = Ok (Z.of_nat j).
Proof.
  assert (NoDup [1]) as Hnd by apply NoDup_singleton.
  assert (Forall (fun q => 0 <= q < Z.of_nat 3) [1]) as Hr
    by (repeat constructor; simpl; lia).
  split; [exact msort_argsort_spec|]. split; [exact Hnd|]. split; [exact Hr|].
  exact (LazyGate_init_layout msort_argsort msort_argsort_spec U1_Z [1] 3
           Hnd Hr).
Defined.

Lemma LazyGate_apply_short_register_witness :
  argsort_spec msort_argsort /\ Forall (fun q => 0 <= q) [1] /\
  (length [1] <= 3)%nat /\ square (length [1]) U1_Z /\
  reg_state [[1; 2; 3; 4]] (mkQReg 3 (mkndarray 0 0 1 4)) = Some [1; 2; 3; 4] /\
  (length [1; 2; 3; 4] < 2 ^ 3)%nat /\
  exists (g : LazyGate) h',
    LazyGate_init msort_argsort U1_Z [1] 3 = Ok g /\
    LazyGate_apply g (mkQReg 3 (mkndarray 0 0 1 4)) [[1; 2; 3; 4]]
      = (Raise IndexError, h') /\
    reg_state h' (mkQReg 3 (mkndarray 0 0 1 4)) = Some [1; 2; 3; 4].
Proof.
  assert (Forall (fun q => 0 <= q) [1]) as Hpos
    by (repeat constructor; lia).
  assert (square (length [1]) U1_Z) as HU
    by (split; [reflexivity|repeat constructor]).
  split; [exact msort_argsort_spec|]. split; [exact Hpos|].
  split; [simpl; lia|]. split; [exact HU|]. split; [reflexivity|].
  split; [simpl; lia|].
  exact (LazyGate_apply_short_register msort_argsort msort_argsort_spec
           U1_Z [1] 3 [[1; 2; 3; 4]] (mkQReg 3 (mkndarray 0 0 1 4))
           [1; 2; 3; 4] Hpos ltac:(simpl; lia) HU eq_refl ltac:(simpl; lia)).
Defined.

Lemma LazyGate_apply_wrong_matrix_witness :
  argsort_spec msort_argsort /\ Forall (fun q => 0 <= q) [1] /\
  (length [1] <= 3)%nat /\ shape1 U2_Z <> (2 ^ length [1])%nat /\
  is_register [[1; 2; 3; 4; 5; 6; 7; 8]] (mkQReg 3 (mkndarray 0 0 1 8)) 3
    [1; 2; 3; 4; 5; 6; 7; 8] /\
  exists (g : LazyGate) h',
    LazyGate_init msort_argsort U2_Z [1] 3 = Ok g /\
    LazyGate_apply g (mkQReg 3 (mkndarray 0 0 1 8)) [[1; 2; 3; 4; 5; 6; 7; 8]]
      = (Raise ShapeError, h') /\
    reg_state h' (mkQReg 3 (mkndarray 0 0 1 8)) = Some [1; 2; 3; 4; 5; 6; 7; 8].
Proof.
  assert (Forall (fun q => 0 <= q) [1]) as Hpos
    by (repeat constructor; lia).
  assert (shape1 U2_Z <> (2 ^ length [1])%nat) as HU by discriminate.
  split; [exact msort_argsort_spec|]. split; [exact Hpos|].
  split; [simpl; lia|]. split; [exact HU|]. split; [exact register_Z_8|].
  exact (LazyGate_apply_wrong_matrix msort_argsort msort_argsort_spec
           U2_Z [1] 3 _ _ _ Hpos ltac:(simpl; lia) HU register_Z_8).
Defined.

Lemma LazyGate_apply_long_register_witness :
  argsort_spec msort_argsort /\ NoDup [0] /\
  Forall (fun q => 0 <= q < Z.of_nat 1) [0] /\ square (length [0]) U1_Z /\
  reg_state [[1; 2; 3; 4]] (mkQReg 1 (mkndarray 0 0 1 4))
    = Some ([1; 2] ++ [3; 4]) /\
  length [1; 2] = (2 ^ 1)%nat /\
  exists (g : LazyGate) r1 h1 w,
    LazyGate_init msort_argsort U1_Z [0] 1 = Ok g /\
    LazyGate_apply g (mkQReg 1 (mkndarray 0 0 1 4)) [[1; 2; 3; 4]]
      = (Ok r1, h1) /\
    dot (dense_embedding U1_Z [0] 1) [1; 2] = Ok w /\
    reg_state h1 r1 = Some (w ++ np_zeros (length [3; 4])).
Proof.
  assert (NoDup [0]) as Hnd by apply NoDup_singleton.
  assert (Forall (fun q => 0 <= q < Z.of_nat 1) [0]) as Hr
    by (repeat constructor; simpl; lia).
  assert (square (length [0]) U1_Z) as HU
    by (split; [reflexivity|repeat constructor]).
  split; [exact msort_argsort_spec|]. split; [exact Hnd|]. split; [exact Hr|].
  split; [exact HU|]. split; [reflexivity|]. split; [reflexivity|].
  exact (LazyGate_apply_long_register msort_argsort msort_argsort_spec
           U1_Z [0] 1 [[1; 2; 3; 4]] (mkQReg 1 (mkndarray 0 0 1 4))
           [1; 2] [3; 4] Hnd Hr HU eq_refl eq_refl).
Defined.

Lemma MGate_apply_linear_witness :
  dense_gate NOT_Z 1 /\
  is_register [[1; 2]; [5; 7]; [8; 13]] (mkQReg 1 (mkndarray 0 0 1 2)) 1 [1; 2] /\
  is_register [[1; 2]; [5; 7]; [8; 13]] (mkQReg 1 (mkndarray 1 0 1 2)) 1 [5; 7] /\
  is_register [[1; 2]; [5; 7]; [8; 13]] (mkQReg 1 (mkndarray 2 0 1 2)) 1
    (zip_with aadd (amul 3 <$> [1; 2]) [5; 7]) /\
  exists rv hv rw hw rs hs gv gw,
    MGate_apply NOT_Z (mkQReg 1 (mkndarray 0 0 1 2)) [[1; 2]; [5; 7]; [8; 13]]
      = (Ok rv, hv) /\ reg_state hv rv = Some gv /\
    MGate_apply NOT_Z (mkQReg 1 (mkndarray 1 0 1 2)) [[1; 2]; [5; 7]; [8; 13]]
      = (Ok rw, hw) /\ reg_state hw rw = Some gw /\
    MGate_apply NOT_Z (mkQReg 1 (mkndarray 2 0 1 2)) [[1; 2]; [5; 7]; [8; 13]]
      = (Ok rs, hs) /\
    reg_state hs rs = Some (zip_with aadd (amul 3 <$> gv) gw).
Proof.
  assert (is_register [[1; 2]; [5; 7]; [8; 13]]
            (mkQReg 1 (mkndarray 0 0 1 2)) 1 [1; 2]) as Hv
    by (split; [reflexivity|split; reflexivity]).
  assert (is_register [[1; 2]; [5; 7]; [8; 13]]
            (mkQReg 1 (mkndarray 1 0 1 2)) 1 [5; 7]) as Hw
    by (split; [reflexivity|split; reflexivity]).
  assert (is_register [[1; 2]; [5; 7]; [8; 13]]
            (mkQReg 1 (mkndarray 2 0 1 2)) 1
            (zip_with aadd (amul 3 <$> [1; 2]) [5; 7])) as Hs
    by (split; [reflexivity|split; reflexivity]).
  split; [exact dense_NOT_Z|]. split; [exact Hv|]. split; [exact Hw|].
  split; [exact Hs|].
  exact (MGate_apply_linear NOT_Z 1 3 _ _ _ _ _ _ dense_NOT_Z Hv Hw Hs).
Defined.

Lemma MGate_mul_product_state_witness :
  dense_gate NOT_Z 1 /\ dense_gate CNOT_Z 2 /\
  length [1; 2] = (2 ^ 1)%nat /\ length [1; 2; 3; 4] = (2 ^ 2)%nat /\
  exists (g : MGate) w1 w2,
    MGate_mul NOT_Z CNOT_Z = Ok g /\
    dot (matrix NOT_Z) [1; 2] = Ok w1 /\
    dot (matrix CNOT_Z) [1; 2; 3; 4] = Ok w2 /\
    dot (matrix g) (kron_row [1; 2] [1; 2; 3; 4]) = Ok (kron_row w1 w2).
Proof.
  split; [exact dense_NOT_Z|]. split; [exact dense_CNOT_Z|].
  split; [reflexivity|]. split; [reflexivity|].
  exact (MGate_mul_product_state NOT_Z CNOT_Z 1 2 [1; 2] [1; 2; 3; 4]
           dense_NOT_Z dense_CNOT_Z eq_refl eq_refl).
Defined.

Lemma I_pow_neutral_witness :
  dense_gate CNOT_Z 2 /\ (1 <= 2 <= 5)%nat /\
  exists g1 In : MGate,
    I_gate = Ok g1 /\ MGate_pow 5 g1 (Z.of_nat 2) = Ok In /\
    MGate_add In CNOT_Z = Ok CNOT_Z /\ MGate_add CNOT_Z In = Ok CNOT_Z.
Proof.
  split; [exact dense_CNOT_Z|]. split; [lia|].
  exact (I_pow_neutral CNOT_Z 2 5 dense_CNOT_Z ltac:(lia)).
Defined.

Lemma LazyGate_init_any_argsort_witness :
  argsort_spec msort_argsort /\ argsort_spec tie_argsort /\
  msort_argsort [0; 0; 1; 0] = [0; 1; 3; 2] /\
  tie_argsort [0; 0; 1; 0] = [3; 1; 0; 2] /\
  NoDup [1] /\ Forall (fun q => 0 <= q < Z.of_nat 3) [1] /\
  LazyGate_init msort_argsort U1_Z [1] 3 =
  LazyGate_init tie_argsort U1_Z [1] 3 /\
  is_Ok (LazyGate_init msort_argsort U1_Z [1] 3).
Proof.
  assert (NoDup [1]) as Hnd by apply NoDup_singleton.
  assert (Forall (fun q => 0 <= q < Z.of_nat 3) [1]) as Hr
    by (repeat constructor; simpl; lia).
  split; [exact msort_argsort_spec|]. split; [exact tie_argsort_spec|].
  split; [reflexivity|]. split; [reflexivity|].
  split; [exact Hnd|]. split; [exact Hr|].
  exact (LazyGate_init_any_argsort msort_argsort tie_argsort U1_Z [1] 3
           msort_argsort_spec tie_argsort_spec Hnd Hr).
Defined.
